(** * The goose memory server: category files, grouped retrieval, removal

    A shallow embedding of the two TypeScript implementations of the memory
    extension and the properties their specification states about them:

    - the file backed MCP server ([crates/goose-mcp-memory/.../index.ts]),
      module [Server] below, over a model of the [fs-extra] calls it makes;
    - the browser [MemoryManager] class (Web Storage backed), module
      [Manager] below, over a model of [localStorage].

    Both share the text format of a category body and the loop that decodes
    it; that code is embedded once, in module [Codec]. *)

From stdpp Require Import base option list strings.
From Stdlib Require Import Ascii NArith Lia.

Local Open Scope N_scope.

(* ===================================================================== *)
(** * JavaScript strings and the String.prototype methods the code calls *)
(* ===================================================================== *)

(** A JavaScript string is a finite sequence of UTF-16 code units; a code
    unit is kept as an [N].  String literals of the source are written with
    [js "..."] (all of them are ASCII). *)
Abbreviation jsstring := (list N).

Module JS.

Fixpoint js (s : string) : jsstring :=
  match s with
  | EmptyString => []
  | String a s' => Ascii.N_of_ascii a :: js s'
  end.

(** The code units removed by [trim]: ECMAScript WhiteSpace and
    LineTerminator. *)
Definition is_white (c : N) : bool :=
  (c =? 9) || (c =? 10) || (c =? 11) || (c =? 12) || (c =? 13) || (c =? 32)
  || (c =? 160) || (c =? 5760) || ((8192 <=? c) && (c <=? 8202))
  || (c =? 8232) || (c =? 8233) || (c =? 8239) || (c =? 8287)
  || (c =? 12288) || (c =? 65279).

Fixpoint trimStart (s : jsstring) : jsstring :=
  match s with
  | [] => []
  | c :: s' => if is_white c then trimStart s' else s
  end.

Definition trimEnd (s : jsstring) : jsstring := rev (trimStart (rev s)).

(** [s.trim()] *)
Definition trim (s : jsstring) : jsstring := trimEnd (trimStart s).

(** Truthiness of a string value: only the empty string is falsy. *)
Definition truthy (s : jsstring) : bool :=
  match s with [] => false | _ :: _ => true end.

(** [s.startsWith(p)] *)
Fixpoint startsWith (s p : jsstring) {struct p} : bool :=
  match p with
  | [] => true
  | a :: p' =>
      match s with
      | [] => false
      | b :: s' => (b =? a) && startsWith s' p'
      end
  end.

(** [s.endsWith(p)] *)
Definition endsWith (s p : jsstring) : bool := startsWith (rev s) (rev p).

(** [s.includes(p)]: [p] occurs somewhere in [s]. *)
Fixpoint includes (s p : jsstring) : bool :=
  startsWith s p ||
  match s with
  | [] => false
  | _ :: s' => includes s' p
  end.

(** [s.substring(n)] for [n] a non-negative literal. *)
Definition substring (s : jsstring) (n : nat) : jsstring := drop n s.

(** [s.replace(pat, rep)] with a string pattern: only the first occurrence
    is replaced.  [rep] is taken literally (the program passes ['']). *)
Fixpoint replace (s pat rep : jsstring) : jsstring :=
  if startsWith s pat then rep ++ drop (length pat) s
  else match s with
       | [] => []
       | c :: s' => c :: replace s' pat rep
       end.

Definition cons_head (c : N) (ps : list jsstring) : list jsstring :=
  match ps with
  | [] => [[c]]
  | p :: ps' => (c :: p) :: ps'
  end.

(** The scan of [s.split(sep)] for a non-empty [sep]: left to right, the
    leftmost occurrence of [sep] ends the current piece and the scan resumes
    behind it.  [skip] counts the code units of a matched separator that
    are still to be passed over. *)
Fixpoint split_from (sep : jsstring) (skip : nat) (s : jsstring) : list jsstring :=
  match s with
  | [] => [[]]
  | c :: s' =>
      match skip with
      | S k => split_from sep k s'
      | O =>
          if startsWith s sep
          then [] :: split_from sep (length sep - 1) s'
          else cons_head c (split_from sep 0 s')
      end
  end.

(** [s.split(sep)]; with the empty separator the result is the list of the
    code units. *)
Definition split (s sep : jsstring) : list jsstring :=
  match sep with
  | [] => map (fun c => [c]) s
  | _ :: _ => split_from sep 0 s
  end.

(** [xs.join(sep)] *)
Fixpoint join (xs : list jsstring) (sep : jsstring) : jsstring :=
  match xs with
  | [] => []
  | [x] => x
  | x :: xs' => x ++ sep ++ join xs' sep
  end.

(** Property keys that are array indices: the canonical decimal numerals of
    the integers below 2^32 - 1.  Own property enumeration lists them
    first. *)
Definition digit (c : N) : option N :=
  if (48 <=? c) && (c <=? 57) then Some (c - 48) else None.

Fixpoint parse_digits (acc : N) (s : jsstring) : option N :=
  match s with
  | [] => Some acc
  | c :: s' =>
      match digit c with
      | Some d => parse_digits (10 * acc + d) s'
      | None => None
      end
  end.

Definition array_index (k : jsstring) : option N :=
  match k with
  | [] => None
  | c :: rest =>
      if (c =? 48) && truthy rest then None
      else match parse_digits 0 k with
           | Some n => if n <? 4294967295 then Some n else None
           | None => None
           end
  end.

(** Surrogate code units. *)
Definition is_high (c : N) : bool := (55296 <=? c) && (c <=? 56319).
Definition is_low (c : N) : bool := (56320 <=? c) && (c <=? 57343).

(** [s.toWellFormed()]: each surrogate that is not part of a pair becomes
    U+FFFD.  This is what the UTF-8 encoding of a string decodes to. *)
Fixpoint toWellFormed (s : jsstring) : jsstring :=
  match s with
  | [] => []
  | c :: s' =>
      if is_high c then
        match s' with
        | d :: s'' =>
            if is_low d then c :: d :: toWellFormed s'' else 65533 :: toWellFormed s'
        | [] => [65533]
        end
      else if is_low c then 65533 :: toWellFormed s'
      else c :: toWellFormed s'
  end.

(** [s.isWellFormed()] *)
Definition isWellFormed (s : jsstring) : bool := bool_decide (toWellFormed s = s).

(** The number of bytes of the UTF-8 encoding ([Buffer.byteLength(s)]): a
    surrogate pair takes four, two for each half. *)
Definition utf8_unit (c : N) : nat :=
  if c <? 128 then 1%nat
  else if c <? 2048 then 2%nat
  else if is_high c || is_low c then 2%nat
  else 3%nat.

Definition utf8_length (s : jsstring) : nat :=
  sum_list (map utf8_unit (toWellFormed s)).

End JS.

Abbreviation js := JS.js.

(* ===================================================================== *)
(** * Keyed entries in creation order                                     *)
(* ===================================================================== *)

(** The own properties of a plain object, the items of a Storage and the
    entries of a file tree are all kept as lists of key/value pairs in
    creation order, one pair per key. *)
Module Assoc.
Section Assoc.
Context {K V : Type} `{EqDecision K}.

Fixpoint get (k : K) (o : list (K * V)) : option V :=
  match o with
  | [] => None
  | (k', v) :: o' => if decide (k = k') then Some v else get k o'
  end.

(** Defining or overwriting the value under [k]; an existing key keeps its
    place in the creation order. *)
Fixpoint put (k : K) (v : V) (o : list (K * V)) : list (K * V) :=
  match o with
  | [] => [(k, v)]
  | (k', v') :: o' => if decide (k = k') then (k, v) :: o' else (k', v') :: put k v o'
  end.

(** In-place update of the value held under [k]. *)
Fixpoint alter (f : V → V) (k : K) (o : list (K * V)) : list (K * V) :=
  match o with
  | [] => []
  | (k', v) :: o' => if decide (k = k') then (k', f v) :: o' else (k', v) :: alter f k o'
  end.

(** The pairs whose key passes [keep]. *)
Definition restrict (keep : K → bool) (o : list (K * V)) : list (K * V) :=
  List.filter (fun kv => keep kv.1) o.

End Assoc.
End Assoc.

(* ===================================================================== *)
(** * Plain objects used as string-keyed records                          *)
(* ===================================================================== *)

(** [Record<string, V>] values built from [{}] by assignments
    [o[k] = v]: the own enumerable data properties in creation order.  The
    program reads [memories[k]] only at [k = 'untagged'], a name no
    prototype defines, so that read is [Assoc.get]. *)
Abbreviation JsObject V := (list (jsstring * V)).

Module Obj.
Section Obj.
Context {V : Type}.

(** The assignment [o[k] = v] for an object value [v]: every key creates
    or overwrites an own property except ['__proto__'], which runs the
    inherited setter: it swaps the prototype and adds no own property. *)
Definition set (k : jsstring) (v : V) (o : JsObject V) : JsObject V :=
  if decide (k = js "__proto__") then o else Assoc.put k v o.

Fixpoint insert_sorted (e : N * V) (l : list (N * V)) : list (N * V) :=
  match l with
  | [] => [e]
  | e' :: l' => if e.1 <=? e'.1 then e :: l else e' :: insert_sorted e l'
  end.

Definition index_props (o : JsObject V) : list (N * V) :=
  omap (fun kv => (fun n => (n, kv.2)) <$> JS.array_index kv.1) o.

Definition named_props (o : JsObject V) : list V :=
  omap (fun kv => match JS.array_index kv.1 with
                  | Some _ => None
                  | None => Some kv.2
                  end) o.

(** [Object.values(o)]: array-index keys first, in ascending numeric
    order, then the other keys in creation order. *)
Definition values (o : JsObject V) : list V :=
  (foldr insert_sorted [] (index_props o)).*2 ++ named_props o.

End Obj.
End Obj.

(* ===================================================================== *)
(** * The category body format (shared by both implementations)          *)
(* ===================================================================== *)

Module Codec.

(** ['\n'], ['\n\n'] and [' '] *)
Definition LF : jsstring := [10].
Definition delimiter : jsstring := [10; 10].
Definition SP : jsstring := [32].

Definition untaggedKey : jsstring := js "untagged".

(** The text appended by a store ([content] in the [remember_memory]
    handler and in [MemoryManager.remember]):
    [# ${tags.join(' ')}\n] when there are tags, then [${data}\n\n]. *)
Definition content (data : jsstring) (tags : list jsstring) : jsstring :=
  (if (0 <? length tags)%nat then js "# " ++ JS.join tags SP ++ LF else [])
  ++ data ++ delimiter.

(** [lines.filter(line => line.trim())] *)
Definition nonblank (lines : list jsstring) : list jsstring :=
  List.filter (fun line => JS.truthy (JS.trim line)) lines.

(** One iteration of the loop [for (const entry of entries)] of
    [retrieveCategory] / [MemoryManager.retrieve]. *)
Definition groupEntry (memories : JsObject (list jsstring)) (entry : jsstring)
  : JsObject (list jsstring) :=
  if negb (JS.truthy (JS.trim entry)) then memories
  else
    match JS.split entry LF with
    | [] => memories
    | firstLine :: rest =>
        if JS.startsWith firstLine (js "# ") then
          let tags := JS.split (JS.trim (JS.substring firstLine 2)) SP in
          let tagKey := JS.join tags SP in
          Obj.set tagKey (nonblank rest) memories
        else
          let memories1 :=
            match Assoc.get untaggedKey memories with
            | None => Obj.set untaggedKey [] memories
            | Some _ => memories
            end in
          Assoc.alter (fun arr => arr ++ nonblank (firstLine :: rest)) untaggedKey memories1
    end.

(** The whole loop over [content.split('\n\n')], from [memories = {}]. *)
Definition groupEntries (body : jsstring) : JsObject (list jsstring) :=
  fold_left groupEntry (JS.split body delimiter) [].

(** [memories.filter(memory => !memory.includes(memory_content)).join('\n\n')]
    over [content.split('\n\n')], the new body written by the removal of a
    specific memory. *)
Definition withoutMatching (body memory_content : jsstring) : jsstring :=
  JS.join
    (List.filter (fun memory => negb (JS.includes memory memory_content))
       (JS.split body delimiter))
    delimiter.

End Codec.

(* ===================================================================== *)
(** * Effects: exceptions and the state of the backing store              *)
(* ===================================================================== *)

(** A thrown [Error] value: its [name] and [message]. *)
Record JsError := { name : jsstring; message : jsstring }.

(** [String(error)] / [`${error}`] (Error.prototype.toString). *)
Definition String_of_error (error : JsError) : jsstring :=
  match name error, message error with
  | [], m => m
  | n, [] => n
  | n, m => n ++ js ": " ++ m
  end.

Inductive outcome (A : Type) : Type :=
| Returned (a : A)
| Thrown (error : JsError).
Arguments Returned {A} a.
Arguments Thrown {A} error.

(** A computation over a store of type [St] that returns or throws; the
    effects made before a throw stay. *)
Definition M (St A : Type) : Type := St → outcome A * St.

#[global] Instance M_ret {St} : MRet (M St) := fun A a st => (Returned a, st).

#[global] Instance M_bind {St} : MBind (M St) := fun A B k c st =>
  match c st with
  | (Returned a, st') => k a st'
  | (Thrown error, st') => (Thrown error, st')
  end.

Definition throw {St A} (error : JsError) : M St A := fun st => (Thrown error, st).

(** [try { body } catch (error) { handler }] *)
Definition try_catch {St A} (body : M St A) (handler : JsError → M St A) : M St A :=
  fun st =>
    match body st with
    | (Returned a, st') => (Returned a, st')
    | (Thrown error, st') => handler error st'
    end.

(** [for (const x of xs) { body }] threading the loop's local state. *)
Fixpoint forOf {St A B} (xs : list A) (body : B → A → M St B) (acc : B) : M St B :=
  match xs with
  | [] => mret acc
  | x :: xs' => acc' ← body acc x; forOf xs' body acc'
  end.

(** What a tool callback hands back: [content: [{type: "text", text}]] and
    the [isError] flag (absent means [false]).  The text of a retrieval is
    [JSON.stringify(memories, null, 2)]; it is kept unserialised, as the
    object it prints (own properties in enumeration order). *)
Inductive Text :=
| Literal (s : jsstring)
| JSON_stringify (memories : JsObject (list jsstring)).

Record CallToolResult := { text : Text; isError : bool }.



(* ===================================================================== *)
(** * Paths and the fs-extra calls                                        *)
(* ===================================================================== *)

(** An absolute normalised POSIX path, as the list of its components. *)
Abbreviation path := (list jsstring).

Module Path.

Definition step (p : path) (segment : jsstring) : path :=
  if decide (segment = []) then p
  else if decide (segment = js ".") then p
  else if decide (segment = js "..") then removelast p
  else p ++ [segment].

(** [path.join(base, rel)] for a normalised absolute [base]: the segments
    of [rel] are applied in turn; empty and [.] segments vanish, [..] climbs
    and stays at the root. *)
Definition join (base : path) (rel : jsstring) : path :=
  fold_left step (JS.split rel (js "/")) base.

(** The path as text, for messages. *)
Definition render (p : path) : jsstring :=
  match p with
  | [] => js "/"
  | _ => concat (map (fun c => js "/" ++ c) p)
  end.

End Path.

(** The calls the server makes into [fs-extra], over some store [St]. *)
Class FsExtra (St : Type) := {
  pathExists : path → M St bool;
  readFile : path → M St jsstring;
  readdir : path → M St (list jsstring);
  appendFile : path → jsstring → M St unit;
  writeFile : path → jsstring → M St unit;
  remove : path → M St unit;
  emptyDir : path → M St unit
}.

(** [process.cwd()] and [os.homedir()]. *)
Record Env := { cwd : path; homedir : path }.

(* ===================================================================== *)
(** * The file backed server (index.ts)                                   *)
(* ===================================================================== *)

Module Server.
Section Server.
Context {St : Type} `{FsExtra St} (env : Env).

(** [appDirs.local] and [appDirs.global] *)
Definition appDirs_local : path := cwd env ++ [js ".goose"; js "memory"].
Definition appDirs_global : path := homedir env ++ [js ".config"; js "goose"; js "memory"].

(** The file of the logger's [File] transport:
    [path.join(os.homedir(), '.mcp-memory-server.log')]. *)
Definition logFile : path := homedir env ++ [js ".mcp-memory-server.log"].

(** [is_global ? appDirs.global : appDirs.local] *)
Definition baseDir (is_global : bool) : path :=
  if is_global then appDirs_global else appDirs_local.

(** [path.join(baseDir, `${category}.txt`)] *)
Definition memoryFilePath (category : jsstring) (is_global : bool) : path :=
  Path.join (baseDir is_global) (category ++ js ".txt").

Definition okResult (s : jsstring) : CallToolResult :=
  {| text := Literal s; isError := false |}.

(** The [catch (error)] branch of every callback; the values thrown by the
    file system calls are [Error] instances, so the text is
    [`Error: ${error.message}`]. *)
Definition errorResult (error : JsError) : CallToolResult :=
  {| text := Literal (js "Error: " ++ message error); isError := true |}.

Definition retrieveCategory (category : jsstring) (isGlobal : bool)
  : M St (JsObject (list jsstring)) :=
  let memoryFilePath := memoryFilePath category isGlobal in
  found ← pathExists memoryFilePath;
  if negb found then mret []
  else
    content ← readFile memoryFilePath;
    mret (Codec.groupEntries content).

(** The [try] block of the callback of [remember_memory]. *)
Definition remember_memory_try (category data : jsstring) (tags : list jsstring)
    (is_global : bool) : M St CallToolResult :=
  let memoryFilePath := memoryFilePath category is_global in
  let content := Codec.content data tags in
  _ ← appendFile memoryFilePath content;
  mret (okResult (js "Successfully stored memory in category: " ++ category)).

(** Body of the loop over [files] in the wildcard retrieval. *)
Definition collectFile (is_global : bool) (memories : JsObject (list jsstring))
    (file : jsstring) : M St (JsObject (list jsstring)) :=
  if JS.endsWith file (js ".txt") then
    let categoryName := JS.replace file (js ".txt") [] in
    categoryMemories ← retrieveCategory categoryName is_global;
    if (0 <? length (Obj.values categoryMemories))%nat
    then mret (Obj.set categoryName (concat (Obj.values categoryMemories)) memories)
    else mret memories
  else mret memories.

(** The [try] block of the callback of [retrieve_memories]. *)
Definition retrieve_memories_try (category : jsstring) (is_global : bool)
  : M St CallToolResult :=
  let baseDir := baseDir is_global in
  if decide (category = js "*") then
    found ← pathExists baseDir;
    memories ← (if found : bool then
                  files ← readdir baseDir;
                  forOf files (collectFile is_global) []
                else mret []);
    mret {| text := JSON_stringify memories; isError := false |}
  else
    memories ← retrieveCategory category is_global;
    mret {| text := JSON_stringify memories; isError := false |}.

(** The [try] block of the callback of [remove_memory_category]. *)
Definition remove_memory_category_try (category : jsstring) (is_global : bool)
  : M St CallToolResult :=
  let baseDir := baseDir is_global in
  if decide (category = js "*") then
    found ← pathExists baseDir;
    _ ← (if found : bool then emptyDir baseDir else mret tt);
    mret (okResult (js "Cleared all " ++ (if is_global then js "global" else js "local")
                      ++ js " memory categories"))
  else
    let memoryFilePath := memoryFilePath category is_global in
    found ← pathExists memoryFilePath;
    _ ← (if found : bool then remove memoryFilePath else mret tt);
    mret (okResult (js "Cleared memories in category: " ++ category)).

(** The [try] block of the callback of [remove_specific_memory]. *)
Definition remove_specific_memory_try (category memory_content : jsstring)
    (is_global : bool) : M St CallToolResult :=
  let memoryFilePath := memoryFilePath category is_global in
  found ← pathExists memoryFilePath;
  _ ← (if found : bool then
         content ← readFile memoryFilePath;
         let newContent := Codec.withoutMatching content memory_content in
         writeFile memoryFilePath newContent
       else mret tt);
  mret (okResult (js "Removed specific memory from category: " ++ category)).

(** [try { ... } catch (error) { return { ..., isError: true } }], the shape
    of all four callbacks.  The [logger.info] call that ends each [try]
    block and the [logger.error] call that opens each [catch] block write
    to the console and to [logFile], not to the store: they are left
    out. *)
Definition guarded (block : M St CallToolResult) : M St CallToolResult :=
  try_catch block (fun error => mret (errorResult error)).

(** The callbacks of the four tools. *)
Definition remember_memory (category data : jsstring) (tags : list jsstring)
    (is_global : bool) : M St CallToolResult :=
  guarded (remember_memory_try category data tags is_global).

Definition retrieve_memories (category : jsstring) (is_global : bool)
  : M St CallToolResult :=
  guarded (retrieve_memories_try category is_global).

Definition remove_memory_category (category : jsstring) (is_global : bool)
  : M St CallToolResult :=
  guarded (remove_memory_category_try category is_global).

Definition remove_specific_memory (category memory_content : jsstring)
    (is_global : bool) : M St CallToolResult :=
  guarded (remove_specific_memory_try category memory_content is_global).





End Server.
End Server.

(* ===================================================================== *)
(** * A file tree as the store behind fs-extra                            *)
(* ===================================================================== *)

Inductive node :=
| File (content : jsstring)
| Dir.

(** The files and directories below the root, by path, in creation order.
    The content of a file is its text, as [readFile(p, 'utf-8')] decodes it.
    The file the logger appends to ([Server.logFile]) is not kept up to
    date in the tree: what is stated of a tree holds of the file system
    but for that file. *)
Abbreviation FileSystem := (list (path * node)).

Module Tree.

(** The root always exists. *)
Definition lookup_node (fs : FileSystem) (p : path) : option node :=
  match p with
  | [] => Some Dir
  | _ => Assoc.get p fs
  end.

Definition errno (code syscall : jsstring) (p : path) : JsError :=
  {| name := js "Error";
     message := code ++ js ", " ++ syscall ++ js " '" ++ Path.render p ++ js "'" |}.

Definition ENOENT := errno (js "ENOENT: no such file or directory").
Definition EISDIR := errno (js "EISDIR: illegal operation on a directory").
Definition ENOTDIR := errno (js "ENOTDIR: not a directory").
Definition EEXIST := errno (js "EEXIST: file already exists").
Definition ENAMETOOLONG := errno (js "ENAMETOOLONG: name too long").

(** Reading a directory fails in the [read] call on the open descriptor,
    whose error names no path. *)
Definition EISDIR_read : JsError :=
  {| name := js "Error";
     message := js "EISDIR: illegal operation on a directory, read" |}.

(** The limits of the file system on the bytes of a name and of a whole
    path (Linux: [NAME_MAX] and [PATH_MAX], which counts the final NUL). *)
Definition NAME_MAX : nat := 255.
Definition PATH_MAX : nat := 4096.

Definition has_nul (p : path) : bool := existsb (fun name => bool_decide (0 ∈ name)) p.

Definition path_too_long (p : path) : bool :=
  (PATH_MAX <=? JS.utf8_length (Path.render p))%nat.

Definition name_too_long (p : path) : bool :=
  (NAME_MAX <? JS.utf8_length (List.last p []))%nat.

(** Node refuses a path that holds a NUL before it calls the file system
    ([ERR_INVALID_ARG_VALUE]).  The message ends with Node's rendering of
    the path, of which only the quotes and the escape of NUL are kept
    here. *)
Definition shown_nul (s : jsstring) : jsstring :=
  js "'" ++ concat (map (fun c => if c =? 0 then js "\x00" else [c]) s) ++ js "'".

Definition ERR_INVALID_ARG_VALUE (p : path) : JsError :=
  {| name := js "TypeError";
     message := js "The argument 'path' must be a string, Uint8Array, or URL without null bytes. Received "
                ++ shown_nul (Path.render p) |}.

(** A path Node and the file system take for a new node. *)
Definition accepted (p : path) : bool :=
  negb (has_nul p) && negb (path_too_long p) && negb (name_too_long p).

(** The names of the path are kept as given: none holds a lone surrogate,
    which the file system would store as U+FFFD. *)
Definition kept_as_given (p : path) : bool := forallb JS.isWellFormed p.

(** [p] is [d] or lies below it. *)
Definition within (d p : path) : bool := bool_decide (d `prefix_of` p).

(** [p] lies strictly below [d]. *)
Definition below (d p : path) : bool :=
  within d p && negb (bool_decide (p = d)).

(** The name of [p] when [p] is an entry of the directory [d]. *)
Definition entry_of (d p : path) : option jsstring :=
  match drop (length d) p with
  | [name] => if within d p then Some name else None
  | _ => None
  end.

Definition t_pathExists (p : path) : M FileSystem bool :=
  fun fs => (Returned (bool_decide (is_Some (lookup_node fs p))), fs).

Definition t_readFile (p : path) : M FileSystem jsstring :=
  fun fs =>
    match lookup_node fs p with
    | Some (File content) => (Returned content, fs)
    | Some Dir => (Thrown EISDIR_read, fs)
    | None => (Thrown (ENOENT (js "open") p), fs)
    end.

(** The entry names of [d], in creation order. *)
Definition t_readdir (d : path) : M FileSystem (list jsstring) :=
  fun fs =>
    match lookup_node fs d with
    | Some Dir => (Returned (omap (fun kv => entry_of d kv.1) fs), fs)
    | Some (File _) => (Thrown (ENOTDIR (js "scandir") d), fs)
    | None => (Thrown (ENOENT (js "scandir") d), fs)
    end.

(** Writing [p]: [update] gives the new content from the old one, if any.
    A new file needs a path that is accepted and its directory.  (The nodes
    of a tree have names that were accepted when they were made, so only
    the making of a node checks the path.) *)
Definition write_with (update : option jsstring → jsstring) (p : path)
  : M FileSystem unit :=
  fun fs =>
    match lookup_node fs p with
    | Some (File content) => (Returned tt, Assoc.put p (File (update (Some content))) fs)
    | Some Dir => (Thrown (EISDIR (js "open") p), fs)
    | None =>
        if has_nul p then (Thrown (ERR_INVALID_ARG_VALUE p), fs)
        else if path_too_long p then (Thrown (ENAMETOOLONG (js "open") p), fs)
        else
          match lookup_node fs (removelast p) with
          | Some Dir =>
              if name_too_long p then (Thrown (ENAMETOOLONG (js "open") p), fs)
              else (Returned tt, Assoc.put p (File (update None)) fs)
          | Some (File _) => (Thrown (ENOTDIR (js "open") p), fs)
          | None => (Thrown (ENOENT (js "open") p), fs)
          end
    end.

(** [fs.appendFile(p, data)]: the bytes added are the UTF-8 encoding of
    [data]; the text of the file, read back, grows by [data] with its lone
    surrogates replaced. *)
Definition t_appendFile (p : path) (data : jsstring) : M FileSystem unit :=
  write_with (fun old => default [] old ++ JS.toWellFormed data) p.

(** [fs.writeFile(p, data)].  The program passes it the blocks of a text
    that [readFile] gave, joined again: a decoded text, which holds no lone
    surrogate and is stored as it is. *)
Definition t_writeFile (p : path) (data : jsstring) : M FileSystem unit :=
  write_with (fun _ => data) p.

(** [fs.remove(p)]: [p] and everything below it; nothing when absent.
    What the file system answers to a path it refuses ([accepted]) or to
    one that leads through a file is not told apart here: what is stated
    of a removal takes a path that is accepted and a way that is clear. *)
Definition t_remove (p : path) : M FileSystem unit :=
  fun fs => (Returned tt, Assoc.restrict (fun q => negb (within p q)) fs).

(** [fs.emptyDir(d)]: everything below [d] goes, [d] stays; a missing
    [d] is created, and a file at [d] makes the directory creation fail. *)
Definition t_emptyDir (d : path) : M FileSystem unit :=
  fun fs =>
    match lookup_node fs d with
    | Some Dir => (Returned tt, Assoc.restrict (fun q => negb (below d q)) fs)
    | Some (File _) => (Thrown (EEXIST (js "mkdir") d), fs)
    | None =>
        match lookup_node fs (removelast d) with
        | Some Dir => (Returned tt, Assoc.put d Dir fs)
        | Some (File _) => (Thrown (ENOTDIR (js "mkdir") d), fs)
        | None => (Thrown (ENOENT (js "mkdir") d), fs)
        end
    end.

#[global] Instance fs_extra : FsExtra FileSystem := {
  pathExists := t_pathExists;
  readFile := t_readFile;
  readdir := t_readdir;
  appendFile := t_appendFile;
  writeFile := t_writeFile;
  remove := t_remove;
  emptyDir := t_emptyDir
}.

(** [fs.ensureDirSync(d)] at start-up: [d] and its ancestors become
    directories ([mkdir -p]). *)
Fixpoint ensureDirSync_from (above : path) (d : path) (fs : FileSystem) : FileSystem :=
  match d with
  | [] => fs
  | c :: d' =>
      let here := above ++ [c] in
      ensureDirSync_from here d'
        (match Assoc.get here fs with None => Assoc.put here Dir fs | Some _ => fs end)
  end.

Definition ensureDirSync (d : path) (fs : FileSystem) : FileSystem :=
  ensureDirSync_from [] d fs.

(** The store as the server's start-up leaves it. *)
Definition startup (env : Env) (fs : FileSystem) : FileSystem :=
  ensureDirSync (Server.appDirs_global env) (ensureDirSync (Server.appDirs_local env) fs).

End Tree.

(* ===================================================================== *)
(** * Web Storage and the browser MemoryManager                           *)
(* ===================================================================== *)

(** [localStorage]: the items in creation order, and the two ways the
    Storage interface fails: every access throws a [SecurityError] when the
    origin is denied storage, and [setItem] throws a [QuotaExceededError]
    when the items would outgrow the quota (counted in code units). *)
Record LocalStorage := {
  items : list (jsstring * jsstring);
  denied : bool;
  quota : option nat
}.

Module Storage.

Definition SecurityError : JsError :=
  {| name := js "SecurityError"; message := js "The operation is insecure." |}.
Definition QuotaExceededError : JsError :=
  {| name := js "QuotaExceededError"; message := js "The quota has been exceeded." |}.

Definition with_items (l : list (jsstring * jsstring)) (ls : LocalStorage) : LocalStorage :=
  {| items := l; denied := denied ls; quota := quota ls |}.

Definition used (l : list (jsstring * jsstring)) : nat :=
  sum_list (map (fun kv => length kv.1 + length kv.2)%nat l).

(** Every access goes through the [localStorage] getter first. *)
Definition access {A} (c : M LocalStorage A) : M LocalStorage A :=
  fun ls => if denied ls then (Thrown SecurityError, ls) else c ls.

(** [localStorage.length] *)
Definition length : M LocalStorage nat :=
  access (fun ls => (Returned (List.length (items ls)), ls)).

(** [localStorage.key(i)] *)
Definition key (i : nat) : M LocalStorage (option jsstring) :=
  access (fun ls => (Returned (fst <$> items ls !! i), ls)).

(** [localStorage.getItem(k)]; [None] is [null]. *)
Definition getItem (k : jsstring) : M LocalStorage (option jsstring) :=
  access (fun ls => (Returned (Assoc.get k (items ls)), ls)).

(** [localStorage.setItem(k, v)] *)
Definition setItem (k v : jsstring) : M LocalStorage unit :=
  access (fun ls =>
    let l := Assoc.put k v (items ls) in
    match quota ls with
    | Some q => if (q <? used l)%nat then (Thrown QuotaExceededError, ls)
                else (Returned tt, with_items l ls)
    | None => (Returned tt, with_items l ls)
    end).

(** [localStorage.removeItem(k)] *)
Definition removeItem (k : jsstring) : M LocalStorage unit :=
  access (fun ls =>
    (Returned tt, with_items (Assoc.restrict (fun k' => negb (bool_decide (k' = k))) (items ls)) ls)).

End Storage.

(** The fields of a [MemoryManager] the operations read. *)
Record MemoryManager := {
  appName : jsstring;
  localStoragePrefix : jsstring;
  globalStoragePrefix : jsstring
}.

Module Manager.

(** The constructor, up to the instruction text it assembles (which no
    operation reads back): [appName = options.appName || 'goose']. *)
Definition new (options_appName : option jsstring) : MemoryManager :=
  let appName := match options_appName with
                 | Some (c :: s) => c :: s
                 | _ => js "goose"
                 end in
  {| appName := appName;
     localStoragePrefix := appName ++ js "_local_memory_";
     globalStoragePrefix := appName ++ js "_global_memory_" |}.

Section Manager.
Variable this : MemoryManager.

Definition prefix (isGlobal : bool) : jsstring :=
  if isGlobal then globalStoragePrefix this else localStoragePrefix this.

Definition getStorageKey (category : jsstring) (isGlobal : bool) : jsstring :=
  prefix isGlobal ++ category.

Definition MemoryError (message : jsstring) : JsError :=
  {| name := js "MemoryError"; message := message |}.

Definition Error (message : jsstring) : JsError :=
  {| name := js "Error"; message := message |}.

(** [retrieve]: a missing or empty item gives [{}]; an exception is logged
    and gives [{}] as well. *)
Definition retrieve (category : jsstring) (isGlobal : bool)
  : M LocalStorage (JsObject (list jsstring)) :=
  try_catch
    (let storageKey := getStorageKey category isGlobal in
     content ← Storage.getItem storageKey;
     match content with
     | None | Some [] => mret []
     | Some content => mret (Codec.groupEntries content)
     end)
    (fun error => mret []).

(** Body of the loop over the indices in [retrieveAll]. *)
Definition collectKey (isGlobal : bool) (memories : JsObject (list jsstring))
    (i : nat) : M LocalStorage (JsObject (list jsstring)) :=
  key ← Storage.key i;
  match key with
  | Some key =>
      if JS.truthy key && JS.startsWith key (prefix isGlobal) then
        let category := JS.substring key (length (prefix isGlobal)) in
        categoryMemories ← retrieve category isGlobal;
        if (0 <? length (Obj.values categoryMemories))%nat
        then mret (Obj.set category (concat (Obj.values categoryMemories)) memories)
        else mret memories
      else mret memories
  | None => mret memories
  end.

(** [retrieveAll].  The loop bound [localStorage.length] is read again on
    every round in the source; no call in the loop writes to the store, so
    it is read once here. *)
Definition retrieveAll (isGlobal : bool) : M LocalStorage (JsObject (list jsstring)) :=
  try_catch
    (n ← Storage.length;
     forOf (seq 0 n) (collectKey isGlobal) [])
    (fun error => mret []).

Definition remember (category data : jsstring) (tags : list jsstring) (isGlobal : bool)
  : M LocalStorage unit :=
  try_catch
    (let storageKey := getStorageKey category isGlobal in
     item ← Storage.getItem storageKey;
     let existingData := match item with Some (c :: s) => c :: s | _ => [] end in
     let content := Codec.content data tags in
     Storage.setItem storageKey (existingData ++ content))
    (fun error => throw (MemoryError (js "Failed to remember memory: " ++ String_of_error error))).

Definition removeSpecificMemory (category memoryContent : jsstring) (isGlobal : bool)
  : M LocalStorage unit :=
  try_catch
    (let storageKey := getStorageKey category isGlobal in
     content ← Storage.getItem storageKey;
     match content with
     | None | Some [] => mret tt
     | Some content =>
         let newContent := Codec.withoutMatching content memoryContent in
         Storage.setItem storageKey newContent
     end)
    (fun error => throw (MemoryError (js "Failed to remove specific memory: " ++ String_of_error error))).

Definition clearMemory (category : jsstring) (isGlobal : bool) : M LocalStorage unit :=
  try_catch
    (Storage.removeItem (getStorageKey category isGlobal))
    (fun error => throw (MemoryError (js "Failed to clear memory: " ++ String_of_error error))).

(** Body of the first loop of [clearAllMemories]. *)
Definition collectKeyToRemove (isGlobal : bool) (keysToRemove : list jsstring) (i : nat)
  : M LocalStorage (list jsstring) :=
  key ← Storage.key i;
  match key with
  | Some key =>
      if JS.truthy key && JS.startsWith key (prefix isGlobal)
      then mret (keysToRemove ++ [key])
      else mret keysToRemove
  | None => mret keysToRemove
  end.

Definition clearAllMemories (isGlobal : bool) : M LocalStorage unit :=
  try_catch
    (n ← Storage.length;
     keysToRemove ← forOf (seq 0 n) (collectKeyToRemove isGlobal) [];
     forOf keysToRemove (fun _ key => Storage.removeItem key) tt)
    (fun error => throw (MemoryError (js "Failed to clear all memories: " ++ String_of_error error))).

Definition okResult (s : jsstring) : CallToolResult :=
  {| text := Literal s; isError := false |}.

(** The callbacks registered by [registerWithServer]; their [catch]
    branches throw a new [Error]. *)
Definition remember_memory (category data : jsstring) (tags : list jsstring)
    (is_global : bool) : M LocalStorage CallToolResult :=
  try_catch
    (_ ← remember category data tags is_global;
     mret (okResult (js "Successfully stored memory in category: " ++ category)))
    (fun error => throw (Error (js "Failed to store memory: " ++ message error))).

Definition retrieve_memories (category : jsstring) (is_global : bool)
  : M LocalStorage CallToolResult :=
  try_catch
    (memories ← (if decide (category = js "*") then retrieveAll is_global
                 else retrieve category is_global);
     mret {| text := JSON_stringify memories; isError := false |})
    (fun error => throw (Error (js "Failed to retrieve memories: " ++ message error))).

Definition remove_memory_category (category : jsstring) (is_global : bool)
  : M LocalStorage CallToolResult :=
  try_catch
    (if decide (category = js "*") then
       _ ← clearAllMemories is_global;
       mret (okResult (js "Cleared all " ++ (if is_global then js "global" else js "local")
                         ++ js " memory categories"))
     else
       _ ← clearMemory category is_global;
       mret (okResult (js "Cleared memories in category: " ++ category)))
    (fun error => throw (Error (js "Failed to remove memory category: " ++ message error))).

Definition remove_specific_memory (category memory_content : jsstring)
    (is_global : bool) : M LocalStorage CallToolResult :=
  try_catch
    (_ ← removeSpecificMemory category memory_content is_global;
     mret (okResult (js "Removed specific memory from category: " ++ category)))
    (fun error => throw (Error (js "Failed to remove specific memory: " ++ message error))).

End Manager.
End Manager.

(* ===================================================================== *)
(** * Vocabulary of the properties                                        *)
(* ===================================================================== *)

(** A string that [trim] empties: white space only. *)
Definition blank (s : jsstring) : Prop := Forall (fun c => JS.is_white c = true) s.

(** A body whose scan ends on a delimiter (or the empty body): every entry
    in it is closed. *)
Definition complete (body : jsstring) : Prop :=
  last (JS.split body Codec.delimiter) = Some [].

(** The text kept at [p]; the empty text when no file is there. *)
Definition body_at (fs : FileSystem) (p : path) : jsstring :=
  match Tree.lookup_node fs p with
  | Some (File content) => content
  | _ => []
  end.

(** A write to [p] goes through and lands at [p]: the names of [p] are kept
    as given, and a file is there, or nothing is, the path is accepted and
    its directory exists. *)
Definition writable (fs : FileSystem) (p : path) : bool :=
  Tree.kept_as_given p &&
  match Tree.lookup_node fs p with
  | Some (File _) => true
  | Some Dir => false
  | None =>
      Tree.accepted p &&
      match Tree.lookup_node fs (removelast p) with
      | Some Dir => true
      | _ => false
      end
  end.

(** The key an entry with these tags is expected under. *)
Definition groupKey (tags : list jsstring) : jsstring :=
  match tags with
  | [] => Codec.untaggedKey
  | _ :: _ => JS.join tags Codec.SP
  end.

(** The lines a retrieval keeps of [data]. *)
Definition kept_lines (data : jsstring) : list jsstring :=
  Codec.nonblank (JS.split data Codec.LF).

(** The kept lines of [data] stand, in order, at the end of the group
    [key] of [memories]. *)
Definition filed_under (data key : jsstring) (memories : JsObject (list jsstring)) : Prop :=
  ∃ group, Assoc.get key memories = Some group ∧ kept_lines data `suffix_of` group.

(** A successful retrieval answering [memories]. *)
Definition answers {St} (r : outcome CallToolResult * St)
    (memories : JsObject (list jsstring)) : Prop :=
  r.1 = Returned {| text := JSON_stringify memories; isError := false |}.

(** Data a single entry can hold: not empty, no blank line inside, no
    newline at its end. *)
Definition plain_data (data : jsstring) : Prop :=
  data ≠ [] ∧ JS.includes data Codec.delimiter = false
  ∧ JS.endsWith data Codec.LF = false.

(** Tags that a header line gives back: the joined text has no newline and
    no white space at either end, and is not the one key an object cannot
    hold. *)
Definition plain_tags (tags : list jsstring) : Prop :=
  let key := JS.join tags Codec.SP in
  JS.includes key Codec.LF = false ∧ JS.trim key = key ∧ key ≠ js "__proto__".

(** The entry decodes under [groupKey tags]: untagged data must show a
    non-blank code unit and not look like a header; tagged data must not
    open with the newline that would close the header's entry. *)
Definition plain_entry (data : jsstring) (tags : list jsstring) : Prop :=
  plain_data data ∧
  match tags with
  | [] => JS.truthy (JS.trim data) = true ∧ JS.startsWith data (js "# ") = false
  | _ :: _ => plain_tags tags ∧ JS.startsWith data Codec.LF = false
  end.

(** The entry is stored as it is given: neither the data nor a tag holds a
    lone surrogate. *)
Definition well_formed_entry (data : jsstring) (tags : list jsstring) : Prop :=
  JS.isWellFormed data = true ∧ Forall (fun tag => JS.isWellFormed tag = true) tags.

(** The entry decodes under [groupKey tags] when it is the last one of a
    body: [plain_entry] but for the newline that may end the data. *)
Definition readable_entry (data : jsstring) (tags : list jsstring) : Prop :=
  data ≠ [] ∧ JS.includes data Codec.delimiter = false ∧
  match tags with
  | [] => JS.truthy (JS.trim data) = true ∧ JS.startsWith data (js "# ") = false
  | _ :: _ => plain_tags tags ∧ JS.startsWith data Codec.LF = false
  end.

(** Untagged data that decodes under ["untagged"] also when an entry with
    the same data follows: a newline at its end must not meet a newline and
    ["# "] at its start, which would open a header. *)
Definition repeatable_data (data : jsstring) : Prop :=
  readable_entry data []
  ∧ (JS.endsWith data Codec.LF = true
     → JS.startsWith data (Codec.LF ++ js "# ") = false).


(** The file system takes the path of the category's file as it is given
    and accepts it: no name of it holds a lone surrogate or a NUL, and
    neither the path nor its last name is over-long. *)
Definition nameable (env : Env) (category : jsstring) (is_global : bool) : Prop :=
  Tree.kept_as_given (Server.memoryFilePath env category is_global) = true
  ∧ Tree.accepted (Server.memoryFilePath env category is_global) = true.


Section Stated.
Variable env : Env.



(** C1 as stated: after a store the retrieval of the category files the
    data under the key of its tags. *)
Definition retrieval_after_store (fs : FileSystem) (category data : jsstring)
    (tags : list jsstring) (is_global : bool) : Prop :=
  let fs' := (Server.remember_memory env category data tags is_global fs).2 in
  ∃ memories,
    answers (Server.retrieve_memories env category is_global fs') memories
    ∧ filed_under data (groupKey tags) memories.

(** C10 as stated: two identical untagged stores append two entries, and
    the retrieval lists the data twice under ["untagged"]. *)
Definition listed_twice (fs : FileSystem) (category data : jsstring)
    (is_global : bool) : Prop :=
  let p := Server.memoryFilePath env category is_global in
  let fs1 := (Server.remember_memory env category data [] is_global fs).2 in
  let fs2 := (Server.remember_memory env category data [] is_global fs1).2 in
  body_at fs2 p = body_at fs p ++ Codec.content data [] ++ Codec.content data []
  ∧ ∃ memories group,
      answers (Server.retrieve_memories env category is_global fs2) memories
      ∧ Assoc.get Codec.untaggedKey memories = Some group
      ∧ (kept_lines data ++ kept_lines data) `suffix_of` group.

(** The file of [category] as an entry of the scope's directory. *)
Definition resource (category : jsstring) (is_global : bool) : path :=
  Server.baseDir env is_global ++ [category ++ js ".txt"].

(** What [retrieveCategory] decodes for [category] when it does not fail. *)
Definition view (fs : FileSystem) (category : jsstring) (is_global : bool)
  : JsObject (list jsstring) :=
  Codec.groupEntries (body_at fs (Server.memoryFilePath env category is_global)).

(** [Object.values(categoryMemories).flat()] *)
Definition flattened (memories : JsObject (list jsstring)) : list jsstring :=
  concat (Obj.values memories).

(** One round of the wildcard loop, on a tree where no read fails. *)
Definition collected (fs : FileSystem) (is_global : bool)
    (memories : JsObject (list jsstring)) (file : jsstring)
  : JsObject (list jsstring) :=
  if JS.endsWith file (js ".txt") then
    let categoryName := JS.replace file (js ".txt") [] in
    if (0 <? length (Obj.values (view fs categoryName is_global)))%nat
    then Obj.set categoryName (flattened (view fs categoryName is_global)) memories
    else memories
  else memories.

(** The round for [file] writes the key [category]. *)
Definition hits (fs : FileSystem) (is_global : bool) (category file : jsstring) : bool :=
  JS.endsWith file (js ".txt")
  && bool_decide (JS.replace file (js ".txt") [] = category)
  && negb (bool_decide (category = js "__proto__"))
  && (0 <? length (Obj.values (view fs category is_global)))%nat.

(** The wildcard retrieval answers a mapping that holds, for every category
    with a file [body] in the scope's directory that meets [which], the
    flattened lines of its groups, and that holds nothing but flattened
    lines of files in the scope's directory. *)
Definition wildcard_lists (which : jsstring → jsstring → Prop)
    (fs : FileSystem) (is_global : bool) : Prop :=
  ∃ memories,
    answers (Server.retrieve_memories env (js "*") is_global fs) memories
    ∧ (∀ category body,
         Assoc.get (resource category is_global) fs = Some (File body) →
         which category body →
         Assoc.get category memories = Some (flattened (Codec.groupEntries body)))
    ∧ (∀ category lines,
         Assoc.get category memories = Some lines →
         ∃ body, Assoc.get (resource category is_global) fs = Some (File body)
                 ∧ lines = flattened (Codec.groupEntries body)).

(** C3 as stated: every category with a file is listed. *)
Definition wildcard_lists_all (fs : FileSystem) (is_global : bool) : Prop :=
  wildcard_lists (fun _ _ => True) fs is_global.

(** The categories the wildcard retrieval does list: the name is a file
    name, the first [.txt] of [category.txt] is its extension, the name is
    not ["__proto__"], and the body decodes to at least one group. *)
Definition shown (category body : jsstring) : Prop :=
  JS.includes category (js "/") = false
  ∧ JS.replace (category ++ js ".txt") (js ".txt") [] = category
  ∧ category ≠ js "__proto__"
  ∧ Codec.groupEntries body ≠ [].

(** The wildcard retrieval reads without failing: the scope's directory is
    not a file, and no [.txt] entry it lists leads to a directory. *)
Definition listable (fs : FileSystem) (is_global : bool) : bool :=
  match Tree.lookup_node fs (Server.baseDir env is_global) with
  | Some (File _) => false
  | None => true
  | Some Dir =>
      forallb
        (fun file =>
           if JS.endsWith file (js ".txt") then
             match Tree.lookup_node fs
                     (Server.memoryFilePath env (JS.replace file (js ".txt") []) is_global) with
             | Some Dir => false
             | _ => true
             end
           else true)
        (omap (fun kv => Tree.entry_of (Server.baseDir env is_global) kv.1) fs)
  end.

End Stated.

(** No name in the tree holds a path separator. *)
Definition well_named (fs : FileSystem) : Prop :=
  ∀ p, p ∈ fs.*1 → Forall (fun name => JS.includes name (js "/") = false) p.



(** ** Sequences of tool calls *)

Inductive request :=
| Remember (category data : jsstring) (tags : list jsstring)
| Retrieve (category : jsstring)
| RemoveCategory (category : jsstring)
| RemoveSpecific (category memory_content : jsstring).

Definition category_of (r : request) : jsstring :=
  match r with
  | Remember category _ _ => category
  | Retrieve category => category
  | RemoveCategory category => category
  | RemoveSpecific category _ => category
  end.

(** The callback a request runs, with its [is_global] flag. *)
Definition handle {St} `{FsExtra St} (env : Env) (r : request) (is_global : bool)
  : M St CallToolResult :=
  match r with
  | Remember category data tags => Server.remember_memory env category data tags is_global
  | Retrieve category => Server.retrieve_memories env category is_global
  | RemoveCategory category => Server.remove_memory_category env category is_global
  | RemoveSpecific category memory_content =>
      Server.remove_specific_memory env category memory_content is_global
  end.

(** The answers to a sequence of calls, each with the flag of its call, and
    the tree they leave. *)
Fixpoint run (env : Env) (calls : list (request * bool)) (fs : FileSystem)
  : list (bool * outcome CallToolResult) * FileSystem :=
  match calls with
  | [] => ([], fs)
  | (r, is_global) :: calls' =>
      let '(answer, fs') := handle env r is_global fs in
      let '(answers, fs'') := run env calls' fs' in
      ((is_global, answer) :: answers, fs'')
  end.

(** The calls, and the answers, of one scope. *)
Definition calls_of (is_global : bool) (calls : list (request * bool))
  : list (request * bool) :=
  List.filter (fun call => Bool.eqb call.2 is_global) calls.

Definition answers_of (is_global : bool) (l : list (bool * outcome CallToolResult))
  : list (bool * outcome CallToolResult) :=
  List.filter (fun a => Bool.eqb a.1 is_global) l.

(** The part of the tree at and below the scope's directory. *)
Definition region (env : Env) (is_global : bool) (fs : FileSystem) : FileSystem :=
  Assoc.restrict (Tree.within (Server.baseDir env is_global)) fs.

(** C7 as stated, for one sequence of calls and one scope: the answers to
    the calls of the scope, and the scope's part of the tree at the end, are
    what they are when the calls of the other scope are not made at all. *)
Definition isolated (env : Env) (fs : FileSystem) (calls : list (request * bool))
    (is_global : bool) : Prop :=
  answers_of is_global (run env calls fs).1 = (run env (calls_of is_global calls) fs).1
  ∧ region env is_global (run env calls fs).2
    = region env is_global (run env (calls_of is_global calls) fs).2.



(** The category is a plain file name part: no path separator in it. *)
Definition plain_request (r : request) : Prop :=
  JS.includes (category_of r) (js "/") = false.

(** Neither scope directory lies at or below the other one. *)
Definition separated (env : Env) : Prop :=
  Tree.within (Server.baseDir env true) (Server.baseDir env false) = false
  ∧ Tree.within (Server.baseDir env false) (Server.baseDir env true) = false.

(** The names in the working and home directories hold no separator. *)
Definition env_well_named (env : Env) : Prop :=
  Forall (fun name => JS.includes name (js "/") = false) (cwd env ++ homedir env).

(* ===================================================================== *)
(** * Vocabulary of the further properties                                *)
(* ===================================================================== *)

(** The text a sequence of stores appends: the [content] of each entry
    (data and tags), in order. *)
Definition stored (entries : list (jsstring * list jsstring)) : jsstring :=
  concat (map (fun entry => Codec.content entry.1 entry.2) entries).

(** What the decoding of one plain entry does to the grouped view: the
    group of its joined tags is set to its kept lines; without tags its
    kept lines are added at the end of the group ["untagged"]. *)
Definition filed (memories : JsObject (list jsstring))
    (entry : jsstring * list jsstring) : JsObject (list jsstring) :=
  match entry.2 with
  | [] =>
      Assoc.put Codec.untaggedKey
        (default [] (Assoc.get Codec.untaggedKey memories) ++ kept_lines entry.1)
        memories
  | _ :: _ => Assoc.put (JS.join entry.2 Codec.SP) (kept_lines entry.1) memories
  end.

(** The calls that store the entries, in order, into one category. *)
Definition remember_all (category : jsstring) (entries : list (jsstring * list jsstring))
    (is_global : bool) : list (request * bool) :=
  map (fun entry => (Remember category entry.1 entry.2, is_global)) entries.

(** The pieces of a left-to-right scan for [sep]: in every piece but the
    last the separator that follows is the first one, and the last piece
    holds none. *)
Fixpoint scanned (sep : jsstring) (pieces : list jsstring) : Prop :=
  match pieces with
  | [] => True
  | [p] => JS.includes p sep = false
  | p :: pieces' => JS.includes (p ++ removelast sep) sep = false ∧ scanned sep pieces'
  end.

(** [t] occurs in [s]. *)
Definition occurs (t s : jsstring) : Prop := ∃ pre post, s = pre ++ t ++ post.

(** ** Start-up *)

Module Boot.

(** [fs.mkdirSync(target, { recursive: true })], component by component
    from the root: missing directories are made, directories are passed, and
    a file in the way fails ([EEXIST] at the target itself, [ENOTDIR] above
    it). *)
Fixpoint mkdirs_from (target above d : path) (fs : FileSystem) : JsError + FileSystem :=
  match d with
  | [] => inr fs
  | c :: d' =>
      let here := above ++ [c] in
      match Assoc.get here fs with
      | None => mkdirs_from target here d' (Assoc.put here Dir fs)
      | Some Dir => mkdirs_from target here d' fs
      | Some (File _) =>
          inl (match d' with
               | [] => Tree.EEXIST (js "mkdir") target
               | _ :: _ => Tree.ENOTDIR (js "mkdir") target
               end)
      end
  end.

(** [fs.ensureDirSync(d)]; a failure leaves the tree as it was. *)
Definition ensureDirSync (d : path) : M FileSystem unit :=
  fun fs =>
    match mkdirs_from d [] d fs with
    | inr fs' => (Returned tt, fs')
    | inl error => (Thrown error, fs)
    end.


End Boot.


(** ** The manager's loops *)

(** The keys [clearAllMemories] and [retrieveAll] take for the scope's. *)
Definition scope_key (this : MemoryManager) (isGlobal : bool) (key : jsstring) : bool :=
  JS.truthy key && JS.startsWith key (Manager.prefix this isGlobal).

(** One round of the loop of [retrieveAll] on storage that can be read,
    for the key the round looks at. *)
Definition Manager_collect (this : MemoryManager) (ls : LocalStorage) (isGlobal : bool)
    (memories : JsObject (list jsstring)) (key : jsstring) : JsObject (list jsstring) :=
  if scope_key this isGlobal key then
    let category := JS.substring key (length (Manager.prefix this isGlobal)) in
    let categoryMemories :=
      Codec.groupEntries
        (default [] (Assoc.get (Manager.getStorageKey this category isGlobal) (items ls))) in
    if (0 <? length (Obj.values categoryMemories))%nat
    then Obj.set category (flattened categoryMemories) memories
    else memories
  else memories.

(** ** The tools the manager registers *)

Record ToolAnnotations := {
  title : jsstring;
  readOnlyHint : bool;
  destructiveHint : bool;
  idempotentHint : bool;
  openWorldHint : bool
}.

(** [registerWithServer]: the four [server.tool] calls, by the request each
    tool takes. *)
Module Registered.

Definition tool_name (r : request) : jsstring :=
  match r with
  | Remember _ _ _ => js "remember_memory"
  | Retrieve _ => js "retrieve_memories"
  | RemoveCategory _ => js "remove_memory_category"
  | RemoveSpecific _ _ => js "remove_specific_memory"
  end.

Definition annotations (r : request) : ToolAnnotations :=
  match r with
  | Remember _ _ _ =>
      {| title := js "Remember Memory"; readOnlyHint := false; destructiveHint := false;
         idempotentHint := true; openWorldHint := false |}
  | Retrieve _ =>
      {| title := js "Retrieve Memory"; readOnlyHint := true; destructiveHint := false;
         idempotentHint := false; openWorldHint := false |}
  | RemoveCategory _ =>
      {| title := js "Remove Memory Category"; readOnlyHint := false;
         destructiveHint := true; idempotentHint := false; openWorldHint := false |}
  | RemoveSpecific _ _ =>
      {| title := js "Remove Specific Memory"; readOnlyHint := false;
         destructiveHint := true; idempotentHint := false; openWorldHint := false |}
  end.

Definition handler (this : MemoryManager) (r : request) (is_global : bool)
  : M LocalStorage CallToolResult :=
  match r with
  | Remember category data tags => Manager.remember_memory this category data tags is_global
  | Retrieve category => Manager.retrieve_memories this category is_global
  | RemoveCategory category => Manager.remove_memory_category this category is_global
  | RemoveSpecific category memory_content =>
      Manager.remove_specific_memory this category memory_content is_global
  end.

(** The answers to a sequence of calls and the storage they leave; a call
    that throws fails alone. *)
Fixpoint run (this : MemoryManager) (calls : list (request * bool)) (ls : LocalStorage)
  : list (bool * outcome CallToolResult) * LocalStorage :=
  match calls with
  | [] => ([], ls)
  | (r, is_global) :: calls' =>
      let '(answer, ls') := handler this r is_global ls in
      let '(answers, ls'') := run this calls' ls' in
      ((is_global, answer) :: answers, ls'')
  end.

End Registered.

(** The items of one scope of the manager: those whose key starts with the
    scope's prefix. *)
Definition Manager_region (this : MemoryManager) (isGlobal : bool) (ls : LocalStorage)
  : LocalStorage :=
  Storage.with_items
    (Assoc.restrict (fun key => JS.startsWith key (Manager.prefix this isGlobal)) (items ls))
    ls.

(** What a call of a tool leaves of the items, and what it answers, on
    storage that can be accessed and has no quota. *)
Definition Manager_effect (this : MemoryManager) (r : request) (is_global : bool)
    (l : list (jsstring * jsstring)) : list (jsstring * jsstring) :=
  match r with
  | Remember category data tags =>
      let storageKey := Manager.getStorageKey this category is_global in
      Assoc.put storageKey (default [] (Assoc.get storageKey l) ++ Codec.content data tags) l
  | Retrieve _ => l
  | RemoveCategory category =>
      if decide (category = js "*")
      then Assoc.restrict (fun key => negb (scope_key this is_global key)) l
      else Assoc.restrict
             (fun key => negb (bool_decide
                                 (key = Manager.getStorageKey this category is_global))) l
  | RemoveSpecific category memory_content =>
      let storageKey := Manager.getStorageKey this category is_global in
      match Assoc.get storageKey l with
      | Some content => Assoc.put storageKey (Codec.withoutMatching content memory_content) l
      | None => l
      end
  end.

Definition Manager_answer (this : MemoryManager) (r : request) (is_global : bool)
    (ls : LocalStorage) : CallToolResult :=
  match r with
  | Remember category _ _ =>
      Manager.okResult (js "Successfully stored memory in category: " ++ category)
  | Retrieve category =>
      {| text := JSON_stringify
           (if decide (category = js "*")
            then fold_left (Manager_collect this ls is_global) (items ls).*1 []
            else Codec.groupEntries
                   (default [] (Assoc.get (Manager.getStorageKey this category is_global)
                                  (items ls))));
         isError := false |}
  | RemoveCategory category =>
      Manager.okResult
        (if decide (category = js "*")
         then js "Cleared all " ++ (if is_global then js "global" else js "local")
                ++ js " memory categories"
         else js "Cleared memories in category: " ++ category)
  | RemoveSpecific category _ =>
      Manager.okResult (js "Removed specific memory from category: " ++ category)
  end.

(** The calls of one scope of the manager are answered, and leave the
    scope's items, as when the calls of the other scope are not made. *)
Definition Manager_isolated (this : MemoryManager) (ls : LocalStorage)
    (calls : list (request * bool)) (is_global : bool) : Prop :=
  answers_of is_global (Registered.run this calls ls).1
  = (Registered.run this (calls_of is_global calls) ls).1
  ∧ Manager_region this is_global (Registered.run this calls ls).2
    = Manager_region this is_global (Registered.run this (calls_of is_global calls) ls).2.

(** ** The instruction text

    [Object.entries(o)] and [Object.keys(o)], in the order of
    [Object.values]: each property is listed with its key. *)
Definition Object_entries {V} (o : JsObject V) : list (jsstring * V) :=
  Obj.values (map (fun kv => (kv.1, kv)) o).

Definition Object_keys {V} (o : JsObject V) : list jsstring := (Object_entries o).*1.

(** What the manager holds after construction: the fields of
    [MemoryManager] and the instruction text. *)
Record Constructed := {
  manager : MemoryManager;
  instructions : jsstring
}.

Module Instructions.

(** [getInstructions]: the template literal, line by line (the lines are
    joined by line feeds; code unit 34 is the double quote). *)
Definition getInstructions : jsstring :=
  JS.join
    [[];
     js "    This extension allows storage and retrieval of categorized information with tagging support. It's designed to help";
     js "    manage important information across sessions in a systematic and organized manner.";
     js "    Capabilities:";
     js "    1. Store information in categories with optional tags for context-based retrieval.";
     js "    2. Search memories by content or specific tags to find relevant information.";
     js "    3. List all available memory categories for easy navigation.";
     js "    4. Remove entire categories of memories when they are no longer needed.";
     js "    ";
     js "    When to call memory tools:";
     js "    - These are examples where the assistant should proactively call the memory tool because the user is providing recurring preferences, project details, or workflow habits that they may expect to be remembered.";
     js "    - Preferred Development Tools & Conventions";
     js "    - User-specific data (e.g., name, preferences)";
     js "    - Project-related configurations";
     js "    - Workflow descriptions";
     js "    - Other critical settings";
     js "    ";
     js "    Interaction Protocol:";
     js "    When important information is identified, such as:";
     js "    - User-specific data (e.g., name, preferences)";
     js "    - Project-related configurations";
     js "    - Workflow descriptions";
     js "    - Other critical settings";
     js "    The protocol is:";
     js "    1. Identify the critical piece of information.";
     js "    2. Ask the user if they'd like to store it for later reference.";
     js "    3. Upon agreement:";
     js "       - Suggest a relevant category like " ++ [34] ++ js "personal" ++ [34] ++ js " for user data or " ++ [34] ++ js "development" ++ [34] ++ js " for project preferences.";
     js "       - Inquire about any specific tags they want to apply for easier lookup.";
     js "       - Confirm the desired storage location:";
     js "         - Local storage (.goose/memory) for project-specific details.";
     js "         - Global storage (~/.config/goose/memory) for user-wide data.";
     js "       - Use the remember_memory tool to store the information.";
     js "         - `remember_memory(category, data, tags, is_global)`";
     js "    "]
    Codec.LF.

(** The text [loadExistingMemories] starts its addition with. *)
Definition preamble : jsstring :=
  Codec.LF ++ Codec.LF ++ js "**Here are the user's currently saved memories:**" ++ Codec.LF
  ++ js "Please keep this information in mind when answering future questions." ++ Codec.LF
  ++ js "Do not bring up memories unless relevant." ++ Codec.LF
  ++ js "Note: if the user has not saved any memories, this section will be empty."
  ++ Codec.LF
  ++ js "Note: if the user removes a memory that was previously loaded into the system, please remove it from the system instructions."
  ++ Codec.LF.

(** The two nested loops over [Object.entries(memories)], adding to
    [memoryInstructions]. *)
Definition addCategory (memoryInstructions : jsstring) (entry : jsstring * list jsstring)
  : jsstring :=
  fold_left (fun text memory => text ++ js "- " ++ memory ++ Codec.LF) entry.2
    (memoryInstructions ++ Codec.LF ++ js "Category: " ++ entry.1 ++ Codec.LF).

Definition addMemories (title : jsstring) (memories : JsObject (list jsstring))
    (memoryInstructions : jsstring) : jsstring :=
  if (0 <? length (Object_keys memories))%nat then
    fold_left addCategory (Object_entries memories)
      (memoryInstructions ++ Codec.LF ++ Codec.LF ++ title ++ Codec.LF)
  else memoryInstructions.

(** [loadExistingMemories]: the new value of [this.instructions]. *)
Definition loadExistingMemories (this : MemoryManager) (instructions : jsstring)
  : M LocalStorage jsstring :=
  try_catch
    (globalMemories ← Manager.retrieveAll this true;
     localMemories ← Manager.retrieveAll this false;
     let memoryInstructions := preamble in
     let memoryInstructions :=
       addMemories (js "Global Memories:") globalMemories memoryInstructions in
     let memoryInstructions :=
       addMemories (js "Local Memories:") localMemories memoryInstructions in
     mret (instructions ++ memoryInstructions))
    (fun error => mret instructions).

(** [new MemoryManager(options)] *)
Definition constructor (options_appName : option jsstring) : M LocalStorage Constructed :=
  let this := Manager.new options_appName in
  instructions ← loadExistingMemories this getInstructions;
  mret {| manager := this; instructions := instructions |}.

Definition getInstructionsText (c : Constructed) : jsstring := instructions c.

Definition setInstructions (newInstructions : jsstring) (c : Constructed) : Constructed :=
  {| manager := manager c; instructions := newInstructions |}.

(** The lines the instruction text holds for one listed category. *)
Definition listing (category : jsstring) (memories : list jsstring) : jsstring :=
  Codec.LF ++ js "Category: " ++ category ++ Codec.LF
  ++ concat (map (fun memory => js "- " ++ memory ++ Codec.LF) memories).

End Instructions.

(* ===================================================================== *)
(** * The string methods on small inputs                                  *)
(* ===================================================================== *)

Example split_keeps_empty_pieces :
  JS.split (js "a,,b,") (js ",") = [js "a"; []; js "b"; []].
Proof. reflexivity. Qed.

Example split_takes_leftmost_match :
  JS.split (js "axxxbxx") (js "xx") = [js "a"; js "xb"; []].
Proof. reflexivity. Qed.

Example split_of_empty_string : JS.split [] (js "xx") = [[]].
Proof. reflexivity. Qed.

Example trim_both_ends : JS.trim (js "  a b  ") = js "a b".
Proof. reflexivity. Qed.

Example replace_first_occurrence_only :
  JS.replace (js "a.txtb.txt") (js ".txt") [] = js "ab.txt".
Proof. reflexivity. Qed.

Example array_index_keys :
  JS.array_index (js "0") = Some 0 ∧ JS.array_index (js "2024") = Some 2024
  ∧ JS.array_index (js "01") = None ∧ JS.array_index (js "4294967295") = None
  ∧ JS.array_index (js "t1") = None.
Proof. repeat split. Qed.

(** Own properties are listed with the array-index keys first. *)
Example values_order :
  Obj.values [(js "b", 1); (js "10", 2); (js "a", 3); (js "9", 4)] = [4; 2; 1; 3].
Proof. reflexivity. Qed.

Example proto_is_not_stored :
  Obj.set (js "__proto__") 1 [(js "a", 0)] = [(js "a", 0)].
Proof. reflexivity. Qed.

Example path_join_climbs :
  Path.join [js "home"; js "u"; js ".config"] (js "../x/./y.txt")
  = [js "home"; js "u"; js "x"; js "y.txt"].
Proof. reflexivity. Qed.

(** The README's example entry, stored and decoded. *)
Example decode_tagged_entry :
  Codec.groupEntries (Codec.content (js "I prefer dark mode") [js "ui"; js "theme"])
  = [(js "ui theme", [js "I prefer dark mode"])].
Proof. reflexivity. Qed.

(* ===================================================================== *)
(** * Facts about the string methods                                      *)
(* ===================================================================== *)

Section StringFacts.

Lemma startsWith_prefix (s p : jsstring) :
  JS.startsWith s p = true ↔ ∃ r, s = p ++ r.
Proof.
  revert s; induction p as [|a p IH]; intros s; simpl.
  - split; [intros _; by exists s | done].
  - destruct s as [|b s]; simpl.
    + split; [done | intros [r Hr]; discriminate].
    + rewrite andb_true_iff, N.eqb_eq, IH. split.
      * intros [-> [r ->]]. by exists r.
      * intros [r Hr]. injection Hr as -> ->. eauto.
Qed.

Lemma startsWith_app (p r : jsstring) : JS.startsWith (p ++ r) p = true.
Proof. apply startsWith_prefix. by exists r. Qed.

Lemma startsWith_nil (s : jsstring) : JS.startsWith s [] = true.
Proof. by destruct s. Qed.

(** A prefix test that fails on a string at least as long as the pattern
    fails on every extension of it. *)
Lemma startsWith_false_app (s t p : jsstring) :
  JS.startsWith s p = false → (length p ≤ length s)%nat →
  JS.startsWith (s ++ t) p = false.
Proof.
  revert s; induction p as [|a p IH]; intros s; simpl; [done|].
  destruct s as [|b s]; simpl; [lia|].
  intros H Hlen. apply andb_false_iff in H as [H|H].
  - by rewrite H.
  - rewrite IH; [apply andb_false_r | done | lia].
Qed.

Lemma startsWith_true_app (s t p : jsstring) :
  JS.startsWith s p = true → JS.startsWith (s ++ t) p = true.
Proof.
  rewrite !startsWith_prefix. intros [r ->]. exists (r ++ t). by rewrite app_assoc.
Qed.

Lemma startsWith_length (s p : jsstring) :
  JS.startsWith s p = true → (length p ≤ length s)%nat.
Proof. rewrite startsWith_prefix. intros [r ->]. rewrite length_app. lia. Qed.

(** [includes] finds exactly the unanchored occurrences, code unit by code
    unit (so case-sensitively). *)
Lemma includes_occurs (s p : jsstring) :
  JS.includes s p = true ↔ ∃ pre post, s = pre ++ p ++ post.
Proof.
  induction s as [|c s IH]; simpl.
  - rewrite orb_false_r, startsWith_prefix. split.
    + intros [r Hr]. by exists [], r.
    + intros (pre & post & Hs). symmetry in Hs.
      apply app_eq_nil in Hs as [-> Hs]. apply app_eq_nil in Hs as [-> ->]. by exists [].
  - rewrite orb_true_iff, IH, startsWith_prefix. split.
    + intros [[r Hr] | (pre & post & ->)].
      * by exists [], r.
      * by exists (c :: pre), post.
    + intros (pre & post & Hs). destruct pre as [|c' pre]; simpl in Hs.
      * left. by exists post.
      * right. injection Hs as -> ->. by exists pre, post.
Qed.

Lemma includes_false_cons (c : N) (s p : jsstring) :
  JS.includes (c :: s) p = false →
  JS.startsWith (c :: s) p = false ∧ JS.includes s p = false.
Proof. simpl. by intros ?%orb_false_iff. Qed.

Lemma includes_false_app_l (s t p : jsstring) :
  JS.includes (s ++ t) p = false → JS.includes s p = false.
Proof.
  intros H. apply not_true_is_false. intros (pre & post & ->)%includes_occurs.
  apply not_true_iff_false in H. apply H, includes_occurs.
  exists pre, (post ++ t). by rewrite <- !app_assoc.
Qed.

Lemma includes_false_app_r (s t p : jsstring) :
  JS.includes (s ++ t) p = false → JS.includes t p = false.
Proof.
  intros H. apply not_true_is_false. intros (pre & post & ->)%includes_occurs.
  apply not_true_iff_false in H. apply H, includes_occurs.
  exists (s ++ pre), post. by rewrite <- !app_assoc.
Qed.

Lemma includes_single (s : jsstring) (c : N) :
  JS.includes s [c] = false ↔ c ∉ s.
Proof.
  rewrite <- not_true_iff_false, includes_occurs. split.
  - intros H Hin. apply list_elem_of_split in Hin as (pre & post & ->).
    apply H. by exists pre, post.
  - intros H (pre & post & ->). apply H.
    rewrite !elem_of_app, elem_of_cons. auto.
Qed.

End StringFacts.

(** ** [split] and [join] *)

Section SplitFacts.
Variable sep : jsstring.
Hypothesis sep_nonempty : sep ≠ [].

Lemma split_from_nonempty (k : nat) (s : jsstring) : JS.split_from sep k s ≠ [].
Proof.
  revert k; induction s as [|c s IH]; intros k; simpl; [done|].
  destruct k; [|apply IH].
  destruct (JS.startsWith (c :: s) sep); [done|].
  specialize (IH 0%nat). by destruct (JS.split_from sep 0 s).
Qed.

(** Passing over a matched separator is dropping its code units. *)
Lemma split_from_skip (k : nat) (s : jsstring) :
  JS.split_from sep k s = JS.split_from sep 0 (drop k s).
Proof.
  revert k; induction s as [|c s IH]; intros k.
  - by rewrite drop_nil.
  - destruct k; [done|]. simpl. apply IH.
Qed.

Lemma split_unfold (s : jsstring) : JS.split s sep = JS.split_from sep 0 s.
Proof using sep_nonempty. unfold JS.split. by destruct sep. Qed.

Lemma split_nonempty (s : jsstring) : JS.split s sep ≠ [].
Proof using sep_nonempty. rewrite split_unfold. apply split_from_nonempty. Qed.

Lemma split_nil : JS.split [] sep = [[]].
Proof using sep_nonempty. by rewrite split_unfold. Qed.

Lemma split_match (s : jsstring) :
  JS.startsWith s sep = true →
  JS.split s sep = [] :: JS.split (drop (length sep) s) sep.
Proof using sep_nonempty.
  intros Hs. rewrite !split_unfold.
  destruct s as [|c s].
  - apply startsWith_length in Hs. destruct sep; [done | simpl in Hs; lia].
  - cbn [JS.split_from]. rewrite Hs, split_from_skip. do 2 f_equal.
    destruct sep as [|a sep']; [done|]. simpl. by rewrite Nat.sub_0_r.
Qed.

Lemma split_nomatch (c : N) (s : jsstring) :
  JS.startsWith (c :: s) sep = false →
  JS.split (c :: s) sep = JS.cons_head c (JS.split s sep).
Proof using sep_nonempty.
  intros Hs. rewrite !split_unfold. cbn [JS.split_from]. by rewrite Hs.
Qed.

Lemma join_cons (x : jsstring) (xs : list jsstring) :
  xs ≠ [] → JS.join (x :: xs) sep = x ++ sep ++ JS.join xs sep.
Proof. by destruct xs. Qed.

Lemma join_cons_head (c : N) (xs : list jsstring) :
  xs ≠ [] → JS.join (JS.cons_head c xs) sep = c :: JS.join xs sep.
Proof. destruct xs as [|x [|y xs]]; done. Qed.

(** Splitting on a separator and joining with it gives the string back. *)
Lemma join_split (s : jsstring) : JS.join (JS.split s sep) sep = s.
Proof using sep_nonempty.
  rewrite split_unfold. change s with (drop 0 s) at 2. generalize 0%nat as k.
  induction s as [|c s IH]; intros k.
  - by rewrite drop_nil.
  - destruct k as [|k]; [|apply IH]. cbn [JS.split_from drop].
    destruct (JS.startsWith (c :: s) sep) eqn:Hs.
    + rewrite join_cons by apply split_from_nonempty. rewrite IH. simpl.
      apply startsWith_prefix in Hs as [r Hr]. rewrite Hr.
      destruct sep as [|a sep']; [done|]. injection Hr as -> ->.
      simpl. rewrite Nat.sub_0_r, drop_app_length. done.
    + rewrite join_cons_head by apply split_from_nonempty. by rewrite IH.
Qed.

(** A string without the separator is a single piece. *)
Lemma split_no_occurrence (s : jsstring) :
  JS.includes s sep = false → JS.split s sep = [s].
Proof using sep_nonempty.
  induction s as [|c s IH]; intros Hs.
  - apply split_nil.
  - apply includes_false_cons in Hs as [Hc Hs].
    rewrite split_nomatch, IH by done. done.
Qed.

(** The first piece: a block that the separator follows, when the
    separator does not start earlier. *)
Lemma split_piece (a rest : jsstring) :
  JS.includes (a ++ removelast sep) sep = false →
  JS.split (a ++ sep ++ rest) sep = a :: JS.split rest sep.
Proof using sep_nonempty.
  induction a as [|c a IH]; intros Ha.
  - simpl. rewrite split_match by apply startsWith_app.
    by rewrite drop_app_length.
  - rewrite <- app_comm_cons in Ha.
    apply includes_false_cons in Ha as [Hc Ha]. rewrite <- app_comm_cons.
    rewrite split_nomatch; [by rewrite IH|].
    assert (sep = removelast sep ++ [List.last sep 0]) as Hsep
      by (by apply app_removelast_last).
    rewrite Hsep at 1. rewrite <- !app_assoc.
    change (c :: a ++ removelast sep ++ [List.last sep 0] ++ rest)
      with ((c :: a) ++ removelast sep ++ ([List.last sep 0] ++ rest)).
    rewrite app_assoc. apply startsWith_false_app; [done|].
    rewrite Hsep at 1. rewrite !length_app. simpl. lia.
Qed.

Lemma split_length_ge (s : jsstring) :
  (2 ≤ length (JS.split s sep))%nat → (length sep ≤ length s)%nat.
Proof using sep_nonempty.
  intros Hlen. destruct (JS.includes s sep) eqn:Hs.
  - apply includes_occurs in Hs as (pre & post & ->). rewrite !length_app. lia.
  - rewrite split_no_occurrence in Hlen by done. simpl in Hlen. lia.
Qed.

(** When the scan of [a] ends on a separator (or [a] is empty), the scan of
    [a ++ b] is the scan of [a] without its final empty piece, then the
    scan of [b]. *)
Lemma split_app_complete (a b : jsstring) :
  last (JS.split a sep) = Some [] →
  JS.split (a ++ b) sep = removelast (JS.split a sep) ++ JS.split b sep.
Proof using sep_nonempty.
  remember (length a) as n eqn:Hn. revert a Hn.
  induction n as [n IH] using lt_wf_ind. intros a -> Hlast.
  destruct a as [|c a]; [by rewrite split_nil|].
  destruct (JS.startsWith (c :: a) sep) eqn:Hs.
  - rewrite (split_match (c :: a)) in Hlast |- * by done.
    rewrite (split_match ((c :: a) ++ b)) by (by apply startsWith_true_app).
    pose proof (startsWith_length _ _ Hs) as Hlen.
    rewrite drop_app_le by done.
    pose proof (split_nonempty (drop (length sep) (c :: a))) as Hne.
    rewrite (IH (length (drop (length sep) (c :: a)))).
    + destruct (JS.split (drop (length sep) (c :: a)) sep); done.
    + rewrite length_drop. destruct sep; [done | simpl; lia].
    + done.
    + destruct (JS.split (drop (length sep) (c :: a)) sep); done.
  - rewrite (split_nomatch c a) in Hlast |- * by done.
    destruct (JS.split a sep) as [|x [|y ps]] eqn:Hsp.
    + by apply split_nonempty in Hsp.
    + done.
    + assert (length sep ≤ length a)%nat as Hlen
        by (apply split_length_ge; rewrite Hsp; simpl; lia).
      change ((c :: a) ++ b) with (c :: (a ++ b)).
      rewrite split_nomatch.
      * rewrite (IH (length a)); [| simpl; lia | done | by rewrite Hsp].
        rewrite Hsp. done.
      * change (c :: a ++ b) with ((c :: a) ++ b).
        apply startsWith_false_app; [done | simpl; lia].
Qed.

(** Every code unit of a piece is a code unit of the string. *)
Lemma join_elem (xs : list jsstring) (x : jsstring) (c : N) :
  x ∈ xs → c ∈ x → c ∈ JS.join xs sep.
Proof.
  induction xs as [|y xs IH]; [by intros ?%elem_of_nil|].
  intros Hx Hc. destruct xs as [|z xs].
  - apply list_elem_of_singleton in Hx as ->. done.
  - rewrite join_cons by done. rewrite !elem_of_app.
    apply elem_of_cons in Hx as [->|Hx]; auto.
Qed.

Lemma split_elem (s x : jsstring) (c : N) :
  x ∈ JS.split s sep → c ∈ x → c ∈ s.
Proof using sep_nonempty.
  intros Hx Hc. rewrite <- (join_split s). by eapply join_elem.
Qed.

End SplitFacts.

(** ** [trim] *)

Section TrimFacts.

Lemma trimStart_nil (s : jsstring) : JS.trimStart s = [] ↔ blank s.
Proof.
  unfold blank. induction s as [|c s IH]; simpl.
  - split; [constructor | done].
  - destruct (JS.is_white c) eqn:Hc.
    + rewrite IH. split; [by constructor | by inversion 1].
    + split; [done | inversion 1; congruence].
Qed.

Lemma trimStart_suffix (s : jsstring) : JS.trimStart s `suffix_of` s.
Proof.
  induction s as [|c s IH]; simpl; [done|].
  destruct (JS.is_white c); [by apply suffix_cons_r | done].
Qed.

Lemma trimStart_head (s : jsstring) (c : N) (t : jsstring) :
  JS.trimStart s = c :: t → JS.is_white c = false.
Proof.
  induction s as [|b s IH]; simpl; [done|].
  destruct (JS.is_white b) eqn:Hb; [done|]. by intros [= -> _].
Qed.

(** [s.trim()] is empty exactly when [s] holds white space only. *)
Lemma trim_nil (s : jsstring) : JS.trim s = [] ↔ blank s.
Proof.
  unfold JS.trim, JS.trimEnd. split.
  - intros H. apply trimStart_nil.
    destruct (JS.trimStart s) as [|c t] eqn:Hs; [done|].
    assert (rev (rev (JS.trimStart (rev (c :: t)))) = rev []) as H' by by rewrite H.
    rewrite rev_involutive in H'. simpl in H'.
    apply trimStart_nil in H'. unfold blank in H'.
    rewrite Forall_app, Forall_singleton in H'.
    apply trimStart_head in Hs. destruct H'; congruence.
  - intros H%trimStart_nil. by rewrite H.
Qed.

Lemma trim_truthy (s : jsstring) :
  JS.truthy (JS.trim s) = true ↔ ∃ c, c ∈ s ∧ JS.is_white c = false.
Proof.
  split.
  - intros H. destruct (JS.trim s) eqn:Ht; [done|].
    assert (¬ blank s) as Hb by (rewrite <- trim_nil; congruence).
    unfold blank in Hb. apply not_Forall_Exists in Hb; [|intros c; apply _].
    apply Exists_exists in Hb as (c & Hc & Hw). exists c. split; [done|].
    by apply not_true_is_false.
  - intros (c & Hc & Hw). destruct (JS.trim s) eqn:Ht; [|done].
    apply trim_nil in Ht. unfold blank in Ht. rewrite Forall_forall in Ht.
    specialize (Ht c Hc). congruence.
Qed.

Lemma trim_falsy (s : jsstring) : JS.truthy (JS.trim s) = false ↔ blank s.
Proof. rewrite <- trim_nil. by destruct (JS.trim s). Qed.

End TrimFacts.

(* ===================================================================== *)
(** * Facts about keyed entries and objects                               *)
(* ===================================================================== *)

Section AssocFacts.
Context {K V : Type} `{EqDecision K}.
Implicit Types (o : list (K * V)) (k : K) (v : V).

Lemma get_put o k k' v :
  Assoc.get k' (Assoc.put k v o) = if decide (k' = k) then Some v else Assoc.get k' o.
Proof.
  induction o as [|[k0 v0] o IH]; simpl.
  - by repeat case_decide.
  - destruct (decide (k = k0)) as [->|]; simpl;
      destruct (decide (k' = k0)) as [->|]; simpl;
      rewrite ?IH; repeat case_decide; congruence.
Qed.

Lemma get_alter o k k' (f : V → V) :
  Assoc.get k' (Assoc.alter f k o)
  = if decide (k' = k) then f <$> Assoc.get k o else Assoc.get k' o.
Proof.
  induction o as [|[k0 v0] o IH]; simpl.
  - by case_decide.
  - destruct (decide (k = k0)) as [->|]; simpl;
      destruct (decide (k' = k0)) as [->|]; simpl;
      rewrite ?IH; repeat case_decide; congruence.
Qed.

(** Writing back the value already held changes nothing. *)
Lemma put_same o k v : Assoc.get k o = Some v → Assoc.put k v o = o.
Proof.
  induction o as [|[k0 v0] o IH]; simpl; [done|].
  case_decide; subst; [by intros [= ->] | intros Hg; by rewrite IH].
Qed.

Lemma get_None o k : Assoc.get k o = None ↔ k ∉ o.*1.
Proof.
  induction o as [|[k0 v0] o IH]; simpl.
  - split; [intros _; apply not_elem_of_nil | done].
  - rewrite not_elem_of_cons. destruct (decide (k = k0)) as [->|Hne].
    + split; [done | by intros [? _]].
    + rewrite IH. split; [done | by intros [_ ?]].
Qed.

Lemma get_restrict o k (keep : K → bool) :
  Assoc.get k (Assoc.restrict keep o) = if keep k then Assoc.get k o else None.
Proof.
  unfold Assoc.restrict. induction o as [|[k0 v0] o IH]; simpl.
  - by destruct (keep k).
  - destruct (keep k0) eqn:Hk0; simpl; destruct (decide (k = k0)) as [->|];
      rewrite ?Hk0 in *; done.
Qed.

(** Keeping every key that is there changes nothing. *)
Lemma restrict_all o (keep : K → bool) :
  (∀ k, k ∈ o.*1 → keep k = true) → Assoc.restrict keep o = o.
Proof.
  unfold Assoc.restrict. induction o as [|[k0 v0] o IH]; simpl; [done|].
  intros Hk. rewrite (Hk k0) by (apply elem_of_cons; by left).
  f_equal. apply IH. intros k Hin. apply Hk. apply elem_of_cons. by right.
Qed.

End AssocFacts.

Section ObjFacts.
Context {V : Type}.
Implicit Types (o : JsObject V) (k : jsstring) (v : V).

Lemma get_set o k k' v :
  Assoc.get k' (Obj.set k v o)
  = if decide (k = js "__proto__") then Assoc.get k' o
    else if decide (k' = k) then Some v else Assoc.get k' o.
Proof. unfold Obj.set. case_decide; [done|]. apply get_put. Qed.

Lemma insert_sorted_length (e : N * V) (l : list (N * V)) :
  length (Obj.insert_sorted e l) = S (length l).
Proof.
  induction l as [|e' l IH]; simpl; [done|].
  destruct (e.1 <=? e'.1)%N; simpl; by rewrite ?IH.
Qed.

(** [Object.values] lists one value per own property. *)
Lemma values_length o : length (Obj.values o) = length o.
Proof.
  unfold Obj.values. rewrite length_app, length_fmap.
  unfold Obj.index_props, Obj.named_props.
  induction o as [|[k v] o IH]; [done|].
  csimpl. destruct (JS.array_index k); csimpl.
  - rewrite insert_sorted_length. lia.
  - lia.
Qed.

Lemma values_nil o : Obj.values o = [] ↔ o = [].
Proof.
  split; [|by intros ->].
  intros Hv. apply (f_equal length) in Hv. rewrite values_length in Hv.
  by destruct o.
Qed.

End ObjFacts.

(* ===================================================================== *)
(** * Facts about the category body format                                *)
(* ===================================================================== *)

Section CodecFacts.
Import Codec.

Lemma LF_nonempty : LF ≠ [].
Proof. done. Qed.

Lemma delimiter_nonempty : delimiter ≠ [].
Proof. done. Qed.

Lemma SP_nonempty : SP ≠ [].
Proof. done. Qed.

Lemma endsWith_suffix (s p : jsstring) :
  JS.endsWith s p = true ↔ ∃ r, s = r ++ p.
Proof.
  unfold JS.endsWith. rewrite startsWith_prefix. split.
  - intros [r Hr]. exists (rev r).
    apply (f_equal (@rev N)) in Hr. rewrite rev_involutive in Hr.
    by rewrite Hr, rev_app_distr, rev_involutive.
  - intros [r ->]. exists (rev r). by rewrite rev_app_distr.
Qed.

Lemma endsWith_cons (c x : N) (s : jsstring) :
  s ≠ [] → JS.endsWith (c :: s) [x] = JS.endsWith s [x].
Proof.
  intros Hs. apply eq_true_iff_eq. rewrite !endsWith_suffix. split.
  - intros [r Hr]. destruct r as [|c' r]; simpl in Hr.
    + injection Hr as -> ->. done.
    + injection Hr as -> ->. by exists r.
  - intros [r ->]. by exists (c :: r).
Qed.

(** A pattern holding a code unit the string lacks does not occur. *)
Lemma includes_absent (s p : jsstring) (c : N) :
  c ∈ p → c ∉ s → JS.includes s p = false.
Proof.
  intros Hp Hs. apply not_true_is_false. intros (pre & post & ->)%includes_occurs.
  apply Hs. rewrite !elem_of_app. auto.
Qed.

(** Blank lines across a concatenation: none on either side and none
    formed at the seam. *)
Lemma no_delimiter_app (a b : jsstring) :
  JS.includes a delimiter = false →
  JS.includes b delimiter = false →
  JS.endsWith a LF = false ∨ JS.startsWith b LF = false →
  JS.includes (a ++ b) delimiter = false.
Proof.
  intros Ha Hb. induction a as [|c a IH]; intros Hseam; [done|].
  apply includes_false_cons in Ha as [Hc Ha].
  rewrite <- app_comm_cons. cbn [JS.includes]. apply orb_false_iff. split.
  - destruct a as [|c' a].
    + simpl. destruct Hseam as [Hs|Hs].
      * unfold JS.endsWith in Hs. simpl in Hs. rewrite andb_true_r in Hs. by rewrite Hs.
      * unfold LF in Hs. simpl in Hs. rewrite Hs. apply andb_false_r.
    + simpl in Hc |- *. done.
  - apply IH; [done|]. destruct Hseam as [Hs|Hs]; [|by right].
    destruct a as [|c' a]; [by left|]. left.
    unfold LF in Hs |- *. by rewrite endsWith_cons in Hs.
Qed.

(** The text of one stored entry followed by a newline holds no blank line,
    so the delimiter that [content] appends is the first one. *)
Lemma entry_no_delimiter_untagged (data : jsstring) :
  JS.includes data delimiter = false →
  JS.endsWith data LF = false →
  JS.includes (data ++ LF) delimiter = false.
Proof. intros Hd He. apply no_delimiter_app; [done | done | by left]. Qed.

Lemma entry_no_delimiter_tagged (J data : jsstring) :
  JS.includes J LF = false →
  data ≠ [] →
  JS.includes data delimiter = false →
  JS.startsWith data LF = false →
  JS.endsWith data LF = false →
  JS.includes ((js "# " ++ J ++ LF ++ data) ++ LF) delimiter = false.
Proof.
  intros HJ%includes_single Hne Hd Hs He.
  assert (10 ∉ js "# " ++ J) as Hh.
  { rewrite elem_of_app. intros [H|H]; [|done].
    simpl in H. rewrite !elem_of_cons in H. destruct H as [H|[H|H%elem_of_nil]]; done. }
  replace ((js "# " ++ J ++ LF ++ data) ++ LF)
    with (((js "# " ++ J) ++ LF) ++ (data ++ LF))
    by (by rewrite <- !app_assoc).
  apply no_delimiter_app.
  - apply no_delimiter_app; [| done | left].
    + apply (includes_absent _ _ 10); [|done]. apply elem_of_cons. by left.
    + apply not_true_is_false. intros [r Hr]%endsWith_suffix.
      apply Hh. rewrite Hr, elem_of_app. right. apply elem_of_cons. by left.
  - by apply entry_no_delimiter_untagged.
  - right. apply startsWith_false_app; [done|].
    destruct data; [done | simpl; lia].
Qed.

(** The scan of the appended text: the entry, then the empty tail. *)
Lemma split_content (hd : jsstring) :
  JS.includes (hd ++ LF) delimiter = false →
  JS.split (hd ++ delimiter) delimiter = [hd; []].
Proof.
  intros H. rewrite <- (app_nil_r delimiter) at 1.
  rewrite split_piece; [| done | done]. by rewrite split_nil.
Qed.

(** ** One round of the decoding loop *)

(** A blank entry is skipped. *)
Lemma groupEntry_blank (memories : JsObject (list jsstring)) (entry : jsstring) :
  blank entry → groupEntry memories entry = memories.
Proof. intros H%trim_falsy. unfold groupEntry. by rewrite H. Qed.

(** The group key of a header line is the trimmed text behind ["# "]. *)
Lemma tagKey_trim (firstLine : jsstring) :
  JS.join (JS.split (JS.trim (JS.substring firstLine 2)) SP) SP
  = JS.trim (JS.substring firstLine 2).
Proof. by apply join_split. Qed.

Lemma hash_not_blank (s : jsstring) : 35 ∈ s → JS.truthy (JS.trim s) = true.
Proof. intros H. apply trim_truthy. by exists 35. Qed.

(** An entry whose first line starts with ["# "]: its group is REPLACED by
    the non-blank lines behind the header. *)
Lemma groupEntry_tagged memories entry firstLine rest :
  JS.split entry LF = firstLine :: rest →
  JS.startsWith firstLine (js "# ") = true →
  groupEntry memories entry
  = Obj.set (JS.trim (JS.substring firstLine 2)) (nonblank rest) memories.
Proof.
  intros Hsp Hst. unfold groupEntry.
  assert (35 ∈ entry) as Hin.
  { apply (split_elem LF LF_nonempty entry firstLine).
    - rewrite Hsp. apply elem_of_cons. by left.
    - apply startsWith_prefix in Hst as [r ->]. apply elem_of_cons. by left. }
  rewrite (hash_not_blank _ Hin), Hsp, Hst. simpl negb. cbv iota.
  by rewrite tagKey_trim.
Qed.

(** An entry without header: its non-blank lines are APPENDED to the
    group ["untagged"]. *)
Lemma groupEntry_untagged memories entry :
  ¬ blank entry →
  JS.startsWith entry (js "# ") = false →
  groupEntry memories entry
  = Assoc.alter (fun arr => arr ++ nonblank (JS.split entry LF)) untaggedKey
      (match Assoc.get untaggedKey memories with
       | None => Obj.set untaggedKey [] memories
       | Some _ => memories
       end).
Proof.
  intros Hb Hst. unfold groupEntry.
  assert (JS.truthy (JS.trim entry) = true) as ->.
  { apply not_false_iff_true. by rewrite trim_falsy. }
  simpl negb. cbv iota.
  destruct (JS.split entry LF) as [|firstLine rest] eqn:Hsp.
  { by apply (split_nonempty LF LF_nonempty) in Hsp. }
  assert (JS.startsWith firstLine (js "# ") = JS.startsWith entry (js "# ")) as ->.
  { rewrite <- (join_split LF LF_nonempty entry), Hsp.
    destruct rest as [|l rest]; [done|].
    rewrite (join_cons LF firstLine (l :: rest)) by done.
    destruct firstLine as [|a [|b t]]; simpl; [done | | done].
    by rewrite andb_false_r. }
  by rewrite Hst.
Qed.

Lemma get_groupEntry_untagged memories entry k :
  ¬ blank entry →
  JS.startsWith entry (js "# ") = false →
  Assoc.get k (groupEntry memories entry)
  = if decide (k = untaggedKey)
    then Some (default [] (Assoc.get untaggedKey memories) ++ nonblank (JS.split entry LF))
    else Assoc.get k memories.
Proof.
  intros Hb Hst. rewrite groupEntry_untagged by done.
  rewrite get_alter. destruct (Assoc.get untaggedKey memories) as [arr|] eqn:Hg.
  - case_decide; by rewrite ?Hg.
  - rewrite !get_set. repeat case_decide; subst; try done.
Qed.

(** ** The loop over an extended body *)

Lemma last_removelast {A} (l : list A) (x : A) :
  last l = Some x → l = removelast l ++ [x].
Proof. intros [l' ->]%last_Some. by rewrite removelast_last. Qed.

(** A body whose scan ends on a delimiter decodes as its proper entries;
    text appended to it is decoded on top of that. *)
Lemma groupEntries_app (old more : jsstring) :
  last (JS.split old delimiter) = Some [] →
  groupEntries (old ++ more)
  = fold_left groupEntry (JS.split more delimiter) (groupEntries old).
Proof.
  intros Hlast. unfold groupEntries.
  rewrite (split_app_complete delimiter delimiter_nonempty) by done.
  rewrite fold_left_app. f_equal.
  rewrite (last_removelast _ _ Hlast) at 2.
  rewrite fold_left_app. simpl. by rewrite groupEntry_blank by constructor.
Qed.

Lemma groupEntries_store (old hd : jsstring) :
  last (JS.split old delimiter) = Some [] →
  JS.includes (hd ++ LF) delimiter = false →
  groupEntries (old ++ hd ++ delimiter) = groupEntry (groupEntries old) hd.
Proof.
  intros Hlast Hhd. rewrite groupEntries_app, split_content by done.
  simpl. by rewrite groupEntry_blank by constructor.
Qed.

(** After such an append the scan again ends on a delimiter. *)
Lemma complete_store (old hd : jsstring) :
  last (JS.split old delimiter) = Some [] →
  JS.includes (hd ++ LF) delimiter = false →
  last (JS.split (old ++ hd ++ delimiter) delimiter) = Some [].
Proof.
  intros Hlast Hhd.
  rewrite (split_app_complete delimiter delimiter_nonempty), split_content by done.
  by rewrite last_app.
Qed.

(** A body of white space only decodes to the empty object. *)
Lemma groupEntries_blank (body : jsstring) : blank body → groupEntries body = [].
Proof.
  intros Hb. unfold groupEntries.
  assert (Forall blank (JS.split body delimiter)) as Hall.
  { apply Forall_forall. intros x Hx. apply Forall_forall. intros c Hc.
    unfold blank in Hb. rewrite Forall_forall in Hb. apply Hb.
    by apply (split_elem delimiter delimiter_nonempty body x). }
  generalize (@nil (jsstring * list jsstring)).
  induction Hall as [|x xs Hx _ IH]; intros m; simpl; [done|].
  rewrite groupEntry_blank by done. apply IH.
Qed.

End CodecFacts.

(* ===================================================================== *)
(** * Well formed strings                                                 *)
(* ===================================================================== *)

Section WellFormedFacts.

Lemma isWellFormed_spec (s : jsstring) :
  JS.isWellFormed s = true ↔ JS.toWellFormed s = s.
Proof. unfold JS.isWellFormed. apply bool_decide_eq_true. Qed.

(** A well formed string is stored as it is, whatever follows it. *)
Lemma toWellFormed_app (a b : jsstring) :
  JS.toWellFormed a = a → JS.toWellFormed (a ++ b) = a ++ JS.toWellFormed b.
Proof.
  remember (length a) as n eqn:Hn. revert a Hn.
  induction n as [n IH] using lt_wf_ind. intros a -> Ha.
  destruct a as [|c a]; [done|].
  cbn [JS.toWellFormed app] in *.
  destruct (JS.is_high c) eqn:Hh.
  - destruct a as [|d a]; cbn [app] in *.
    + injection Ha as <-. discriminate Hh.
    + destruct (JS.is_low d).
      * injection Ha as Ha. rewrite (IH (length a)); [done | simpl; lia | done | done].
      * injection Ha as <- _. discriminate Hh.
  - destruct (JS.is_low c) eqn:Hl.
    + injection Ha as <- _. discriminate Hl.
    + injection Ha as Ha. rewrite (IH (length a)); [done | simpl; lia | done | done].
Qed.

Lemma isWellFormed_app (a b : jsstring) :
  JS.isWellFormed a = true → JS.isWellFormed b = true → JS.isWellFormed (a ++ b) = true.
Proof.
  rewrite !isWellFormed_spec. intros Ha Hb. by rewrite toWellFormed_app, Hb.
Qed.

Lemma isWellFormed_join (xs : list jsstring) (sep : jsstring) :
  Forall (fun x => JS.isWellFormed x = true) xs → JS.isWellFormed sep = true →
  JS.isWellFormed (JS.join xs sep) = true.
Proof.
  intros Hxs Hsep. induction Hxs as [|x xs Hx Hxs IH]; [done|].
  destruct xs as [|y xs]; [done|].
  change (JS.join (x :: y :: xs) sep) with (x ++ sep ++ JS.join (y :: xs) sep).
  by repeat apply isWellFormed_app.
Qed.

(** The text of a well formed entry is well formed: it is appended as it
    is. *)
Lemma content_well_formed (data : jsstring) (tags : list jsstring) :
  well_formed_entry data tags → JS.toWellFormed (Codec.content data tags) = Codec.content data tags.
Proof.
  intros [Hdata Htags]. apply isWellFormed_spec. unfold Codec.content.
  apply isWellFormed_app; [|by apply isWellFormed_app].
  destruct (0 <? length tags)%nat; [|done].
  apply isWellFormed_app; [done|]. apply isWellFormed_app; [|done].
  by apply isWellFormed_join.
Qed.

End WellFormedFacts.

(* ===================================================================== *)
(** * The server callbacks on a file tree                                 *)
(* ===================================================================== *)

Ltac run_m := unfold mbind, M_bind, mret, M_ret, try_catch, throw.

(** Unfold the fs-extra calls at the tree instance. *)
Ltac on_tree :=
  cbn [pathExists readFile readdir appendFile writeFile remove emptyDir Tree.fs_extra];
  unfold Tree.t_pathExists, Tree.t_readFile, Tree.t_readdir, Tree.t_appendFile,
    Tree.t_writeFile, Tree.t_remove, Tree.t_emptyDir, Tree.write_with.

Section ServerOnTree.
Variable env : Env.
Implicit Types (fs : FileSystem) (p : path).

Lemma lookup_node_put fs p q v :
  Tree.lookup_node (Assoc.put p v fs) q
  = if decide (q = []) then Some Dir
    else if decide (q = p) then Some v else Tree.lookup_node fs q.
Proof.
  unfold Tree.lookup_node. destruct q as [|c q]; [done|].
  rewrite get_put. by repeat case_decide.
Qed.

Lemma writable_nonroot fs p : writable fs p = true → p ≠ [].
Proof. by intros H ->. Qed.

Lemma retrieveCategory_tree fs category isGlobal :
  Server.retrieveCategory env category isGlobal fs
  = match Tree.lookup_node fs (Server.memoryFilePath env category isGlobal) with
    | None => (Returned [], fs)
    | Some (File content) => (Returned (Codec.groupEntries content), fs)
    | Some Dir => (Thrown Tree.EISDIR_read, fs)
    end.
Proof.
  unfold Server.retrieveCategory. run_m. on_tree.
  destruct (Tree.lookup_node fs _) as [[content|]|] eqn:Hl.
  - rewrite bool_decide_eq_true_2 by eauto. cbn [negb]. by rewrite Hl.
  - rewrite bool_decide_eq_true_2 by eauto. cbn [negb]. by rewrite Hl.
  - rewrite bool_decide_eq_false_2; [done|]. by intros [? ?].
Qed.

(** A store that goes through appends the encoded [content] to the file,
    creating it when needed, and answers with the confirmation. *)
Lemma remember_memory_encoded fs category data tags is_global :
  let p := Server.memoryFilePath env category is_global in
  writable fs p = true →
  Server.remember_memory env category data tags is_global fs
  = (Returned (Server.okResult (js "Successfully stored memory in category: " ++ category)),
     Assoc.put p (File (body_at fs p ++ JS.toWellFormed (Codec.content data tags))) fs).
Proof.
  intros p Hw. unfold Server.remember_memory, Server.guarded, Server.remember_memory_try.
  run_m. on_tree. fold p. unfold writable, body_at, Tree.accepted in *.
  apply andb_true_iff in Hw as [_ Hw].
  destruct (Tree.lookup_node fs p) as [[content|]|]; [done | done |].
  destruct (Tree.has_nul p); [done|].
  destruct (Tree.path_too_long p); [done|].
  destruct (Tree.name_too_long p); [by rewrite andb_false_l in Hw|].
  destruct (Tree.lookup_node fs (removelast p)) as [[?|]|]; done.
Qed.

(** The store of a well formed entry appends [content] as it is. *)
Lemma remember_memory_tree fs category data tags is_global :
  let p := Server.memoryFilePath env category is_global in
  writable fs p = true →
  well_formed_entry data tags →
  Server.remember_memory env category data tags is_global fs
  = (Returned (Server.okResult (js "Successfully stored memory in category: " ++ category)),
     Assoc.put p (File (body_at fs p ++ Codec.content data tags)) fs).
Proof.
  intros p Hw Hwf. rewrite remember_memory_encoded by done.
  by rewrite content_well_formed.
Qed.

Lemma body_at_put fs p content :
  p ≠ [] → body_at (Assoc.put p (File content) fs) p = content.
Proof.
  intros Hp. unfold body_at. rewrite lookup_node_put.
  by rewrite !decide_False, decide_True by done.
Qed.

Lemma writable_kept fs p : writable fs p = true → Tree.kept_as_given p = true.
Proof. unfold writable. by intros [? _]%andb_true_iff. Qed.

Lemma writable_put fs p content :
  p ≠ [] → Tree.kept_as_given p = true →
  writable (Assoc.put p (File content) fs) p = true.
Proof.
  intros Hp Hk. unfold writable. rewrite lookup_node_put, Hk.
  by rewrite !decide_False, decide_True by done.
Qed.

(** The retrieval of one category that has a file. *)
Lemma retrieve_memories_file fs category is_global body :
  category ≠ js "*" →
  Tree.lookup_node fs (Server.memoryFilePath env category is_global) = Some (File body) →
  Server.retrieve_memories env category is_global fs
  = (Returned {| text := JSON_stringify (Codec.groupEntries body); isError := false |}, fs).
Proof.
  intros Hc Hl. unfold Server.retrieve_memories, Server.guarded, Server.retrieve_memories_try.
  rewrite decide_False by done. run_m. rewrite retrieveCategory_tree, Hl. done.
Qed.

End ServerOnTree.

Section Removal.
Variable env : Env.
Implicit Types (fs : FileSystem).

Lemma lookup_file_get fs p content :
  Tree.lookup_node fs p = Some (File content) → Assoc.get p fs = Some (File content).
Proof. by destruct p. Qed.

(** The removal of a specific memory from a category that has a file
    writes [withoutMatching] of its body back. *)
Lemma remove_specific_memory_file fs category memory_content is_global body :
  let p := Server.memoryFilePath env category is_global in
  Tree.lookup_node fs p = Some (File body) →
  Server.remove_specific_memory env category memory_content is_global fs
  = (Returned (Server.okResult (js "Removed specific memory from category: " ++ category)),
     Assoc.put p (File (Codec.withoutMatching body memory_content)) fs).
Proof.
  intros p Hl.
  unfold Server.remove_specific_memory, Server.guarded, Server.remove_specific_memory_try.
  run_m. on_tree. fold p. rewrite Hl.
  rewrite bool_decide_eq_true_2 by (by eexists). cbv beta iota.
  by rewrite !Hl.
Qed.

Lemma filter_all {A} (f : A → bool) (l : list A) :
  (∀ x, x ∈ l → f x = true) → List.filter f l = l.
Proof.
  induction l as [|x l IH]; intros H; simpl; [done|].
  rewrite (H x) by (apply elem_of_cons; by left).
  f_equal. apply IH. intros y Hy. apply H, elem_of_cons. by right.
Qed.

End Removal.

(* ===================================================================== *)
(** * The specification's claims                                          *)
(* ===================================================================== *)



(** C5.  When no block of the body contains memory_content, the removal of
    a specific memory leaves the stored body, and the whole store, as it
    was: splitting on the double newline and joining with it gives the
    body back (for every body, also one with blank lines in its data). *)
Theorem C5_remove_specific_without_match_keeps_body
    (env : Env) (fs : FileSystem) (category memory_content : jsstring)
    (is_global : bool) (body : jsstring) :
  let p := Server.memoryFilePath env category is_global in
  Tree.lookup_node fs p = Some (File body) →
  (∀ block, block ∈ JS.split body Codec.delimiter →
            JS.includes block memory_content = false) →
  JS.join (JS.split body Codec.delimiter) Codec.delimiter = body
  ∧ Server.remove_specific_memory env category memory_content is_global fs
    = (Returned (Server.okResult (js "Removed specific memory from category: " ++ category)),
       fs).
Proof.
  intros p Hl Hno.
  assert (Codec.withoutMatching body memory_content = body) as Hsame.
  { unfold Codec.withoutMatching. rewrite filter_all.
    - by apply join_split.
    - intros block Hb. by rewrite Hno. }
  split; [by apply join_split|].
  rewrite (remove_specific_memory_file env fs category memory_content is_global body Hl).
  rewrite Hsame. fold p. by rewrite put_same by by apply lookup_file_get.
Qed.

Lemma C5_witness :
  let env := {| cwd := [js "w"]; homedir := [js "h"] |} in
  let p := Server.memoryFilePath env (js "x") false in
  let body := js "# t" ++ Codec.LF ++ js "hello" ++ Codec.delimiter
              ++ js "bye" ++ Codec.delimiter in
  (Server.remove_specific_memory env (js "x") (js "HELLO") false [(p, File body)]).2
  = [(p, File body)].
Proof.
  intros env p body.
  destruct (C5_remove_specific_without_match_keeps_body env [(p, File body)]
              (js "x") (js "HELLO") false body) as [_ Hrun].
  - reflexivity.
  - intros block Hb. vm_compute in Hb.
    repeat (apply elem_of_cons in Hb as [->|Hb]; [reflexivity|]).
    by apply elem_of_nil in Hb.
  - by rewrite Hrun.
Defined.


Section StoreThenRetrieve.
Import Codec.

Lemma content_untagged (data : jsstring) : content data [] = data ++ delimiter.
Proof. done. Qed.

Lemma content_tagged (data : jsstring) (tags : list jsstring) :
  tags ≠ [] →
  content data tags = (js "# " ++ JS.join tags SP ++ LF ++ data) ++ delimiter.
Proof.
  intros Ht. unfold content. destruct tags as [|t ts]; [done|].
  cbn [length Nat.ltb Nat.leb]. by rewrite <- !app_assoc.
Qed.

(** Decoding after an untagged store: one more round of the loop, on the
    data. *)
Lemma groupEntries_store_untagged (old data : jsstring) :
  complete old → plain_data data →
  groupEntries (old ++ content data []) = groupEntry (groupEntries old) data
  ∧ complete (old ++ content data []).
Proof.
  intros Hold (Hne & Hd & He). rewrite content_untagged.
  pose proof (entry_no_delimiter_untagged data Hd He) as Hno.
  split; [by apply groupEntries_store | by apply complete_store].
Qed.

(** Decoding after a tagged store: the group of the joined tags is set to
    the kept lines of the data. *)
Lemma groupEntries_store_tagged (old data : jsstring) (tags : list jsstring) :
  tags ≠ [] → complete old → plain_data data → plain_tags tags →
  JS.startsWith data LF = false →
  groupEntries (old ++ content data tags)
  = Obj.set (JS.join tags SP) (kept_lines data) (groupEntries old)
  ∧ complete (old ++ content data tags).
Proof.
  intros Ht Hold (Hne & Hd & He) (HJ & Htrim & Hproto) Hs.
  rewrite content_tagged by done.
  set (J := JS.join tags SP) in *.
  pose proof (entry_no_delimiter_tagged J data HJ Hne Hd Hs He) as Hno.
  split; [|by apply complete_store].
  rewrite groupEntries_store by done.
  rewrite (groupEntry_tagged _ _ (js "# " ++ J) (JS.split data LF)).
  - change (JS.substring (js "# " ++ J) 2) with J. by rewrite Htrim.
  - rewrite (app_assoc (js "# ") J).
    apply (split_piece LF LF_nonempty).
    change (removelast LF) with (@nil N). rewrite app_nil_r.
    apply includes_single. rewrite elem_of_app. intros [H|H].
    + change (js "# ") with [35; 32] in H.
      rewrite !elem_of_cons in H. destruct H as [H|[H|H%elem_of_nil]]; done.
    + by apply includes_single in HJ.
  - apply startsWith_app.
Qed.

(** ** Data that ends with a newline *)

Lemma split_single_app_sep (c : N) (s : jsstring) :
  JS.split (s ++ [c]) [c] = JS.split s [c] ++ [[]].
Proof.
  assert ([c] ≠ []) as Hne by done.
  induction s as [|x s IH].
  - rewrite app_nil_l, (split_match [c] Hne [c]) by apply (startsWith_app [c] []).
    by rewrite !(split_nil [c] Hne).
  - destruct (JS.startsWith (x :: s) [c]) eqn:Hs.
    + rewrite (split_match [c] Hne (x :: s)) by done.
      rewrite (split_match [c] Hne ((x :: s) ++ [c])) by (by apply startsWith_true_app).
      change (drop (length [c]) (x :: s)) with s.
      change (drop (length [c]) ((x :: s) ++ [c])) with (s ++ [c]).
      by rewrite IH.
    + rewrite (split_nomatch [c] Hne x s) by done.
      change ((x :: s) ++ [c]) with (x :: (s ++ [c])).
      rewrite (split_nomatch [c] Hne x (s ++ [c])).
      * rewrite IH. pose proof (split_nonempty [c] Hne s) as Hsp.
        by destruct (JS.split s [c]).
      * change (x :: s ++ [c]) with ((x :: s) ++ [c]).
        apply startsWith_false_app; [done | simpl; lia].
Qed.

(** The newline that ends the data adds no kept line. *)
Lemma kept_lines_final_newline (d : jsstring) : kept_lines (d ++ LF) = kept_lines d.
Proof.
  unfold kept_lines, nonblank, LF. rewrite split_single_app_sep, List.filter_app.
  apply app_nil_r.
Qed.

Lemma content_final_newline (d : jsstring) (tags : list jsstring) :
  content (d ++ LF) tags = content d tags ++ LF.
Proof. unfold content. by rewrite <- !app_assoc. Qed.

(** A newline after a body that ends on a delimiter changes nothing of what
    is decoded. *)
Lemma groupEntries_final_newline (body : jsstring) :
  complete body → groupEntries (body ++ LF) = groupEntries body.
Proof.
  intros Hc. rewrite groupEntries_app by done.
  change (JS.split LF delimiter) with [LF]. cbn [fold_left].
  apply groupEntry_blank. by repeat constructor.
Qed.

(** Data that may end with a newline is plain data, or plain data and the
    newline. *)
Lemma readable_cases (data : jsstring) (tags : list jsstring) :
  readable_entry data tags →
  (JS.endsWith data LF = false ∧ plain_entry data tags)
  ∨ ∃ d, data = d ++ LF ∧ plain_entry d tags.
Proof.
  intros (Hne & Hd & Htags).
  destruct (JS.endsWith data LF) eqn:He; [right | by left].
  apply endsWith_suffix in He as [d ->]. exists d. split; [done|].
  assert (JS.endsWith d LF = false) as Hend.
  { apply not_true_is_false. intros [r ->]%endsWith_suffix.
    apply not_true_iff_false in Hd. apply Hd, includes_occurs.
    exists r, []. by rewrite <- !app_assoc. }
  assert (∀ p, JS.startsWith (d ++ LF) p = false → JS.startsWith d p = false) as Hstart.
  { intros p Hp. apply not_true_is_false. intros Hs.
    by rewrite (startsWith_true_app d LF p Hs) in Hp. }
  split; [split; [|split]|].
  - destruct tags as [|t ts].
    + destruct Htags as [(c & Hc & Hw)%trim_truthy _]. intros ->.
      apply list_elem_of_singleton in Hc as ->. done.
    + destruct Htags as [_ Hs]. by intros ->.
  - by apply includes_false_app_l in Hd.
  - done.
  - destruct tags as [|t ts].
    + destruct Htags as [(c & Hc & Hw)%trim_truthy Hs]. split; [|by apply Hstart].
      apply trim_truthy. exists c. split; [|done].
      apply elem_of_app in Hc as [Hc|Hc]; [done|].
      apply list_elem_of_singleton in Hc as ->. done.
    + destruct Htags as [Hp Hs]. split; [done | by apply Hstart].
Qed.

(** What the retrieval decodes after the store of a plain entry. *)
Lemma filed_plain (old data : jsstring) (tags : list jsstring) :
  complete old → plain_entry data tags →
  filed_under data (groupKey tags) (groupEntries (old ++ content data tags))
  ∧ complete (old ++ content data tags).
Proof.
  intros Hold [Hdata Htags]. unfold filed_under, groupKey. destruct tags as [|t ts].
  - destruct Htags as [Htr Hst].
    destruct (groupEntries_store_untagged old data Hold Hdata) as [-> Hc].
    split; [|done].
    assert (¬ blank data) as Hnb by (rewrite <- trim_falsy; congruence).
    eexists. split.
    + rewrite get_groupEntry_untagged by done. by rewrite decide_True.
    + by apply suffix_app_r.
  - destruct Htags as [Htags Hst].
    destruct (groupEntries_store_tagged old data (t :: ts)) as [-> Hc]; [done..|].
    split; [|done].
    exists (kept_lines data). split; [|done].
    rewrite get_set. destruct Htags as (_ & _ & Hproto).
    by rewrite decide_False, decide_True.
Qed.

(** The same when the data may end with a newline. *)
Lemma filed_readable (old data : jsstring) (tags : list jsstring) :
  complete old → readable_entry data tags →
  filed_under data (groupKey tags) (groupEntries (old ++ content data tags)).
Proof.
  intros Hold [[_ Hp]|(d & -> & Hp)]%readable_cases.
  - by apply filed_plain.
  - destruct (filed_plain old d tags Hold Hp) as [Hf Hc].
    rewrite content_final_newline, app_assoc, groupEntries_final_newline by done.
    unfold filed_under in *. by rewrite kept_lines_final_newline.
Qed.

(** A delimiter after a body that ends on a delimiter adds no entry. *)
Lemma groupEntries_delimiter (body : jsstring) :
  complete body →
  groupEntries (body ++ delimiter) = groupEntries body ∧ complete (body ++ delimiter).
Proof.
  intros Hc. split.
  - change (body ++ delimiter) with (body ++ [] ++ delimiter).
    rewrite (groupEntries_store body [] Hc) by done.
    apply groupEntry_blank. constructor.
  - by apply (complete_store body []).
Qed.

(** Two stores of the same untagged data, decoded. *)
Lemma filed_twice (old data : jsstring) :
  complete old → repeatable_data data →
  ∃ group,
    Assoc.get untaggedKey (groupEntries (old ++ content data [] ++ content data []))
    = Some group
    ∧ (kept_lines data ++ kept_lines data) `suffix_of` group.
Proof.
  intros Hold [Hread Hseam].
  destruct (readable_cases data [] Hread) as [[He Hp]|(d & -> & Hp)].
  - destruct Hp as [Hdata [Htr Hst]].
    assert (¬ blank data) as Hnb by (rewrite <- trim_falsy; congruence).
    destruct (groupEntries_store_untagged old data Hold Hdata) as [H1 Hc1].
    destruct (groupEntries_store_untagged _ data Hc1 Hdata) as [H2 _].
    rewrite app_assoc, H2, H1. rewrite !get_groupEntry_untagged by done.
    rewrite !decide_True by done. change (default [] (Some ?x)) with x.
    eexists. split; [done|]. fold (kept_lines data). rewrite <- app_assoc.
    by apply suffix_app_r.
  - destruct Hp as [Hdata [Htr Hst]]. pose proof Hdata as (Hne & Hd & Hend).
    assert (JS.startsWith d (LF ++ js "# ") = false) as Hseam'.
    { apply not_true_is_false. intros Hs.
      rewrite (startsWith_true_app d LF _ Hs) in Hseam.
      assert (true = false) as Habs; [|done].
      apply Hseam, endsWith_suffix. by exists d. }
    assert (¬ blank d) as Hnb by (rewrite <- trim_falsy; congruence).
    destruct (groupEntries_store_untagged old d Hold Hdata) as [H1 Hc1].
    rewrite kept_lines_final_newline.
    destruct (JS.startsWith d LF) eqn:Hs.
    + (* the newline that ends the first copy and the one that starts the
         second make a delimiter of their own *)
      apply startsWith_prefix in Hs as [d' ->].
      change (LF ++ d') with (10 :: d') in *.
      assert (d' ≠ []) as Hne'.
      { intros ->. apply Hnb. by repeat constructor. }
      assert (plain_data d') as Hdata'.
      { split; [done|]. split.
        - by apply includes_false_cons in Hd as [_ ?].
        - unfold LF in *. by rewrite endsWith_cons in Hend. }
      assert (¬ blank d') as Hnb'.
      { intros Hb. apply Hnb. by constructor. }
      assert (JS.startsWith d' (js "# ") = false) as Hst'.
      { change (JS.startsWith (10 :: d') (LF ++ js "# "))
          with ((10 =? 10) && JS.startsWith d' (js "# ")) in Hseam'.
        done. }
      destruct (groupEntries_delimiter _ Hc1) as [H2 Hc2].
      destruct (groupEntries_store_untagged _ d' Hc2 Hdata') as [H3 Hc3].
      replace (old ++ content ((10 :: d') ++ LF) [] ++ content ((10 :: d') ++ LF) [])
        with ((((old ++ content (10 :: d') []) ++ delimiter) ++ content d' []) ++ LF)
        by (unfold content; cbn [length Nat.ltb Nat.leb]; rewrite <- !app_assoc;
            reflexivity).
      rewrite groupEntries_final_newline, H3, H2, H1 by done.
      rewrite !get_groupEntry_untagged by done.
      rewrite !decide_True by done. change (default [] (Some ?x)) with x.
      eexists. split; [done|].
      assert (kept_lines (10 :: d') = kept_lines d') as Hk.
      { unfold kept_lines. by rewrite (split_match LF LF_nonempty (10 :: d')). }
      fold (kept_lines (10 :: d')). fold (kept_lines d'). rewrite Hk.
      rewrite <- app_assoc. by apply suffix_app_r.
    + assert (plain_data (LF ++ d)) as Hdata'.
      { split; [done|]. split.
        - change (LF ++ d) with (10 :: d). cbn [JS.includes]. rewrite Hd, orb_false_r.
          change (JS.startsWith (10 :: d) delimiter)
            with ((10 =? 10) && JS.startsWith d LF). by rewrite Hs.
        - change (LF ++ d) with (10 :: d). unfold LF in *. by rewrite endsWith_cons. }
      assert (¬ blank (LF ++ d)) as Hnb'.
      { intros Hb. apply Hnb. unfold blank in *. by apply Forall_app in Hb as [_ ?]. }
      destruct (groupEntries_store_untagged _ (LF ++ d) Hc1 Hdata') as [H2 Hc2].
      replace (old ++ content (d ++ LF) [] ++ content (d ++ LF) [])
        with (((old ++ content d []) ++ content (LF ++ d) []) ++ LF)
        by (unfold content; cbn [length Nat.ltb Nat.leb app]; by rewrite <- !app_assoc).
      rewrite groupEntries_final_newline, H2, H1 by done.
      rewrite !get_groupEntry_untagged by done.
      rewrite !decide_True by done. change (default [] (Some ?x)) with x.
      eexists. split; [done|].
      assert (nonblank (JS.split (LF ++ d) LF) = kept_lines d) as ->.
      { unfold kept_lines. change (LF ++ d) with (10 :: d).
        by rewrite (split_match LF LF_nonempty (10 :: d)). }
      fold (kept_lines d). rewrite <- app_assoc. by apply suffix_app_r.
Qed.

End StoreThenRetrieve.

(** C1, amended.  For every category other than the wildcard whose file can
    be written (its path is kept as given, and a file is there, or nothing
    is, the path is accepted and its directory is there) and whose present
    body is empty or ends on a closed entry, and every data and tag list
    without lone surrogate that make a readable entry (data: not empty, no
    blank line inside; without
    tags, data shows a non-blank code unit and does not start with "# ";
    with tags, the joined tags hold no newline and no white space at either
    end, are not "__proto__", and data does not start with a newline): the
    store succeeds and the retrieval that follows files the kept lines of
    data under the tags joined by single spaces, or under "untagged" when
    there are no tags.  When data does not end with a newline, the body
    again ends on a closed entry (so the next such store is covered as
    well). *)
Theorem C1_store_then_retrieve
    (env : Env) (fs : FileSystem) (category data : jsstring)
    (tags : list jsstring) (is_global : bool) :
  let p := Server.memoryFilePath env category is_global in
  category ≠ js "*" →
  writable fs p = true →
  complete (body_at fs p) →
  well_formed_entry data tags →
  readable_entry data tags →
  (Server.remember_memory env category data tags is_global fs).1
  = Returned (Server.okResult (js "Successfully stored memory in category: " ++ category))
  ∧ retrieval_after_store env fs category data tags is_global
  ∧ (JS.endsWith data Codec.LF = false →
     complete (body_at (Server.remember_memory env category data tags is_global fs).2 p)).
Proof.
  intros p Hc Hw Hold Hwf Hread.
  unfold retrieval_after_store.
  rewrite (remember_memory_tree env fs category data tags is_global Hw Hwf).
  split; [done|]. cbn [snd]. fold p.
  pose proof (writable_nonroot _ _ Hw) as Hp.
  split.
  - eexists. split.
    + unfold answers. erewrite retrieve_memories_file; [done | done |].
      fold p. rewrite lookup_node_put. by rewrite decide_False, decide_True.
    + by apply filed_readable.
  - intros He. rewrite body_at_put by done.
    destruct (readable_cases data tags Hread) as [[_ Hplain]|(d & -> & _)].
    + by apply filed_plain.
    + assert (true = false) as Habs; [|done].
      rewrite <- He. symmetry. apply endsWith_suffix. by exists d.
Qed.

Lemma C1_witness :
  let env := {| cwd := [js "w"]; homedir := [js "h"] |} in
  retrieval_after_store env (Tree.startup env []) (js "x") (js "hello" ++ Codec.LF)
    [js "a"; js "b"] true.
Proof.
  intros env.
  refine (proj1 (proj2 (C1_store_then_retrieve env (Tree.startup env []) (js "x")
                          (js "hello" ++ Codec.LF) [js "a"; js "b"] true _ _ _ _ _))).
  - discriminate.
  - reflexivity.
  - reflexivity.
  - split; [reflexivity | repeat constructor].
  - repeat split; try reflexivity; discriminate.
Defined.

(** C1 as stated fails: untagged data whose first line starts with "# " is
    read back as a header, so nothing is filed under "untagged". *)
Lemma C1_counterexample :
  let env := {| cwd := [js "w"]; homedir := [js "h"] |} in
  let fs := Tree.startup env [] in
  let data := js "# Heading" ++ Codec.LF ++ js "text" in
  js "notes" ≠ [] ∧ data ≠ []
  ∧ (Server.remember_memory env (js "notes") data [] false fs).1
    = Returned (Server.okResult (js "Successfully stored memory in category: notes"))
  ∧ answers (Server.retrieve_memories env (js "notes") false
               (Server.remember_memory env (js "notes") data [] false fs).2)
      [(js "Heading", [js "text"])]
  ∧ ¬ retrieval_after_store env fs (js "notes") data [] false.
Proof.
  intros env fs data. repeat split; try discriminate.
  intros (memories & Hans & group & Hget & _).
  vm_compute in Hans. injection Hans as <-.
  vm_compute in Hget. discriminate.
Qed.

(** C10, amended.  For every category other than the wildcard whose file
    can be written (its path is kept as given, and a file is there, or
    nothing is, the path is accepted and its directory is there) and whose
    present body is empty or ends on a closed entry, and every data without
    lone surrogate that is not empty,
    has no blank line inside, shows a non-blank code unit, does not start
    with "# " and does not both end with a newline and start with a
    newline followed by "# ": two identical untagged stores append two
    entries to the body, and the retrieval that follows lists the kept
    lines of data twice at the end of the group "untagged".  When data
    does not end with a newline, the body again ends on a closed entry. *)
Theorem C10_untagged_store_appends
    (env : Env) (fs : FileSystem) (category data : jsstring) (is_global : bool) :
  let p := Server.memoryFilePath env category is_global in
  category ≠ js "*" →
  writable fs p = true →
  complete (body_at fs p) →
  JS.isWellFormed data = true →
  repeatable_data data →
  listed_twice env fs category data is_global
  ∧ (JS.endsWith data Codec.LF = false →
     complete (body_at fs p ++ Codec.content data [] ++ Codec.content data [])).
Proof.
  intros p Hc Hw Hold Hwf Hrep.
  pose proof (writable_nonroot _ _ Hw) as Hp.
  pose proof (writable_kept _ _ Hw) as Hk.
  assert (well_formed_entry data []) as Hentry by (by split).
  split.
  - unfold listed_twice. fold p.
    rewrite (remember_memory_tree env fs category data [] is_global Hw Hentry).
    cbn [snd]. fold p.
    rewrite (remember_memory_tree env _ category data [] is_global)
      by (done || by apply writable_put).
    cbn [snd]. fold p. rewrite !body_at_put by done.
    split; [by rewrite <- app_assoc|].
    destruct (filed_twice (body_at fs p) data Hold Hrep) as (group & Hget & Hsuffix).
    eexists _, group. split; [|split; [|done]].
    + unfold answers. erewrite retrieve_memories_file; [done | done |].
      fold p. rewrite lookup_node_put. by rewrite decide_False, decide_True.
    + by rewrite <- app_assoc.
  - intros He. destruct Hrep as [Hread _].
    destruct (readable_cases data [] Hread) as [[_ Hplain]|(d & -> & _)].
    + destruct (filed_plain (body_at fs p) data [] Hold Hplain) as [_ Hc1].
      destruct (filed_plain _ data [] Hc1 Hplain) as [_ Hc2].
      by rewrite <- app_assoc in Hc2.
    + assert (true = false) as Habs; [|done].
      rewrite <- He. symmetry. apply endsWith_suffix. by exists d.
Qed.

Lemma C10_witness :
  let env := {| cwd := [js "w"]; homedir := [js "h"] |} in
  listed_twice env (Tree.startup env []) (js "x") (js "hello" ++ Codec.LF) false.
Proof.
  intros env.
  refine (proj1 (C10_untagged_store_appends env (Tree.startup env []) (js "x")
                   (js "hello" ++ Codec.LF) false _ _ _ _ _)).
  - discriminate.
  - reflexivity.
  - reflexivity.
  - reflexivity.
  - repeat split; try reflexivity; discriminate.
Defined.

(** C10 as stated fails: data whose first line starts with "# " is
    decoded as a tagged entry, the second copy replaces the first, and
    nothing is listed under "untagged". *)
Lemma C10_counterexample :
  let env := {| cwd := [js "w"]; homedir := [js "h"] |} in
  let fs := Tree.startup env [] in
  let data := js "# todo" ++ Codec.LF ++ js "buy milk" in
  let fs1 := (Server.remember_memory env (js "x") data [] false fs).2 in
  let fs2 := (Server.remember_memory env (js "x") data [] false fs1).2 in
  js "x" ≠ [] ∧ data ≠ []
  ∧ answers (Server.retrieve_memories env (js "x") false fs2)
      [(js "todo", [js "buy milk"])]
  ∧ ¬ listed_twice env fs (js "x") data false.
Proof.
  intros env fs data fs1 fs2. repeat split; try discriminate.
  intros (_ & memories & group & Hans & Hget & _).
  vm_compute in Hans. injection Hans as <-.
  vm_compute in Hget. discriminate.
Qed.

(** C2: the code at the failing input.  Two stored entries with the same
    tag header decode to the lines of the second one only, where the claim
    expects the lines of both in entry order; two untagged entries do
    accumulate. *)
Theorem C2_same_tag_entries_overwrite :
  let tagged := Codec.content (js "first") [js "t"] ++ Codec.content (js "second") [js "t"] in
  let untagged := Codec.content (js "first") [] ++ Codec.content (js "second") [] in
  Codec.groupEntries tagged = [(js "t", [js "second"])]
  ∧ Assoc.get (js "t") (Codec.groupEntries tagged) ≠ Some [js "first"; js "second"]
  ∧ Codec.groupEntries untagged = [(js "untagged", [js "first"; js "second"])].
Proof. repeat split. discriminate. Qed.

(** The same in general: of two plain entries stored with the same tags,
    the decoded group holds the kept lines of the later one alone. *)
Lemma same_tags_later_entry_replaces (old data1 data2 : jsstring) (tags : list jsstring) :
  tags ≠ [] → complete old → plain_tags tags →
  plain_data data1 → JS.startsWith data1 Codec.LF = false →
  plain_data data2 → JS.startsWith data2 Codec.LF = false →
  Assoc.get (JS.join tags Codec.SP)
    (Codec.groupEntries (old ++ Codec.content data1 tags ++ Codec.content data2 tags))
  = Some (kept_lines data2).
Proof.
  intros Ht Hold Htags Hd1 Hs1 Hd2 Hs2.
  destruct (groupEntries_store_tagged old data1 tags) as [H1 Hc1]; [done..|].
  destruct (groupEntries_store_tagged _ data2 tags Ht Hc1 Hd2 Htags Hs2) as [H2 _].
  rewrite <- app_assoc in H2. rewrite H2, get_set.
  destruct Htags as (_ & _ & Hproto). by rewrite decide_False, decide_True.
Qed.

(* ===================================================================== *)
(** * The wildcard retrieval                                              *)
(* ===================================================================== *)

Section Paths.

Lemma replace_elem (s pat : jsstring) (x : N) :
  x ∈ JS.replace s pat [] → x ∈ s.
Proof.
  induction s as [|c s IH]; simpl.
  - destruct (JS.startsWith [] pat); [by rewrite drop_nil | done].
  - destruct (JS.startsWith (c :: s) pat).
    + simpl. intros H. rewrite <- (take_drop (length pat) (c :: s)).
      apply elem_of_app. by right.
    + rewrite !elem_of_cons. intros [->|H]; auto.
Qed.

(** Joining a directory with a plain file name appends the name. *)
Lemma join_file_name (base : path) (name : jsstring) :
  JS.includes name (js "/") = false →
  name ≠ [] → name ≠ js "." → name ≠ js ".." →
  Path.join base name = base ++ [name].
Proof.
  intros Hs H0 H1 H2. unfold Path.join.
  rewrite split_no_occurrence by done.
  simpl. unfold Path.step. by rewrite !decide_False.
Qed.

Lemma txt_name (category : jsstring) :
  category ++ js ".txt" ≠ [] ∧ category ++ js ".txt" ≠ js "."
  ∧ category ++ js ".txt" ≠ js "..".
Proof.
  repeat split; intros H; apply (f_equal length) in H;
    rewrite length_app in H; simpl in H; lia.
Qed.

Lemma memoryFilePath_plain (env : Env) (category : jsstring) (is_global : bool) :
  JS.includes category (js "/") = false →
  Server.memoryFilePath env category is_global = resource env category is_global.
Proof.
  intros Hc. unfold Server.memoryFilePath, resource.
  destruct (txt_name category) as (H0 & H1 & H2).
  apply join_file_name; try done.
  apply includes_single. apply includes_single in Hc.
  rewrite elem_of_app. intros [H|H]; [done|].
  change (js ".txt") with [46; 116; 120; 116] in H.
  rewrite !elem_of_cons in H.
  destruct H as [H|[H|[H|[H|H%elem_of_nil]]]]; done.
Qed.

End Paths.

Section Wildcard.
Variable env : Env.
Implicit Types (fs : FileSystem) (memories : JsObject (list jsstring)).

Lemma groupEntries_nil : Codec.groupEntries [] = [].
Proof. reflexivity. Qed.

(** One round of the loop, when the file it reads is not a directory. *)
Lemma collectFile_tree fs is_global memories file :
  (if JS.endsWith file (js ".txt") then
     match Tree.lookup_node fs
             (Server.memoryFilePath env (JS.replace file (js ".txt") []) is_global) with
     | Some Dir => false
     | _ => true
     end
   else true) = true →
  Server.collectFile env is_global memories file fs
  = (Returned (collected env fs is_global memories file), fs).
Proof.
  unfold Server.collectFile, collected, view, flattened, body_at.
  destruct (JS.endsWith file (js ".txt")); [|done].
  run_m. rewrite retrieveCategory_tree.
  destruct (Tree.lookup_node fs _) as [[body|]|]; intros Hok; [| done |].
  - by destruct (0 <? length (Obj.values (Codec.groupEntries body)))%nat.
  - by rewrite groupEntries_nil.
Qed.

Lemma forOf_collectFile fs is_global files memories :
  forallb
    (fun file =>
       if JS.endsWith file (js ".txt") then
         match Tree.lookup_node fs
                 (Server.memoryFilePath env (JS.replace file (js ".txt") []) is_global) with
         | Some Dir => false
         | _ => true
         end
       else true) files = true →
  forOf files (Server.collectFile env is_global) memories fs
  = (Returned (fold_left (collected env fs is_global) files memories), fs).
Proof.
  revert memories. induction files as [|file files IH]; intros memories Hok; [done|].
  cbn [forallb] in Hok. apply andb_true_iff in Hok as [Hfile Hfiles].
  cbn [forOf fold_left]. run_m. rewrite collectFile_tree by done.
  by apply IH.
Qed.

(** The wildcard retrieval on a listable tree: the fold of the rounds over
    the listing of the scope's directory; nothing is written. *)
Lemma retrieve_wildcard_tree fs is_global :
  listable env fs is_global = true →
  Server.retrieve_memories env (js "*") is_global fs
  = (Returned
       {| text := JSON_stringify
            (match Tree.lookup_node fs (Server.baseDir env is_global) with
             | Some Dir =>
                 fold_left (collected env fs is_global)
                   (omap (fun kv => Tree.entry_of (Server.baseDir env is_global) kv.1) fs) []
             | _ => []
             end);
          isError := false |}, fs).
Proof.
  unfold listable. intros Hok.
  unfold Server.retrieve_memories, Server.guarded, Server.retrieve_memories_try.
  rewrite decide_True by done. run_m. on_tree.
  destruct (Tree.lookup_node fs (Server.baseDir env is_global)) as [[?|]|] eqn:Hd.
  - done.
  - rewrite bool_decide_eq_true_2 by (by eexists). rewrite Hd.
    by rewrite forOf_collectFile.
  - rewrite bool_decide_eq_false_2; [done | by intros [? ?]].
Qed.

Lemma get_collected fs is_global memories file category :
  Assoc.get category (collected env fs is_global memories file)
  = if hits env fs is_global category file
    then Some (flattened (view env fs category is_global))
    else Assoc.get category memories.
Proof.
  unfold collected, hits. destruct (JS.endsWith file (js ".txt")); [|done].
  cbn [andb].
  destruct (decide (JS.replace file (js ".txt") [] = category)) as [->|Hne].
  - rewrite bool_decide_eq_true_2 by done. cbn [andb].
    destruct (0 <? length (Obj.values (view env fs category is_global)))%nat.
    + rewrite get_set. case_decide.
      * by rewrite bool_decide_eq_true_2.
      * rewrite bool_decide_eq_false_2 by done. by rewrite decide_True.
    + by rewrite andb_false_r.
  - rewrite bool_decide_eq_false_2 by done. cbn [andb].
    destruct (0 <? length (Obj.values _))%nat; [|done].
    rewrite get_set. case_decide; [done|]. by rewrite decide_False.
Qed.

Lemma get_fold_collected fs is_global files memories category :
  Assoc.get category (fold_left (collected env fs is_global) files memories)
  = if existsb (hits env fs is_global category) files
    then Some (flattened (view env fs category is_global))
    else Assoc.get category memories.
Proof.
  revert memories. induction files as [|file files IH]; intros memories; [done|].
  cbn [fold_left existsb]. rewrite IH, get_collected.
  destruct (hits env fs is_global category file); cbn [orb]; [|done].
  by destruct (existsb _ files).
Qed.

Lemma get_Some_elem {K V} `{EqDecision K} (o : list (K * V)) k v :
  Assoc.get k o = Some v → (k, v) ∈ o.
Proof.
  induction o as [|[k0 v0] o IH]; simpl; [done|].
  case_decide; subst.
  - intros [= ->]. apply elem_of_cons. by left.
  - intros H'. apply elem_of_cons. right. by apply IH.
Qed.

Lemma entry_of_child (d : path) (name : jsstring) :
  Tree.entry_of d (d ++ [name]) = Some name.
Proof.
  unfold Tree.entry_of, Tree.within. rewrite drop_app_length.
  rewrite bool_decide_eq_true_2; [done|]. by apply prefix_app_r.
Qed.

Lemma entry_of_Some (d p : path) (name : jsstring) :
  Tree.entry_of d p = Some name → p = d ++ [name].
Proof.
  unfold Tree.entry_of, Tree.within.
  destruct (drop (length d) p) as [|n [|? ?]] eqn:Hdrop; [done | | done].
  case_bool_decide as Hpre; [|done]. intros [= ->].
  destruct Hpre as [r ->]. rewrite drop_app_length in Hdrop. by subst.
Qed.

End Wildcard.

Section WildcardClaims.
Variable env : Env.
Implicit Types (fs : FileSystem).

Lemma existsb_false {A} (f : A → bool) (l : list A) :
  (∀ x, f x = false) → existsb f l = false.
Proof. intros H. induction l as [|x l IH]; simpl; [done|]. by rewrite H, IH. Qed.

Lemma hits_nonempty fs is_global category file :
  hits env fs is_global category file = true →
  view env fs category is_global ≠ [].
Proof.
  unfold hits. rewrite !andb_true_iff. intros (_ & Hlen).
  intros Hv. by rewrite Hv in Hlen.
Qed.

End WildcardClaims.

(** C9.  A category whose file exists but whose body decodes to no group
    (the body is empty or holds white space only) is left out of the
    mapping the wildcard retrieval answers, on every tree the wildcard
    retrieval can read. *)
Theorem C9_empty_view_is_omitted
    (env : Env) (fs : FileSystem) (category : jsstring) (is_global : bool)
    (body : jsstring) :
  listable env fs is_global = true →
  Tree.lookup_node fs (Server.memoryFilePath env category is_global) = Some (File body) →
  blank body ∨ Codec.groupEntries body = [] →
  ∃ memories,
    Server.retrieve_memories env (js "*") is_global fs
    = (Returned {| text := JSON_stringify memories; isError := false |}, fs)
    ∧ Assoc.get category memories = None.
Proof.
  intros Hok Hfile Hempty.
  assert (Codec.groupEntries body = []) as Hnil
    by (destruct Hempty; [by apply groupEntries_blank | done]).
  eexists. split; [by apply retrieve_wildcard_tree|].
  destruct (Tree.lookup_node fs (Server.baseDir env is_global)) as [[?|]|]; [done | | done].
  rewrite get_fold_collected, existsb_false; [done|].
  intros file. apply not_true_is_false. intros Hhit%hits_nonempty.
  apply Hhit. unfold view, body_at. by rewrite Hfile.
Qed.

Lemma C9_witness :
  let env := {| cwd := [js "w"]; homedir := [js "h"] |} in
  let fs := Assoc.put (resource env (js "x") false) (File (js "  " ++ Codec.delimiter))
              (Tree.startup env []) in
  ∃ memories,
    Server.retrieve_memories env (js "*") false fs
    = (Returned {| text := JSON_stringify memories; isError := false |}, fs)
    ∧ Assoc.get (js "x") memories = None.
Proof.
  intros env fs.
  apply (C9_empty_view_is_omitted env fs (js "x") false (js "  " ++ Codec.delimiter)).
  - reflexivity.
  - reflexivity.
  - left. unfold blank. repeat constructor.
Defined.

(** C3, amended.  On a tree whose names hold no path separator, where the
    scope's directory exists and no [.txt] entry it lists is a directory,
    the wildcard retrieval answers a mapping that holds, for every category
    with a file in the scope's directory whose name is a plain file name,
    whose [category.txt] loses its extension under [replace('.txt', '')],
    that is not "__proto__" and whose body decodes to at least one group,
    the flattened lines of all its groups (group keys dropped); every key of
    the mapping is a category with a file in this scope's directory, mapped
    to the flattened lines of that file, so nothing of the other scope
    appears. *)
Theorem C3_wildcard_lists_shown
    (env : Env) (fs : FileSystem) (is_global : bool) :
  Tree.lookup_node fs (Server.baseDir env is_global) = Some Dir →
  listable env fs is_global = true →
  well_named fs →
  wildcard_lists env shown fs is_global.
Proof.
  intros Hdir Hok Hwf. unfold wildcard_lists, answers.
  rewrite (retrieve_wildcard_tree env fs is_global Hok), Hdir.
  eexists. split; [reflexivity|]. split.
  - intros category body Hfile (Hslash & Hrep & Hproto & Hne).
    rewrite get_fold_collected.
    assert (view env fs category is_global = Codec.groupEntries body) as Hview.
    { unfold view, body_at. rewrite memoryFilePath_plain by done.
      unfold Tree.lookup_node, resource in *.
      destruct (Server.baseDir env is_global ++ _) eqn:Hp; [|by rewrite Hfile].
      by apply app_eq_nil in Hp as [_ ?]. }
    rewrite Hview.
    assert (existsb (hits env fs is_global category)
              (omap (fun kv => Tree.entry_of (Server.baseDir env is_global) kv.1) fs)
            = true) as ->; [|done].
    apply existsb_exists. exists (category ++ js ".txt"). split.
    + apply list_elem_of_In, list_elem_of_omap.
      exists (resource env category is_global, File body). split.
      * by apply get_Some_elem.
      * apply entry_of_child.
    + unfold hits. rewrite Hview, !andb_true_iff. repeat split.
      * apply endsWith_suffix. by exists category.
      * by apply bool_decide_eq_true_2.
      * by rewrite bool_decide_eq_false_2.
      * apply Nat.ltb_lt. rewrite values_length.
        destruct (Codec.groupEntries body); [done | simpl; lia].
  - intros category lines. rewrite get_fold_collected.
    destruct (existsb _ _) eqn:Hex; [|done]. intros [= <-].
    apply existsb_exists in Hex as (file & Hin & Hhit).
    pose proof (hits_nonempty env _ _ _ _ Hhit) as Hne.
    apply list_elem_of_In, list_elem_of_omap in Hin as ([p n] & Hin & Hentry).
    apply entry_of_Some in Hentry. cbn [fst] in Hentry. subst p.
    assert (JS.includes file (js "/") = false) as Hfile.
    { assert (Server.baseDir env is_global ++ [file] ∈ fs.*1) as Hp
        by (apply list_elem_of_fmap; by exists (Server.baseDir env is_global ++ [file], n)).
      apply Hwf in Hp. rewrite Forall_app, Forall_singleton in Hp. by destruct Hp. }
    unfold hits in Hhit. rewrite !andb_true_iff in Hhit.
    destruct Hhit as (((_ & Hrep%bool_decide_eq_true) & _) & _).
    assert (JS.includes category (js "/") = false) as Hslash.
    { apply includes_single. apply includes_single in Hfile.
      intros Hc. apply Hfile. rewrite <- Hrep in Hc. by apply replace_elem in Hc. }
    unfold view, body_at in *. rewrite memoryFilePath_plain in * by done.
    assert (resource env category is_global ≠ []) as Hp
      by (unfold resource; intros [_ ?]%app_eq_nil; done).
    unfold Tree.lookup_node in *.
    destruct (resource env category is_global) as [|c p] eqn:Hres; [done|].
    destruct (Assoc.get (c :: p) fs) as [[body|]|]; [by exists body | done | done].
Qed.

Lemma C3_witness :
  let env := {| cwd := [js "w"]; homedir := [js "h"] |} in
  let fs := (Server.remember_memory env (js "x") (js "hello") [js "t"] false
               (Tree.startup env [])).2 in
  wildcard_lists env shown fs false.
Proof.
  intros env fs. apply (C3_wildcard_lists_shown env fs false).
  - reflexivity.
  - reflexivity.
  - intros p Hp. vm_compute in Hp.
    repeat (apply elem_of_cons in Hp as [->|Hp];
            [repeat constructor|]).
    by apply elem_of_nil in Hp.
Defined.

(** C3 as stated fails: a category whose file is there with an empty body
    (what the removal of its only memory leaves) is not a key of the
    mapping. *)
Lemma C3_counterexample :
  let env := {| cwd := [js "w"]; homedir := [js "h"] |} in
  let fs1 := (Server.remember_memory env (js "x") (js "hello") [] false
                (Tree.startup env [])).2 in
  let fs := (Server.remove_specific_memory env (js "x") (js "hello") false fs1).2 in
  Assoc.get (resource env (js "x") false) fs = Some (File [])
  ∧ answers (Server.retrieve_memories env (js "*") false fs) []
  ∧ ¬ wildcard_lists_all env fs false.
Proof.
  intros env fs1 fs.
  assert (Assoc.get (resource env (js "x") false) fs = Some (File [])) as Hx
    by reflexivity.
  split; [done|]. split; [reflexivity|].
  intros (memories & Hans & Hall & _).
  vm_compute in Hans. injection Hans as <-.
  specialize (Hall (js "x") [] Hx I). vm_compute in Hall. discriminate.
Qed.

(* ===================================================================== *)
(** * Failures                                                            *)
(* ===================================================================== *)

Section Failures.




End Failures.




(* ===================================================================== *)
(** * Scopes                                                              *)
(* ===================================================================== *)

Section RestrictFacts.
Context {K V : Type} `{EqDecision K}.
Implicit Types (o : list (K * V)) (keep : K → bool).

Lemma restrict_put_in o keep k v :
  keep k = true →
  Assoc.restrict keep (Assoc.put k v o) = Assoc.put k v (Assoc.restrict keep o).
Proof.
  intros Hk. unfold Assoc.restrict.
  induction o as [|[k0 v0] o IH]; simpl.
  - by rewrite Hk.
  - destruct (decide (k = k0)) as [->|Hne]; simpl.
    + rewrite Hk. simpl. by rewrite decide_True.
    + destruct (keep k0); simpl; [|done]. by rewrite decide_False, IH.
Qed.

Lemma restrict_put_out o keep k v :
  keep k = false →
  Assoc.restrict keep (Assoc.put k v o) = Assoc.restrict keep o.
Proof.
  intros Hk. unfold Assoc.restrict.
  induction o as [|[k0 v0] o IH]; simpl.
  - by rewrite Hk.
  - destruct (decide (k = k0)) as [->|Hne]; simpl.
    + by rewrite Hk.
    + by rewrite IH.
Qed.

Lemma restrict_comm o keep keep' :
  Assoc.restrict keep (Assoc.restrict keep' o)
  = Assoc.restrict keep' (Assoc.restrict keep o).
Proof.
  unfold Assoc.restrict. induction o as [|[k0 v0] o IH]; simpl; [done|].
  destruct (keep' k0) eqn:H1, (keep k0) eqn:H2; simpl; rewrite ?H1, ?H2, ?IH; done.
Qed.

Lemma restrict_absorb o keep keep' :
  (∀ k, keep k = true → keep' k = true) →
  Assoc.restrict keep (Assoc.restrict keep' o) = Assoc.restrict keep o.
Proof.
  intros Himp. unfold Assoc.restrict. induction o as [|[k0 v0] o IH]; simpl; [done|].
  destruct (keep k0) eqn:H2.
  - rewrite (Himp _ H2). simpl. by rewrite H2, IH.
  - destruct (keep' k0); simpl; by rewrite ?H2, IH.
Qed.

Lemma restrict_keys o keep k : k ∈ (Assoc.restrict keep o).*1 → k ∈ o.*1.
Proof.
  unfold Assoc.restrict. rewrite !list_elem_of_fmap.
  intros ([k' v] & -> & Hin). apply list_elem_of_In, filter_In in Hin as [Hin _].
  exists (k', v). split; [done|]. by apply list_elem_of_In.
Qed.

Lemma put_keys o k k' v : k' ∈ (Assoc.put k v o).*1 → k' = k ∨ k' ∈ o.*1.
Proof.
  induction o as [|[k0 v0] o IH]; simpl.
  - rewrite list_elem_of_singleton. auto.
  - destruct (decide (k = k0)) as [->|Hne]; simpl; rewrite !elem_of_cons.
    + intros [->|?]; auto.
    + intros [->|?]; [auto|]. destruct IH; auto.
Qed.

End RestrictFacts.

Section Scopes.
Variable env : Env.
Implicit Types (fs : FileSystem) (p d : path) (r : request).

Lemma within_refl d : Tree.within d d = true.
Proof. by apply bool_decide_eq_true_2. Qed.

Lemma within_child d name : Tree.within d (d ++ [name]) = true.
Proof. apply bool_decide_eq_true_2. by apply prefix_app_r. Qed.

Lemma within_trans d p q :
  Tree.within d p = true → Tree.within p q = true → Tree.within d q = true.
Proof.
  unfold Tree.within. rewrite !bool_decide_eq_true. intros ? ?. by etrans.
Qed.

(** Paths at or below both of two directories exist only when one of the
    directories is at or below the other. *)
Lemma within_both d d' p :
  Tree.within d p = true → Tree.within d' p = true →
  Tree.within d d' = true ∨ Tree.within d' d = true.
Proof.
  unfold Tree.within. rewrite !bool_decide_eq_true. apply prefix_weak_total.
Qed.

Lemma separated_within is_global p :
  separated env →
  Tree.within (Server.baseDir env is_global) p = true →
  Tree.within (Server.baseDir env (negb is_global)) p = false.
Proof.
  intros [H1 H2] Hp. apply not_true_is_false. intros Hp'.
  destruct (within_both _ _ _ Hp Hp') as [H|H]; destruct is_global; simpl in *; congruence.
Qed.

Lemma lookup_node_region fs is_global q :
  Tree.within (Server.baseDir env is_global) q = true →
  Tree.lookup_node (region env is_global fs) q = Tree.lookup_node fs q.
Proof.
  intros Hq. unfold Tree.lookup_node, region. destruct q; [done|].
  by rewrite get_restrict, Hq.
Qed.

Lemma listing_region fs d :
  omap (fun kv : path * node => Tree.entry_of d kv.1) (Assoc.restrict (Tree.within d) fs)
  = omap (fun kv : path * node => Tree.entry_of d kv.1) fs.
Proof.
  unfold Assoc.restrict. induction fs as [|[p n] fs IH]; [done|].
  cbn [List.filter fst]. destruct (Tree.within d p) eqn:Hw.
  - csimpl. by rewrite IH.
  - csimpl. rewrite IH. unfold Tree.entry_of. rewrite Hw.
    by destruct (drop (length d) p) as [|? [|? ?]].
Qed.

Lemma baseDir_nonroot is_global : Server.baseDir env is_global ≠ [].
Proof.
  destruct is_global; simpl; unfold Server.appDirs_global, Server.appDirs_local;
    intros [_ ?]%app_eq_nil; done.
Qed.

Lemma resource_within category is_global :
  Tree.within (Server.baseDir env is_global) (resource env category is_global) = true.
Proof. apply within_child. Qed.

Lemma resource_parent category is_global :
  removelast (resource env category is_global) = Server.baseDir env is_global.
Proof. unfold resource. apply removelast_last. Qed.

(** Reading one category: the tree stays, and the answer is read off the
    scope's part of it. *)
Lemma retrieveCategory_state fs category is_global :
  (Server.retrieveCategory env category is_global fs).2 = fs.
Proof.
  rewrite retrieveCategory_tree. by destruct (Tree.lookup_node fs _) as [[?|]|].
Qed.

Lemma retrieveCategory_region fs category is_global :
  JS.includes category (js "/") = false →
  Server.retrieveCategory env category is_global (region env is_global fs)
  = ((Server.retrieveCategory env category is_global fs).1, region env is_global fs).
Proof.
  intros Hc. rewrite !retrieveCategory_tree, memoryFilePath_plain by done.
  rewrite lookup_node_region by apply resource_within.
  by destruct (Tree.lookup_node fs _) as [[?|]|].
Qed.

Lemma collectFile_state fs is_global memories file :
  (Server.collectFile env is_global memories file fs).2 = fs.
Proof.
  unfold Server.collectFile. destruct (JS.endsWith file (js ".txt")); [|done].
  run_m. pose proof (retrieveCategory_state fs (JS.replace file (js ".txt") []) is_global) as Hs.
  destruct (Server.retrieveCategory env _ is_global fs) as [[m|e] fs']; simpl in Hs; subst.
  - by destruct (0 <? length (Obj.values m))%nat.
  - done.
Qed.

Lemma collectFile_region fs is_global memories file :
  JS.includes file (js "/") = false →
  Server.collectFile env is_global memories file (region env is_global fs)
  = ((Server.collectFile env is_global memories file fs).1, region env is_global fs).
Proof.
  intros Hf. unfold Server.collectFile. destruct (JS.endsWith file (js ".txt")); [|done].
  run_m. rewrite retrieveCategory_region.
  - pose proof (retrieveCategory_state fs (JS.replace file (js ".txt") []) is_global) as Hs.
    destruct (Server.retrieveCategory env _ is_global fs) as [[m|e] fs']; simpl in *.
    + by destruct (0 <? length (Obj.values m))%nat.
    + done.
  - apply includes_single. apply includes_single in Hf.
    intros Hc. by apply replace_elem in Hc.
Qed.

Lemma forOf_collectFile_state fs is_global files memories :
  (forOf files (Server.collectFile env is_global) memories fs).2 = fs.
Proof.
  revert memories. induction files as [|file files IH]; intros memories; [done|].
  cbn [forOf]. run_m.
  pose proof (collectFile_state fs is_global memories file) as Hs.
  destruct (Server.collectFile env is_global memories file fs) as [[m|e] fs'];
    simpl in Hs; subst; [apply IH | done].
Qed.

Lemma forOf_collectFile_region fs is_global files memories :
  Forall (fun file => JS.includes file (js "/") = false) files →
  forOf files (Server.collectFile env is_global) memories (region env is_global fs)
  = ((forOf files (Server.collectFile env is_global) memories fs).1,
     region env is_global fs).
Proof.
  intros Hfiles. revert memories.
  induction Hfiles as [|file files Hfile _ IH]; intros memories; [done|].
  cbn [forOf]. run_m. rewrite collectFile_region by done.
  pose proof (collectFile_state fs is_global memories file) as Hs.
  destruct (Server.collectFile env is_global memories file fs) as [[m|e] fs'];
    simpl in Hs; subst; [apply IH | done].
Qed.

(** The names the scope's directory lists hold no separator on a well
    named tree. *)
Lemma listing_well_named fs d :
  well_named fs →
  Forall (fun file => JS.includes file (js "/") = false)
    (omap (fun kv : path * node => Tree.entry_of d kv.1) fs).
Proof.
  intros Hwf. apply Forall_forall. intros file Hin.
  apply list_elem_of_omap in Hin as ([p n] & Hin & Hentry).
  apply entry_of_Some in Hentry. cbn [fst] in Hentry. subst p.
  assert (d ++ [file] ∈ fs.*1) as Hp
    by (apply list_elem_of_fmap; by exists (d ++ [file], n)).
  apply Hwf in Hp. rewrite Forall_app, Forall_singleton in Hp. by destruct Hp.
Qed.

End Scopes.

Section Locality.
Variable env : Env.
Implicit Types (fs : FileSystem) (r : request).

Ltac open_callback :=
  unfold handle, Server.remember_memory, Server.retrieve_memories,
    Server.remove_memory_category, Server.remove_specific_memory, Server.guarded,
    Server.remember_memory_try, Server.retrieve_memories_try,
    Server.remove_memory_category_try, Server.remove_specific_memory_try;
  run_m; on_tree.

(** A call with a plain category, run on the scope's part of the tree
    alone, gives the same answer and leaves the scope's part of what the
    call leaves on the whole tree. *)
Lemma handle_region fs r is_global :
  plain_request r → well_named fs →
  handle env r is_global (region env is_global fs)
  = ((handle env r is_global fs).1, region env is_global (handle env r is_global fs).2).
Proof.
  intros Hplain Hwf. unfold plain_request in Hplain.
  pose proof (within_refl (Server.baseDir env is_global)) as Hd.
  destruct r as [category data tags|category|category|category memory_content];
    cbn [category_of] in Hplain;
    pose proof (resource_within env category is_global) as Hp.
  - open_callback. rewrite memoryFilePath_plain by done.
    rewrite !resource_parent, !lookup_node_region by done.
    destruct (Tree.lookup_node fs (resource env category is_global)) as [[content|]|].
    + cbn [fst snd]. unfold region. by rewrite restrict_put_in.
    + done.
    + destruct (Tree.has_nul _); [done|]. destruct (Tree.path_too_long _); [done|].
      destruct (Tree.lookup_node fs (Server.baseDir env is_global)) as [[?|]|]; try done.
      destruct (Tree.name_too_long _); [done|].
      cbn [fst snd]. unfold region. by rewrite restrict_put_in.
  - unfold handle, Server.retrieve_memories, Server.guarded, Server.retrieve_memories_try.
    case_decide.
    + run_m. on_tree. rewrite !lookup_node_region by done.
      destruct (Tree.lookup_node fs (Server.baseDir env is_global)) as [[?|]|] eqn:Hl.
      * rewrite !bool_decide_eq_true_2 by (by eexists).
        rewrite lookup_node_region, Hl by done. done.
      * rewrite !bool_decide_eq_true_2 by (by eexists).
        rewrite lookup_node_region, Hl by done.
        unfold region at 1. rewrite listing_region.
        rewrite forOf_collectFile_region by by apply listing_well_named.
        pose proof (forOf_collectFile_state env fs is_global
                      (omap (fun kv : path * node =>
                               Tree.entry_of (Server.baseDir env is_global) kv.1) fs) [])
          as Hs.
        destruct (forOf _ _ _ fs) as [[m|e] fs']; simpl in Hs; subst; done.
      * rewrite !bool_decide_eq_false_2 by (by intros [? ?]). done.
    + run_m. rewrite retrieveCategory_region by done.
      pose proof (retrieveCategory_state env fs category is_global) as Hs.
      destruct (Server.retrieveCategory env category is_global fs) as [[m|e] fs'];
        simpl in Hs; subst; done.
  - unfold handle, Server.remove_memory_category, Server.guarded,
      Server.remove_memory_category_try.
    case_decide.
    + run_m. on_tree. rewrite !lookup_node_region by done.
      destruct (Tree.lookup_node fs (Server.baseDir env is_global)) as [[?|]|] eqn:Hl.
      * rewrite !bool_decide_eq_true_2 by (by eexists).
        rewrite lookup_node_region, Hl by done. done.
      * rewrite !bool_decide_eq_true_2 by (by eexists).
        rewrite lookup_node_region, Hl by done.
        cbn [fst snd]. unfold region. by rewrite restrict_comm.
      * rewrite !bool_decide_eq_false_2 by (by intros [? ?]). done.
    + run_m. on_tree. rewrite memoryFilePath_plain by done.
      rewrite !lookup_node_region by done.
      destruct (Tree.lookup_node fs (resource env category is_global)) as [n|].
      * rewrite !bool_decide_eq_true_2 by (by eexists).
        cbn [fst snd]. unfold region. by rewrite restrict_comm.
      * rewrite !bool_decide_eq_false_2 by (by intros [? ?]). done.
  - open_callback. rewrite memoryFilePath_plain by done.
    rewrite !lookup_node_region by done.
    destruct (Tree.lookup_node fs (resource env category is_global)) as [[content|]|] eqn:Hl.
    + rewrite !bool_decide_eq_true_2 by (by eexists).
      repeat first [ rewrite lookup_node_region by done | rewrite Hl
                   | progress cbv beta iota ].
      cbn [fst snd]. unfold region. by rewrite restrict_put_in.
    + rewrite !bool_decide_eq_true_2 by (by eexists).
      repeat first [ rewrite lookup_node_region by done | rewrite Hl
                   | progress cbv beta iota ].
      done.
    + rewrite !bool_decide_eq_false_2 by (by intros [? ?]). done.
Qed.

End Locality.

Section Frames.
Variable env : Env.
Implicit Types (fs : FileSystem) (r : request).

Ltac open_callback :=
  unfold handle, Server.remember_memory, Server.retrieve_memories,
    Server.remove_memory_category, Server.remove_specific_memory, Server.guarded,
    Server.remember_memory_try, Server.retrieve_memories_try,
    Server.remove_memory_category_try, Server.remove_specific_memory_try;
  run_m; on_tree.

(** What a call with a plain category does to the tree: nothing, or it
    writes the category's file in the scope's directory, or it drops paths
    that all lie at or below the scope's directory. *)
Lemma handle_shape fs r is_global :
  plain_request r →
  let fs' := (handle env r is_global fs).2 in
  fs' = fs
  ∨ (∃ v, fs' = Assoc.put (resource env (category_of r) is_global) v fs)
  ∨ (∃ keep, (∀ k, keep k = false → Tree.within (Server.baseDir env is_global) k = true)
             ∧ fs' = Assoc.restrict keep fs).
Proof.
  intros Hplain. unfold plain_request in Hplain.
  destruct r as [category data tags|category|category|category memory_content];
    cbn [category_of] in *.
  - open_callback. rewrite memoryFilePath_plain by done.
    destruct (Tree.lookup_node fs (resource env category is_global)) as [[content|]|].
    + right. left. by eexists.
    + by left.
    + destruct (Tree.has_nul _); [by left|]. destruct (Tree.path_too_long _); [by left|].
      destruct (Tree.lookup_node fs _) as [[?|]|]; [by left | | by left].
      destruct (Tree.name_too_long _); [by left|].
      right. left. by eexists.
  - left. unfold handle, Server.retrieve_memories, Server.guarded,
      Server.retrieve_memories_try.
    case_decide.
    + run_m. on_tree.
      destruct (Tree.lookup_node fs (Server.baseDir env is_global)) as [[?|]|] eqn:Hl.
      * rewrite !bool_decide_eq_true_2 by (by eexists). by rewrite Hl.
      * rewrite !bool_decide_eq_true_2 by (by eexists). rewrite Hl.
        pose proof (forOf_collectFile_state env fs is_global
                      (omap (fun kv : path * node =>
                               Tree.entry_of (Server.baseDir env is_global) kv.1) fs) [])
          as Hs.
        destruct (forOf _ _ _ fs) as [[m|e] fs']; simpl in Hs; subst; done.
      * rewrite !bool_decide_eq_false_2 by (by intros [? ?]). done.
    + run_m. pose proof (retrieveCategory_state env fs category is_global) as Hs.
      destruct (Server.retrieveCategory env category is_global fs) as [[m|e] fs'];
        simpl in Hs; subst; done.
  - unfold handle, Server.remove_memory_category, Server.guarded,
      Server.remove_memory_category_try.
    case_decide.
    + run_m. on_tree.
      destruct (Tree.lookup_node fs (Server.baseDir env is_global)) as [[?|]|] eqn:Hl.
      * rewrite !bool_decide_eq_true_2 by (by eexists). rewrite Hl. by left.
      * rewrite !bool_decide_eq_true_2 by (by eexists). rewrite Hl.
        right. right. eexists. split; [|reflexivity].
        intros k Hk. apply negb_false_iff in Hk. unfold Tree.below in Hk.
        by apply andb_true_iff in Hk as [? _].
      * rewrite !bool_decide_eq_false_2 by (by intros [? ?]). by left.
    + run_m. on_tree. rewrite memoryFilePath_plain by done.
      destruct (Tree.lookup_node fs (resource env category is_global)) as [n|].
      * rewrite !bool_decide_eq_true_2 by (by eexists).
        right. right. eexists. split; [|reflexivity].
        intros k Hk. apply negb_false_iff in Hk.
        eapply within_trans; [|exact Hk]. apply resource_within.
      * rewrite !bool_decide_eq_false_2 by (by intros [? ?]). by left.
  - open_callback. rewrite memoryFilePath_plain by done.
    destruct (Tree.lookup_node fs (resource env category is_global)) as [[content|]|] eqn:Hl.
    + rewrite !bool_decide_eq_true_2 by (by eexists).
      repeat first [ rewrite Hl | progress cbv beta iota ].
      right. left. by eexists.
    + rewrite !bool_decide_eq_true_2 by (by eexists).
      repeat first [ rewrite Hl | progress cbv beta iota ]. by left.
    + rewrite !bool_decide_eq_false_2 by (by intros [? ?]). by left.
Qed.

(** A call with a plain category leaves the other scope's part of the
    tree as it was, when the scope directories are separated. *)
Lemma handle_frame fs r is_global :
  plain_request r → separated env →
  region env (negb is_global) (handle env r is_global fs).2
  = region env (negb is_global) fs.
Proof.
  intros Hplain Hsep.
  destruct (handle_shape fs r is_global Hplain) as [->|[[v ->]|(keep & Hkeep & ->)]].
  - done.
  - unfold region. apply restrict_put_out.
    apply separated_within; [done|]. apply resource_within.
  - unfold region. apply restrict_absorb. intros k Hk.
    destruct (keep k) eqn:Hkk; [done|]. apply Hkeep in Hkk.
    apply (separated_within env is_global k Hsep) in Hkk. congruence.
Qed.

Lemma baseDir_well_named is_global :
  env_well_named env →
  Forall (fun name => JS.includes name (js "/") = false) (Server.baseDir env is_global).
Proof.
  unfold env_well_named. rewrite Forall_app. intros [Hc Hh].
  destruct is_global; simpl; unfold Server.appDirs_global, Server.appDirs_local;
    rewrite Forall_app; (split; [done|]); repeat constructor.
Qed.

(** Calls with plain categories keep the tree well named. *)
Lemma handle_well_named fs r is_global :
  plain_request r → env_well_named env → well_named fs →
  well_named (handle env r is_global fs).2.
Proof.
  intros Hplain Henv Hwf.
  destruct (handle_shape fs r is_global Hplain) as [->|[[v ->]|(keep & Hkeep & ->)]].
  - done.
  - intros p [->|Hp]%put_keys; [|by apply Hwf].
    unfold resource. rewrite Forall_app, Forall_singleton.
    split; [by apply baseDir_well_named|].
    unfold plain_request in Hplain.
    apply includes_single. apply includes_single in Hplain.
    rewrite elem_of_app. intros [H|H]; [done|].
    change (js ".txt") with [46; 116; 120; 116] in H.
    rewrite !elem_of_cons in H.
    destruct H as [H|[H|[H|[H|H%elem_of_nil]]]]; done.
  - intros p Hp%restrict_keys. by apply Hwf.
Qed.

(** The unwinding step: on trees that agree on the scope's part, a call of
    the scope is answered alike and leaves trees that agree on it. *)
Lemma handle_agree fs1 fs2 r is_global :
  plain_request r → well_named fs1 → well_named fs2 →
  region env is_global fs1 = region env is_global fs2 →
  (handle env r is_global fs1).1 = (handle env r is_global fs2).1
  ∧ region env is_global (handle env r is_global fs1).2
    = region env is_global (handle env r is_global fs2).2.
Proof.
  intros Hplain Hwf1 Hwf2 Heq.
  pose proof (handle_region env fs1 r is_global Hplain Hwf1) as H1.
  pose proof (handle_region env fs2 r is_global Hplain Hwf2) as H2.
  rewrite Heq in H1. rewrite H1 in H2. by injection H2.
Qed.

End Frames.

Section NonInterference.
Variable env : Env.

Lemma run_agree (calls : list (request * bool)) (fs1 fs2 : FileSystem) (is_global : bool) :
  separated env → env_well_named env →
  Forall (fun call => plain_request call.1) calls →
  well_named fs1 → well_named fs2 →
  region env is_global fs1 = region env is_global fs2 →
  answers_of is_global (run env calls fs1).1 = (run env (calls_of is_global calls) fs2).1
  ∧ region env is_global (run env calls fs1).2
    = region env is_global (run env (calls_of is_global calls) fs2).2.
Proof.
  intros Hsep Henv Hplain. revert fs1 fs2.
  induction Hplain as [|[r g'] calls Hr _ IH]; intros fs1 fs2 Hwf1 Hwf2 Heq; [done|].
  cbn [fst] in Hr. cbn [run calls_of List.filter snd].
  fold (calls_of is_global calls).
  pose proof (handle_well_named env fs1 r g' Hr Henv Hwf1) as Hwf1'.
  destruct (Bool.eqb g' is_global) eqn:Hg.
  - apply Bool.eqb_prop in Hg. subst g'. cbn [run].
    pose proof (handle_well_named env fs2 r is_global Hr Henv Hwf2) as Hwf2'.
    destruct (handle_agree env fs1 fs2 r is_global Hr Hwf1 Hwf2 Heq) as [Ha Hreg].
    destruct (handle env r is_global fs1) as [a1 fs1'].
    destruct (handle env r is_global fs2) as [a2 fs2'].
    cbn [fst snd] in *. subst a2.
    destruct (IH fs1' fs2' Hwf1' Hwf2' Hreg) as [IHa IHr].
    destruct (run env calls fs1') as [as1 fs1''].
    destruct (run env (calls_of is_global calls) fs2') as [as2 fs2''].
    cbn [fst snd] in *. unfold answers_of. cbn [List.filter fst].
    rewrite Bool.eqb_reflx. split; [|done]. f_equal. exact IHa.
  - assert (g' = negb is_global) as -> by (by destruct g', is_global).
    pose proof (handle_frame env fs1 r (negb is_global) Hr Hsep) as Hframe.
    rewrite Bool.negb_involutive in Hframe.
    destruct (handle env r (negb is_global) fs1) as [a1 fs1'].
    cbn [fst snd] in *.
    destruct (IH fs1' fs2 Hwf1' Hwf2) as [IHa IHr]; [by rewrite Hframe|].
    destruct (run env calls fs1') as [as1 fs1''].
    cbn [fst snd] in *. unfold answers_of. cbn [List.filter fst].
    rewrite Hg. split; [exact IHa | done].
Qed.

End NonInterference.

(** C7, amended.  When neither scope directory lies at or below the other
    and no name in the tree, the working directory or the home directory
    holds a path separator: for every sequence of calls whose categories
    hold no path separator, the answers to the calls made with one value of
    is_global, and that scope's part of the tree at the end, are those of
    the same sequence without the calls made with the other value.  So a
    memory stored with is_global=true never shows in a retrieval with
    is_global=false, and vice versa, and the removal of "*" in one scope
    leaves the other scope's categories unchanged. *)
Theorem C7_scopes_do_not_interfere
    (env : Env) (fs : FileSystem) (calls : list (request * bool)) (is_global : bool) :
  separated env →
  env_well_named env →
  well_named fs →
  Forall (fun call => plain_request call.1) calls →
  isolated env fs calls is_global.
Proof.
  intros Hsep Henv Hwf Hplain. by apply run_agree.
Qed.

Lemma C7_witness :
  let env := {| cwd := [js "w"]; homedir := [js "h"] |} in
  isolated env (Tree.startup env [])
    [(Remember (js "x") (js "mine") [js "t"], true);
     (Remember (js "x") (js "yours") [], false);
     (RemoveCategory (js "*"), true);
     (Retrieve (js "x"), false);
     (Retrieve (js "*"), true)]
    false.
Proof.
  intros env. apply C7_scopes_do_not_interfere.
  - split; reflexivity.
  - unfold env_well_named. repeat constructor.
  - intros p Hp. vm_compute in Hp.
    repeat (apply elem_of_cons in Hp as [->|Hp]; [repeat constructor|]).
    by apply elem_of_nil in Hp.
  - repeat constructor.
Defined.

(** C7 as stated fails: a category that climbs out of its scope's directory
    names the same file under both flags, so a memory stored with
    is_global=true is answered by a retrieval with is_global=false for the
    same category name. *)
Lemma C7_counterexample :
  let env := {| cwd := [js "home"; js "u"; js "proj"]; homedir := [js "home"; js "u"] |} in
  let fs := Tree.startup env [] in
  let category := js "../../../shared" in
  let calls := [(Remember category (js "secret") [], true); (Retrieve category, false)] in
  Server.memoryFilePath env category true = Server.memoryFilePath env category false
  ∧ (run env calls fs).1
    = [(true, Returned (Server.okResult (js "Successfully stored memory in category: " ++ category)));
       (false, Returned {| text := JSON_stringify [(js "untagged", [js "secret"])];
                           isError := false |})]
  ∧ (run env (calls_of false calls) fs).1
    = [(false, Returned {| text := JSON_stringify []; isError := false |})]
  ∧ ¬ isolated env fs calls false.
Proof.
  intros env fs category calls. repeat split.
  intros [Hans _]. vm_compute in Hans. discriminate.
Qed.

(* ===================================================================== *)
(** * The MemoryManager on Web Storage                                    *)
(* ===================================================================== *)

(** The same facts hold of the browser implementation, whose methods read
    and write one Storage item per category. *)
Section ManagerFacts.
Variable this : MemoryManager.
Implicit Types (ls : LocalStorage).

Lemma access_open {A} (c : M LocalStorage A) ls :
  denied ls = false → Storage.access c ls = c ls.
Proof. intros Hd. unfold Storage.access. by rewrite Hd. Qed.

Lemma Manager_retrieve_open ls category isGlobal :
  denied ls = false →
  Manager.retrieve this category isGlobal ls
  = (Returned (Codec.groupEntries
                 (default [] (Assoc.get (Manager.getStorageKey this category isGlobal)
                                (items ls)))), ls).
Proof.
  intros Hd. unfold Manager.retrieve, Storage.getItem. run_m.
  rewrite access_open by done.
  by destruct (Assoc.get _ (items ls)) as [[|c s]|].
Qed.

Lemma Manager_remember_open ls category data tags isGlobal :
  denied ls = false → quota ls = None →
  let storageKey := Manager.getStorageKey this category isGlobal in
  Manager.remember this category data tags isGlobal ls
  = (Returned tt,
     Storage.with_items
       (Assoc.put storageKey
          (default [] (Assoc.get storageKey (items ls)) ++ Codec.content data tags)
          (items ls)) ls).
Proof.
  intros Hd Hq storageKey. unfold Manager.remember, Storage.getItem, Storage.setItem.
  run_m. rewrite !access_open by done. fold storageKey. rewrite Hq.
  by destruct (Assoc.get storageKey (items ls)) as [[|c s]|].
Qed.

(** Companion of C1: store, then retrieve, in the manager. *)
Lemma Manager_store_then_retrieve ls category data tags isGlobal :
  let storageKey := Manager.getStorageKey this category isGlobal in
  denied ls = false → quota ls = None →
  complete (default [] (Assoc.get storageKey (items ls))) →
  plain_entry data tags →
  ∃ ls' memories,
    Manager.remember this category data tags isGlobal ls = (Returned tt, ls')
    ∧ Manager.retrieve this category isGlobal ls' = (Returned memories, ls')
    ∧ filed_under data (groupKey tags) memories.
Proof.
  intros storageKey Hd Hq Hold [Hdata Htags].
  rewrite Manager_remember_open by done. fold storageKey.
  eexists _, _. split; [reflexivity|].
  rewrite Manager_retrieve_open by done. fold storageKey.
  cbn [items Storage.with_items]. rewrite get_put, decide_True by done.
  split; [reflexivity|]. change (default [] (Some ?x)) with x.
  set (old := default [] (Assoc.get storageKey (items ls))) in *.
  unfold filed_under, groupKey. destruct tags as [|t ts].
  - destruct Htags as [Htr Hst].
    destruct (groupEntries_store_untagged old data Hold Hdata) as [-> _].
    assert (¬ blank data) as Hnb by (rewrite <- trim_falsy; congruence).
    eexists. split.
    + rewrite get_groupEntry_untagged by done. by rewrite decide_True.
    + by apply suffix_app_r.
  - destruct Htags as [Htags Hst].
    destruct (groupEntries_store_tagged old data (t :: ts)) as [-> _]; [done..|].
    exists (kept_lines data). split; [|done].
    rewrite get_set. destruct Htags as (_ & _ & Hproto).
    by rewrite decide_False, decide_True.
Qed.

(** Companion of C4 and C5: the removal of a specific memory rewrites the
    item with the blocks that do not contain the text. *)
Lemma Manager_removeSpecificMemory_open ls category memoryContent isGlobal content :
  let storageKey := Manager.getStorageKey this category isGlobal in
  denied ls = false → quota ls = None →
  Assoc.get storageKey (items ls) = Some content →
  Manager.removeSpecificMemory this category memoryContent isGlobal ls
  = (Returned tt,
     Storage.with_items
       (Assoc.put storageKey (Codec.withoutMatching content memoryContent) (items ls)) ls).
Proof.
  intros storageKey Hd Hq Hget.
  unfold Manager.removeSpecificMemory, Storage.getItem, Storage.setItem.
  run_m. rewrite !access_open by done. fold storageKey. rewrite Hget.
  destruct content as [|c s].
  - assert (Codec.withoutMatching [] memoryContent = []) as ->.
    { unfold Codec.withoutMatching. cbn.
      by destruct (negb (JS.startsWith [] memoryContent || false)). }
    rewrite put_same by done. by destruct ls.
  - rewrite access_open by done. by rewrite Hq.
Qed.

(** Companion of C6: a category without an item. *)
Lemma Manager_missing_category ls category memoryContent isGlobal :
  let storageKey := Manager.getStorageKey this category isGlobal in
  denied ls = false →
  Assoc.get storageKey (items ls) = None →
  Manager.retrieve this category isGlobal ls = (Returned [], ls)
  ∧ Manager.clearMemory this category isGlobal ls = (Returned tt, ls)
  ∧ Manager.removeSpecificMemory this category memoryContent isGlobal ls = (Returned tt, ls).
Proof.
  intros storageKey Hd Hget. repeat split.
  - rewrite Manager_retrieve_open by done. fold storageKey. by rewrite Hget.
  - unfold Manager.clearMemory, Storage.removeItem. run_m.
    rewrite access_open by done. fold storageKey.
    rewrite restrict_all; [by destruct ls|].
    intros k Hk. apply negb_true_iff, bool_decide_eq_false_2. intros ->.
    by apply get_None in Hget.
  - unfold Manager.removeSpecificMemory, Storage.getItem. run_m.
    rewrite access_open by done. fold storageKey. by rewrite Hget.
Qed.

End ManagerFacts.

(** Companion of C7: the storage keys of the two scopes never coincide,
    whatever the categories are, so no call of the manager touches an item
    of the other scope. *)
Lemma Manager_keys_apart (options_appName : option jsstring) (category category' : jsstring) :
  Manager.getStorageKey (Manager.new options_appName) category true
  ≠ Manager.getStorageKey (Manager.new options_appName) category' false.
Proof.
  unfold Manager.getStorageKey, Manager.prefix, Manager.new. cbn [globalStoragePrefix localStoragePrefix].
  rewrite <- !app_assoc. intros H%app_inv_head. discriminate.
Qed.

Lemma Manager_remember_other_scope (options_appName : option jsstring)
    ls category category' data tags isGlobal :
  let this := Manager.new options_appName in
  denied ls = false → quota ls = None →
  Manager.retrieve this category' (negb isGlobal)
    (Manager.remember this category data tags isGlobal ls).2
  = ((Manager.retrieve this category' (negb isGlobal) ls).1,
     (Manager.remember this category data tags isGlobal ls).2).
Proof.
  intros this Hd Hq. rewrite Manager_remember_open by done. cbn [snd].
  rewrite !Manager_retrieve_open by done. cbn [fst items Storage.with_items].
  rewrite get_put, decide_False; [done|].
  destruct isGlobal; simpl; [apply not_eq_sym|]; apply Manager_keys_apart.
Qed.

(** A storage failure in the file backed server, on a tree: a directory in
    the place of the category file makes the store answer a failure
    result. *)
Example remember_into_directory :
  let env := {| cwd := [js "w"]; homedir := [js "h"] |} in
  let fs := Assoc.put (resource env (js "x") false) Dir (Tree.startup env []) in
  Server.remember_memory env (js "x") (js "hello") [] false fs
  = (Returned
       {| text := Literal (js "Error: EISDIR: illegal operation on a directory, open '/w/.goose/memory/x.txt'");
          isError := true |}, fs).
Proof. reflexivity. Qed.

(** Companion of C9: [retrieveAll] leaves out a category whose item decodes
    to no group. *)
Section ManagerWildcard.
Variable this : MemoryManager.

Lemma Manager_collectKey_omits ls isGlobal category memories i :
  denied ls = false →
  Codec.groupEntries
    (default [] (Assoc.get (Manager.getStorageKey this category isGlobal) (items ls))) = [] →
  Assoc.get category memories = None →
  ∃ memories',
    Manager.collectKey this isGlobal memories i ls = (Returned memories', ls)
    ∧ Assoc.get category memories' = None.
Proof.
  intros Hd Hempty Hm. unfold Manager.collectKey, Storage.key. run_m.
  rewrite access_open by done.
  destruct (fst <$> items ls !! i) as [key|]; [|by eauto].
  destruct (JS.truthy key && JS.startsWith key (Manager.prefix this isGlobal)); [|by eauto].
  rewrite Manager_retrieve_open by done.
  set (category' := JS.substring key (length (Manager.prefix this isGlobal))).
  destruct (0 <? length (Obj.values _))%nat eqn:Hlen; [|by eauto].
  eexists. split; [reflexivity|].
  rewrite get_set. case_decide; [done|]. case_decide as Hc; [|done].
  subst category. rewrite Hempty in Hlen. done.
Qed.

Lemma Manager_retrieveAll_omits ls isGlobal category :
  denied ls = false →
  Codec.groupEntries
    (default [] (Assoc.get (Manager.getStorageKey this category isGlobal) (items ls))) = [] →
  ∃ memories,
    Manager.retrieveAll this isGlobal ls = (Returned memories, ls)
    ∧ Assoc.get category memories = None.
Proof.
  intros Hd Hempty. unfold Manager.retrieveAll, Storage.length. run_m.
  rewrite access_open by done.
  assert (∀ l memories, Assoc.get category memories = None →
            ∃ memories',
              forOf l (Manager.collectKey this isGlobal) memories ls = (Returned memories', ls)
              ∧ Assoc.get category memories' = None) as Hloop.
  { induction l as [|i l IH]; intros memories Hm; [by exists memories|].
    cbn [forOf]. run_m.
    destruct (Manager_collectKey_omits ls isGlobal category memories i Hd Hempty Hm)
      as (m1 & -> & Hm1).
    by apply IH. }
  destruct (Hloop (seq 0 (length (items ls))) [] eq_refl) as (m & Hrun & Hm).
  exists m. by rewrite Hrun.
Qed.

End ManagerWildcard.

(* ===================================================================== *)
(** * Further facts about the string methods                              *)
(* ===================================================================== *)

Section MoreStringFacts.

Lemma occurs_includes (t s : jsstring) : occurs t s ↔ JS.includes s t = true.
Proof. unfold occurs. by rewrite includes_occurs. Qed.

Lemma occurs_refl (s : jsstring) : occurs s s.
Proof. exists [], []. by rewrite app_nil_r. Qed.

Lemma occurs_trans (a b c : jsstring) : occurs a b → occurs b c → occurs a c.
Proof.
  intros (p1 & q1 & ->) (p2 & q2 & ->). exists (p2 ++ p1), (q1 ++ q2).
  by rewrite <- !app_assoc.
Qed.

Lemma includes_length (s p : jsstring) :
  JS.includes s p = true → (length p ≤ length s)%nat.
Proof. intros (pre & post & ->)%includes_occurs. rewrite !length_app. lia. Qed.

(** A prefix test looks at the first [length p] code units only. *)
Lemma startsWith_app_long (s t p : jsstring) :
  (length p ≤ length s)%nat → JS.startsWith (s ++ t) p = JS.startsWith s p.
Proof.
  intros Hlen. destruct (JS.startsWith s p) eqn:Hs.
  - by apply startsWith_true_app.
  - by apply startsWith_false_app.
Qed.

Lemma trimStart_fixed (s : jsstring) :
  match s with [] => True | c :: _ => JS.is_white c = false end → JS.trimStart s = s.
Proof. destruct s as [|c s]; simpl; [done|]. by intros ->. Qed.

Lemma trimStart_cases (s : jsstring) :
  JS.trimStart s = [] ∨ ∃ c t, JS.trimStart s = c :: t ∧ JS.is_white c = false.
Proof.
  destruct (JS.trimStart s) as [|c t] eqn:Hs; [by left|].
  right. exists c, t. split; [done|]. by eapply trimStart_head.
Qed.

Lemma trimStart_idem (s : jsstring) : JS.trimStart (JS.trimStart s) = JS.trimStart s.
Proof.
  destruct (trimStart_cases s) as [->|(c & t & -> & Hc)]; [done|].
  simpl. by rewrite Hc.
Qed.

(** Trimming the end keeps a non-white first code unit first. *)
Lemma trimEnd_head (c : N) (t : jsstring) :
  JS.is_white c = false → ∃ t', JS.trimEnd (c :: t) = c :: t'.
Proof.
  intros Hc. unfold JS.trimEnd.
  destruct (trimStart_suffix (rev (c :: t))) as [k Hk].
  assert (JS.trimStart (rev (c :: t)) ≠ []) as Hne.
  { intros Hnil%trimStart_nil. unfold blank in Hnil. simpl in Hnil.
    rewrite Forall_app, Forall_singleton in Hnil. destruct Hnil; congruence. }
  apply (f_equal (@rev N)) in Hk. rewrite rev_involutive, rev_app_distr in Hk.
  destruct (rev (JS.trimStart (rev (c :: t)))) as [|c' t'] eqn:Hr.
  - apply (f_equal (@rev N)) in Hr. rewrite rev_involutive in Hr. done.
  - simpl in Hk. injection Hk as -> _. by exists t'.
Qed.

(** [trim] of a trimmed string changes nothing. *)
Lemma trim_idem (s : jsstring) : JS.trim (JS.trim s) = JS.trim s.
Proof.
  unfold JS.trim at 2 3.
  destruct (trimStart_cases s) as [->|(c & t & -> & Hc)]; [done|].
  destruct (trimEnd_head c t Hc) as [t' Ht]. rewrite Ht.
  unfold JS.trim. simpl. rewrite Hc. rewrite <- Ht.
  unfold JS.trimEnd. rewrite rev_involutive, trimStart_idem. done.
Qed.

(** The trimmed text occurs in the text. *)
Lemma trim_occurs (s : jsstring) : occurs (JS.trim s) s.
Proof.
  unfold JS.trim, JS.trimEnd.
  destruct (trimStart_suffix s) as [k1 H1].
  destruct (trimStart_suffix (rev (JS.trimStart s))) as [k2 H2].
  apply (f_equal (@rev N)) in H2. rewrite rev_involutive, rev_app_distr in H2.
  exists k1, (rev k2). by rewrite <- H2.
Qed.

Lemma drop_occurs (n : nat) (s : jsstring) : occurs (drop n s) s.
Proof. exists (take n s), []. by rewrite app_nil_r, take_drop. Qed.

End MoreStringFacts.

Section MoreSplitFacts.
Variable sep : jsstring.
Hypothesis sep_nonempty : sep ≠ [].

Lemma join_occurs (xs : list jsstring) (x : jsstring) :
  x ∈ xs → occurs x (JS.join xs sep).
Proof.
  induction xs as [|y xs IH]; [by intros ?%elem_of_nil|].
  intros Hx. destruct xs as [|z xs].
  - apply list_elem_of_singleton in Hx as ->. apply occurs_refl.
  - rewrite join_cons by done. apply elem_of_cons in Hx as [->|Hx].
    + by exists [], (sep ++ JS.join (z :: xs) sep).
    + destruct (IH Hx) as (pre & post & ->).
      exists (y ++ sep ++ pre), post. by rewrite <- !app_assoc.
Qed.

(** Every piece of a split occurs in the string. *)
Lemma split_occurs (s x : jsstring) : x ∈ JS.split s sep → occurs x s.
Proof using sep_nonempty.
  intros Hx. rewrite <- (join_split sep sep_nonempty s). by apply join_occurs.
Qed.

Lemma removelast_short : JS.includes (removelast sep) sep = false.
Proof using sep_nonempty.
  apply not_true_is_false. intros H%includes_length.
  assert (sep = removelast sep ++ [List.last sep 0]) as Hs by by apply app_removelast_last.
  rewrite Hs in H at 1. rewrite length_app in H. simpl in H. lia.
Qed.

(** The result of a split is a scan. *)
Lemma scanned_split (s : jsstring) : scanned sep (JS.split s sep).
Proof using sep_nonempty.
  remember (length s) as n eqn:Hn. revert s Hn.
  induction n as [n IH] using lt_wf_ind. intros s ->.
  destruct s as [|c s].
  { rewrite split_nil by done. simpl. by destruct sep. }
  destruct (JS.startsWith (c :: s) sep) eqn:Hs.
  - rewrite split_match by done.
    pose proof (split_nonempty sep sep_nonempty (drop (length sep) (c :: s))) as Hne.
    assert (scanned sep (JS.split (drop (length sep) (c :: s)) sep)) as Hrest.
    { eapply IH; [|reflexivity]. rewrite length_drop.
      destruct sep; [done | simpl; lia]. }
    destruct (JS.split (drop (length sep) (c :: s)) sep) as [|q qs]; [done|].
    split; [apply removelast_short | done].
  - rewrite split_nomatch by done.
    assert (scanned sep (JS.split s sep)) as Hrest
      by (eapply IH; [|reflexivity]; simpl; lia).
    pose proof (join_split sep sep_nonempty s) as Hjoin.
    destruct (JS.split s sep) as [|p [|q qs]] eqn:Hsp.
    + by apply split_nonempty in Hsp.
    + simpl in *. subst p. apply orb_false_iff. split; [done | exact Hrest].
    + cbn [JS.cons_head]. destruct Hrest as [Hp Hrest]. split; [|done].
      rewrite <- app_comm_cons. cbn [JS.includes]. apply orb_false_iff. split; [|done].
      rewrite (join_cons sep p (q :: qs)) in Hjoin by done.
      assert (sep = removelast sep ++ [List.last sep 0]) as Hsep
        by (by apply app_removelast_last).
      rewrite <- Hs, <- Hjoin. rewrite Hsep at 3. rewrite <- !app_assoc.
      change (c :: p ++ removelast sep ++ [List.last sep 0] ++ JS.join (q :: qs) sep)
        with ((c :: p) ++ removelast sep ++ ([List.last sep 0] ++ JS.join (q :: qs) sep)).
      rewrite (app_assoc (c :: p)). rewrite startsWith_app_long; [done|].
      rewrite Hsep at 1. rewrite !length_app. simpl. lia.
Qed.

(** Dropping pieces of a scan leaves a scan. *)
Lemma scanned_filter (f : jsstring → bool) (pieces : list jsstring) :
  scanned sep pieces → scanned sep (List.filter f pieces).
Proof.
  induction pieces as [|p pieces IH]; [done|].
  intros Hsc.
  assert (scanned sep pieces) as Hrest by (destruct pieces; [done | by destruct Hsc]).
  assert (JS.includes p sep = false) as Hp.
  { destruct pieces; [done|]. destruct Hsc as [Hp _]. by eapply includes_false_app_l. }
  specialize (IH Hrest). cbn [List.filter]. destruct (f p); [|done].
  destruct (List.filter f pieces) as [|q qs] eqn:Hf; [done|].
  split; [|done]. destruct pieces as [|p' pieces]; [done|]. by destruct Hsc.
Qed.

(** Joining a scan and splitting it again gives the same pieces. *)
Lemma split_join_scanned (pieces : list jsstring) :
  scanned sep pieces → pieces ≠ [] →
  JS.split (JS.join pieces sep) sep = pieces.
Proof using sep_nonempty.
  induction pieces as [|p pieces IH]; [done|]. intros Hsc _.
  destruct pieces as [|q qs].
  - by apply split_no_occurrence.
  - destruct Hsc as [Hp Hrest]. rewrite join_cons by done.
    rewrite split_piece by done. by rewrite IH.
Qed.

End MoreSplitFacts.

(** A piece of a split on a single code unit holds none of it. *)
Lemma split_single_free (c : N) (s x : jsstring) :
  x ∈ JS.split s [c] → c ∉ x.
Proof.
  assert ([c] ≠ []) as Hne by done.
  revert x. induction s as [|a s IH]; intros x.
  - rewrite split_nil by done. intros ->%list_elem_of_singleton. apply not_elem_of_nil.
  - destruct (JS.startsWith (a :: s) [c]) eqn:Hs.
    + rewrite split_match by done. cbn [length drop].
      intros [->|Hx]%elem_of_cons; [apply not_elem_of_nil | by apply IH].
    + rewrite split_nomatch by done.
      simpl in Hs. rewrite andb_true_r in Hs. apply N.eqb_neq in Hs.
      pose proof (split_nonempty [c] Hne s) as Hsp.
      destruct (JS.split s [c]) as [|p ps]; [done|]. cbn [JS.cons_head].
      intros [->|Hx]%elem_of_cons.
      * rewrite not_elem_of_cons. split; [done|]. apply IH, elem_of_cons. by left.
      * apply IH, elem_of_cons. by right.
Qed.

(* ===================================================================== *)
(** * Removal of blocks: what is written back                             *)
(* ===================================================================== *)

Section RemovalFacts.
Import Codec.

(** The blocks that stay. *)
Lemma withoutMatching_blocks (body memory_content : jsstring) :
  JS.split (withoutMatching body memory_content) delimiter
  = match List.filter (fun memory => negb (JS.includes memory memory_content))
            (JS.split body delimiter) with
    | [] => [[]]
    | kept => kept
    end.
Proof.
  unfold withoutMatching.
  pose proof (scanned_filter delimiter
                (fun memory => negb (JS.includes memory memory_content))
                _ (scanned_split delimiter delimiter_nonempty body)) as Hsc.
  destruct (List.filter _ (JS.split body delimiter)) as [|p ps] eqn:Hk; [done|].
  by apply split_join_scanned.
Qed.

Lemma filter_filter_comm {A} (f g : A → bool) (l : list A) :
  List.filter f (List.filter g l) = List.filter g (List.filter f l).
Proof.
  induction l as [|x l IH]; simpl; [done|].
  destruct (g x) eqn:Hg, (f x) eqn:Hf; simpl; rewrite ?Hg, ?Hf, ?IH; done.
Qed.

Lemma filter_idem {A} (f : A → bool) (l : list A) :
  List.filter f (List.filter f l) = List.filter f l.
Proof.
  induction l as [|x l IH]; simpl; [done|].
  destruct (f x) eqn:Hf; simpl; rewrite ?Hf, ?IH; done.
Qed.

Lemma join_single_nil (sep : jsstring) : JS.join [[]] sep = [].
Proof. done. Qed.

(** Two removals in a row write the join of the blocks that pass both
    filters. *)
Lemma withoutMatching_twice (body m1 m2 : jsstring) :
  withoutMatching (withoutMatching body m1) m2
  = JS.join (List.filter (fun memory => negb (JS.includes memory m2))
               (List.filter (fun memory => negb (JS.includes memory m1))
                  (JS.split body delimiter))) delimiter.
Proof.
  unfold withoutMatching at 1. rewrite withoutMatching_blocks.
  destruct (List.filter (fun memory => negb (JS.includes memory m1)) _) as [|p ps];
    [|done].
  simpl. by destruct (negb _).
Qed.

End RemovalFacts.

(** X1.  After the removal of a specific memory the body splits again into
    exactly the blocks that did not contain the text, unchanged and in
    their order (one empty block when none is left); so for a non-empty
    text no block of the rewritten body contains it. *)
Theorem X1_removed_blocks_are_gone (body memory_content : jsstring) :
  memory_content ≠ [] →
  let kept := List.filter (fun memory => negb (JS.includes memory memory_content))
                (JS.split body Codec.delimiter) in
  JS.split (Codec.withoutMatching body memory_content) Codec.delimiter
  = (if decide (kept = []) then [[]] else kept)
  ∧ Forall (fun block => JS.includes block memory_content = false)
      (JS.split (Codec.withoutMatching body memory_content) Codec.delimiter).
Proof.
  intros Hmc kept. rewrite withoutMatching_blocks. fold kept.
  assert (Forall (fun block => JS.includes block memory_content = false) kept) as Hkept.
  { apply Forall_forall. intros block Hb.
    apply list_elem_of_In, filter_In in Hb as [_ Hb]. by apply negb_true_iff in Hb. }
  destruct kept as [|p ps]; [|by rewrite decide_False].
  rewrite decide_True by done. split; [done|]. repeat constructor.
  destruct memory_content; [done|]. reflexivity.
Qed.

Lemma X1_witness :
  JS.split (Codec.withoutMatching
              (js "keep me" ++ Codec.delimiter ++ js "# t" ++ Codec.LF ++ js "drop me"
               ++ Codec.delimiter) (js "drop")) Codec.delimiter
  = [js "keep me"; []].
Proof.
  destruct (X1_removed_blocks_are_gone
              (js "keep me" ++ Codec.delimiter ++ js "# t" ++ Codec.LF ++ js "drop me"
               ++ Codec.delimiter) (js "drop")) as [Hsplit _]; [discriminate|].
  rewrite Hsplit. reflexivity.
Defined.

(** X2.  Removals compose as filters: removing the same text twice writes
    what removing it once writes, and two removals write the same body in
    either order. *)
Theorem X2_removals_are_idempotent_and_commute (body m1 m2 : jsstring) :
  Codec.withoutMatching (Codec.withoutMatching body m1) m1 = Codec.withoutMatching body m1
  ∧ Codec.withoutMatching (Codec.withoutMatching body m1) m2
    = Codec.withoutMatching (Codec.withoutMatching body m2) m1.
Proof.
  split.
  - rewrite withoutMatching_twice, filter_idem. done.
  - rewrite !withoutMatching_twice. by rewrite filter_filter_comm.
Qed.

(* ===================================================================== *)
(** * The decoded view: where its keys and lines come from                *)
(* ===================================================================== *)

Section ViewFacts.
Import Codec.

Lemma first_line_hash (entry firstLine : jsstring) (rest : list jsstring) :
  JS.split entry LF = firstLine :: rest →
  JS.startsWith firstLine (js "# ") = JS.startsWith entry (js "# ").
Proof.
  intros Hsp. rewrite <- (join_split LF LF_nonempty entry), Hsp.
  destruct rest as [|l rest]; [done|].
  rewrite (join_cons LF firstLine (l :: rest)) by done.
  destruct firstLine as [|a [|b t]]; simpl; [done | | done].
  by rewrite andb_false_r.
Qed.

(** The three ways a round of the loop goes. *)
Lemma groupEntry_cases (memories : JsObject (list jsstring)) (entry : jsstring) :
  (blank entry ∧ groupEntry memories entry = memories)
  ∨ (∃ firstLine rest,
       JS.split entry LF = firstLine :: rest
       ∧ JS.startsWith firstLine (js "# ") = true
       ∧ groupEntry memories entry
         = Obj.set (JS.trim (JS.substring firstLine 2)) (nonblank rest) memories)
  ∨ (¬ blank entry
     ∧ JS.startsWith entry (js "# ") = false
     ∧ ∀ k, Assoc.get k (groupEntry memories entry)
            = if decide (k = untaggedKey)
              then Some (default [] (Assoc.get untaggedKey memories)
                         ++ nonblank (JS.split entry LF))
              else Assoc.get k memories).
Proof.
  destruct (JS.truthy (JS.trim entry)) eqn:Htr.
  - assert (¬ blank entry) as Hnb by (rewrite <- trim_falsy; congruence).
    destruct (JS.startsWith entry (js "# ")) eqn:Hst.
    + right. left.
      destruct (JS.split entry LF) as [|firstLine rest] eqn:Hsp.
      { by apply (split_nonempty LF LF_nonempty) in Hsp. }
      exists firstLine, rest. split; [done|].
      assert (JS.startsWith firstLine (js "# ") = true) as Hf
        by (by rewrite (first_line_hash entry firstLine rest)).
      split; [done|]. by apply groupEntry_tagged.
    + right. right. split; [done|]. split; [done|].
      intros k. by apply get_groupEntry_untagged.
  - left. apply trim_falsy in Htr. split; [done|]. by apply groupEntry_blank.
Qed.

(** A property of the decoded view that every round keeps. *)
Lemma groupEntries_ind (body : jsstring) (P : JsObject (list jsstring) → Prop) :
  P [] →
  (∀ memories entry, entry ∈ JS.split body delimiter → P memories →
                     P (groupEntry memories entry)) →
  P (groupEntries body).
Proof.
  intros Hnil Hstep. unfold groupEntries.
  assert (∀ l m, (∀ e, e ∈ l → e ∈ JS.split body delimiter) → P m →
                 P (fold_left groupEntry l m)) as Hfold.
  { induction l as [|e l IH]; intros m Hl Hm; [done|]. simpl.
    apply IH.
    - intros e' He'. apply Hl, elem_of_cons. by right.
    - apply Hstep; [|done]. apply Hl, elem_of_cons. by left. }
  by apply Hfold.
Qed.

Lemma nonblank_elem (lines : list jsstring) (line : jsstring) :
  line ∈ nonblank lines ↔ line ∈ lines ∧ JS.truthy (JS.trim line) = true.
Proof. unfold nonblank. by rewrite !list_elem_of_In, filter_In. Qed.

(** Every line of the view is a non-blank line of one block of the body. *)
Lemma view_lines (body k : jsstring) (ls : list jsstring) (line : jsstring) :
  Assoc.get k (groupEntries body) = Some ls → line ∈ ls →
  JS.truthy (JS.trim line) = true
  ∧ ∃ entry, entry ∈ JS.split body delimiter ∧ line ∈ JS.split entry LF.
Proof.
  revert k ls line.
  apply (groupEntries_ind body
           (fun m => ∀ k ls line, Assoc.get k m = Some ls → line ∈ ls →
              JS.truthy (JS.trim line) = true
              ∧ ∃ entry, entry ∈ JS.split body delimiter ∧ line ∈ JS.split entry LF)).
  { done. }
  intros m entry Hentry IH k ls line.
  destruct (groupEntry_cases m entry)
    as [[_ ->]|[(firstLine & rest & Hsp & _ & ->)|(_ & _ & Hget)]].
  - apply IH.
  - rewrite get_set. case_decide; [apply IH|]. case_decide; [|apply IH].
    intros [= <-] [Hin Htr]%nonblank_elem. split; [done|].
    exists entry. split; [done|]. rewrite Hsp. apply elem_of_cons. by right.
  - rewrite Hget. case_decide; [|apply IH].
    intros [= <-] [Hin|Hin]%elem_of_app.
    + destruct (Assoc.get untaggedKey m) as [old|] eqn:Hold; [|by apply elem_of_nil in Hin].
      by apply (IH untaggedKey old).
    + apply nonblank_elem in Hin as [Hin Htr]. split; [done|]. by exists entry.
Qed.

(** Every key of the view but ["untagged"] is the trimmed text behind the
    ["# "] of the first line of one block. *)
Lemma view_keys (body k : jsstring) (ls : list jsstring) :
  Assoc.get k (groupEntries body) = Some ls →
  k = untaggedKey
  ∨ (k ≠ js "__proto__"
     ∧ ∃ entry firstLine rest,
         entry ∈ JS.split body delimiter
         ∧ JS.split entry LF = firstLine :: rest
         ∧ JS.startsWith firstLine (js "# ") = true
         ∧ k = JS.trim (JS.substring firstLine 2)).
Proof.
  revert k ls.
  apply (groupEntries_ind body
           (fun m => ∀ k ls, Assoc.get k m = Some ls →
              k = untaggedKey
              ∨ (k ≠ js "__proto__"
                 ∧ ∃ entry firstLine rest,
                     entry ∈ JS.split body delimiter
                     ∧ JS.split entry LF = firstLine :: rest
                     ∧ JS.startsWith firstLine (js "# ") = true
                     ∧ k = JS.trim (JS.substring firstLine 2)))).
  { done. }
  intros m entry Hentry IH k ls.
  destruct (groupEntry_cases m entry)
    as [[_ ->]|[(firstLine & rest & Hsp & Hst & ->)|(_ & _ & Hget)]].
  - apply IH.
  - rewrite get_set. case_decide as Hproto; [apply IH|]. case_decide as Hk; [|apply IH].
    intros _. right. subst k. split; [done|]. by exists entry, firstLine, rest.
  - rewrite Hget. case_decide; [by left | apply IH].
Qed.

(** The keys of the view are pairwise different. *)
Lemma put_NoDup {K V} `{EqDecision K} (o : list (K * V)) k v :
  NoDup o.*1 → NoDup (Assoc.put k v o).*1.
Proof.
  induction o as [|[k0 v0] o IH].
  - intros _. apply NoDup_singleton.
  - cbn [Assoc.put]. csimpl. rewrite NoDup_cons. intros [Hk0 Hnd].
    destruct (decide (k = k0)) as [->|Hne]; csimpl.
    + by apply NoDup_cons.
    + apply NoDup_cons. split; [|by apply IH].
      intros [->|Hin]%put_keys; done.
Qed.

Lemma alter_keys {K V} `{EqDecision K} (o : list (K * V)) k (f : V → V) :
  (Assoc.alter f k o).*1 = o.*1.
Proof.
  induction o as [|[k0 v0] o IH]; [done|].
  cbn [Assoc.alter]. destruct (decide (k = k0)); csimpl; by rewrite ?IH.
Qed.

Lemma set_NoDup {V} (o : JsObject V) k v : NoDup o.*1 → NoDup (Obj.set k v o).*1.
Proof. unfold Obj.set. case_decide; [done|]. apply put_NoDup. Qed.

Lemma groupEntry_NoDup (memories : JsObject (list jsstring)) (entry : jsstring) :
  NoDup memories.*1 → NoDup (groupEntry memories entry).*1.
Proof.
  intros Hnd. unfold groupEntry.
  destruct (negb _); [done|].
  destruct (JS.split entry LF) as [|firstLine rest]; [done|].
  destruct (JS.startsWith firstLine (js "# ")); [by apply set_NoDup|].
  rewrite alter_keys. destruct (Assoc.get untaggedKey memories); [done|].
  by apply set_NoDup.
Qed.

Lemma groupEntries_NoDup (body : jsstring) : NoDup (groupEntries body).*1.
Proof.
  apply (groupEntries_ind body (fun m => NoDup m.*1)).
  - apply NoDup_nil_2.
  - intros m entry _. apply groupEntry_NoDup.
Qed.

End ViewFacts.

Section FlattenFacts.
Context {V : Type}.

Lemma insert_sorted_perm (e : N * V) (l : list (N * V)) : Obj.insert_sorted e l ≡ₚ e :: l.
Proof.
  induction l as [|e' l IH]; simpl; [done|].
  destruct (e.1 <=? e'.1)%N; [done|]. rewrite IH. apply Permutation_swap.
Qed.

Lemma sort_perm (l : list (N * V)) : foldr Obj.insert_sorted [] l ≡ₚ l.
Proof.
  induction l as [|e l IH]; simpl; [done|]. by rewrite insert_sorted_perm, IH.
Qed.

(** [Object.values] lists every value once. *)
Lemma values_perm (o : JsObject V) : Obj.values o ≡ₚ o.*2.
Proof.
  unfold Obj.values. rewrite sort_perm.
  unfold Obj.index_props, Obj.named_props.
  induction o as [|[k v] o IH]; [done|].
  csimpl. destruct (JS.array_index k); csimpl.
  - by rewrite IH.
  - rewrite <- IH. by rewrite <- Permutation_middle.
Qed.

Lemma concat_perm {A} (l l' : list (list A)) : l ≡ₚ l' → concat l ≡ₚ concat l'.
Proof.
  induction 1 as [|x l l' _ IH|x y l|l l' l'' _ IH1 _ IH2]; simpl.
  - done.
  - by rewrite IH.
  - rewrite !app_assoc. f_equiv. apply Permutation_app_comm.
  - by etrans.
Qed.

Lemma elem_get_NoDup {K} `{EqDecision K} (o : list (K * V)) k v :
  NoDup o.*1 → (k, v) ∈ o ↔ Assoc.get k o = Some v.
Proof.
  intros Hnd. split; [|apply get_Some_elem].
  induction o as [|[k0 v0] o IH]; [by intros ?%elem_of_nil|].
  csimpl in Hnd. apply NoDup_cons in Hnd as [Hk0 Hnd].
  cbn [Assoc.get]. intros [[= -> ->]|Hin]%elem_of_cons.
  - by rewrite decide_True.
  - rewrite decide_False; [by apply IH|]. intros ->. apply Hk0.
    apply list_elem_of_fmap. by exists (k0, v).
Qed.

End FlattenFacts.

Lemma occurs_elem (t s : jsstring) (c : N) : occurs t s → c ∈ t → c ∈ s.
Proof. intros (pre & post & ->) Hc. rewrite !elem_of_app. auto. Qed.

(** X3.  Every line a retrieval lists is a line of the stored body: it is
    not blank, holds no newline and occurs in the body, whatever the body
    is.  The decoder makes no text up. *)
Theorem X3_view_lines_come_from_the_body
    (body k : jsstring) (ls : list jsstring) (line : jsstring) :
  Assoc.get k (Codec.groupEntries body) = Some ls →
  line ∈ ls →
  JS.truthy (JS.trim line) = true ∧ (10 ∉ line) ∧ occurs line body.
Proof.
  intros Hget Hin.
  destruct (view_lines body k ls line Hget Hin) as (Htr & entry & Hentry & Hline).
  split; [done|]. split.
  - by apply (split_single_free 10 entry).
  - eapply occurs_trans.
    + by apply (split_occurs Codec.LF LF_nonempty entry).
    + by apply (split_occurs Codec.delimiter delimiter_nonempty body).
Qed.

Lemma X3_witness :
  occurs (js "second line")
    (Codec.content (js "first line" ++ Codec.LF ++ js "second line") [js "t"]).
Proof.
  refine (proj2 (proj2 (X3_view_lines_come_from_the_body
                          (Codec.content (js "first line" ++ Codec.LF ++ js "second line")
                             [js "t"])
                          (js "t") [js "first line"; js "second line"]
                          (js "second line") _ _))).
  - reflexivity.
  - apply elem_of_cons. right. apply elem_of_cons. by left.
Defined.

(** X4.  The keys of a decoded view are pairwise different, and every key
    other than "untagged" is header text of the body in normal form: it
    occurs in the body, holds no newline, has no white space at either end
    (trimming it changes nothing) and is not "__proto__". *)
Theorem X4_view_keys_are_normalised_headers
    (body k : jsstring) (ls : list jsstring) :
  Assoc.get k (Codec.groupEntries body) = Some ls →
  NoDup (Codec.groupEntries body).*1
  ∧ (k = Codec.untaggedKey
     ∨ (JS.trim k = k ∧ k ≠ js "__proto__" ∧ (10 ∉ k) ∧ occurs k body)).
Proof.
  intros Hget. split; [apply groupEntries_NoDup|].
  destruct (view_keys body k ls Hget)
    as [->|(Hproto & entry & firstLine & rest & Hentry & Hsp & Hst & ->)]; [by left|].
  right. split; [apply trim_idem|]. split; [done|].
  assert (firstLine ∈ JS.split entry Codec.LF) as Hfirst
    by (rewrite Hsp; apply elem_of_cons; by left).
  assert (occurs (JS.trim (JS.substring firstLine 2)) firstLine) as Hocc.
  { eapply occurs_trans; [apply trim_occurs | apply drop_occurs]. }
  split.
  - intros Hc. apply (split_single_free 10 entry firstLine Hfirst).
    by eapply occurs_elem.
  - eapply occurs_trans; [exact Hocc|]. eapply occurs_trans.
    + by apply (split_occurs Codec.LF LF_nonempty entry).
    + by apply (split_occurs Codec.delimiter delimiter_nonempty body).
Qed.

Lemma X4_witness :
  JS.trim (js "ui theme") = js "ui theme".
Proof.
  destruct (X4_view_keys_are_normalised_headers
              (js "#   ui theme  " ++ Codec.LF ++ js "dark mode" ++ Codec.delimiter)
              (js "ui theme") [js "dark mode"]) as [_ [Hk|(Htrim & _)]].
  - reflexivity.
  - discriminate Hk.
  - exact Htrim.
Defined.

(** X5.  The flattening of the wildcard retrieval,
    [Object.values(categoryMemories).flat()], loses no line and adds none:
    the list is a rearrangement of the groups' lines taken together, and a
    line is in it exactly when it is in some group of the category. *)
Theorem X5_flattening_keeps_the_lines (body : jsstring) :
  flattened (Codec.groupEntries body) ≡ₚ concat (Codec.groupEntries body).*2
  ∧ ∀ line, line ∈ flattened (Codec.groupEntries body)
            ↔ ∃ k ls, Assoc.get k (Codec.groupEntries body) = Some ls ∧ line ∈ ls.
Proof.
  assert (flattened (Codec.groupEntries body) ≡ₚ concat (Codec.groupEntries body).*2)
    as Hperm by (unfold flattened; apply concat_perm, values_perm).
  split; [done|]. intros line. rewrite Hperm.
  rewrite list_elem_of_In, in_concat. split.
  - intros (ls & Hls & Hline). apply list_elem_of_In, list_elem_of_fmap in Hls
      as ([k ls'] & -> & Hin).
    exists k, ls'. split; [|by apply list_elem_of_In].
    by apply elem_get_NoDup; [apply groupEntries_NoDup|].
  - intros (k & ls & Hget & Hline). exists ls. split; [|by apply list_elem_of_In].
    apply list_elem_of_In, list_elem_of_fmap. exists (k, ls). split; [done|].
    by apply get_Some_elem.
Qed.

(* ===================================================================== *)
(** * Sequences of stores                                                 *)
(* ===================================================================== *)

Section Sequences.
Import Codec.

Lemma alter_put {K V} `{EqDecision K} (o : list (K * V)) k v (f : V → V) :
  Assoc.alter f k (Assoc.put k v o) = Assoc.put k (f v) o.
Proof.
  induction o as [|[k0 v0] o IH]; simpl.
  - by rewrite decide_True.
  - destruct (decide (k = k0)) as [->|Hne]; simpl.
    + by rewrite decide_True.
    + by rewrite decide_False, IH.
Qed.

Lemma alter_present {K V} `{EqDecision K} (o : list (K * V)) k v (f : V → V) :
  Assoc.get k o = Some v → Assoc.alter f k o = Assoc.put k (f v) o.
Proof.
  induction o as [|[k0 v0] o IH]; simpl; [done|].
  destruct (decide (k = k0)) as [->|Hne].
  - by intros [= ->].
  - intros Hg. by rewrite IH.
Qed.

(** One plain store, decoded: the view of the body before, with the entry
    filed. *)
Lemma groupEntries_store_filed (old data : jsstring) (tags : list jsstring) :
  complete old → plain_entry data tags →
  groupEntries (old ++ content data tags) = filed (groupEntries old) (data, tags)
  ∧ complete (old ++ content data tags).
Proof.
  intros Hold [Hdata Htags]. unfold filed. cbn [fst snd]. destruct tags as [|t ts].
  - destruct Htags as [Htr Hst].
    destruct (groupEntries_store_untagged old data Hold Hdata) as [-> Hc].
    split; [|done].
    assert (¬ blank data) as Hnb by (rewrite <- trim_falsy; congruence).
    rewrite groupEntry_untagged by done. fold (kept_lines data).
    destruct (Assoc.get untaggedKey (groupEntries old)) as [arr|] eqn:Hg.
    + by rewrite (alter_present _ _ arr).
    + unfold Obj.set. rewrite decide_False by done. by rewrite alter_put.
  - destruct Htags as [Htags Hst].
    destruct (groupEntries_store_tagged old data (t :: ts)) as [-> Hc]; [done..|].
    split; [|done]. unfold Obj.set.
    destruct Htags as (_ & _ & Hproto). by rewrite decide_False.
Qed.

Lemma groupEntries_stored (old : jsstring) (entries : list (jsstring * list jsstring)) :
  complete old →
  Forall (fun entry => plain_entry entry.1 entry.2) entries →
  groupEntries (old ++ stored entries) = fold_left filed entries (groupEntries old)
  ∧ complete (old ++ stored entries).
Proof.
  intros Hold Hall. revert old Hold.
  induction Hall as [|[data tags] entries He _ IH]; intros old Hold.
  - unfold stored. simpl. by rewrite app_nil_r.
  - cbn [fst snd] in He.
    destruct (groupEntries_store_filed old data tags Hold He) as [Hone Hc].
    unfold stored in *. cbn [map concat fst snd fold_left].
    rewrite app_assoc. destruct (IH _ Hc) as [-> Hc']. by rewrite Hone.
Qed.

End Sequences.

Section ServerSequences.
Variable env : Env.

(** The retrieval of a category whose path holds a file or nothing. *)
Lemma retrieve_memories_writable fs category is_global :
  category ≠ js "*" →
  writable fs (Server.memoryFilePath env category is_global) = true →
  Server.retrieve_memories env category is_global fs
  = (Returned {| text := JSON_stringify
                   (Codec.groupEntries
                      (body_at fs (Server.memoryFilePath env category is_global)));
                 isError := false |}, fs).
Proof.
  intros Hc Hw. unfold Server.retrieve_memories, Server.guarded, Server.retrieve_memories_try.
  rewrite decide_False by done. run_m. rewrite retrieveCategory_tree.
  unfold writable, body_at in *. apply andb_true_iff in Hw as [_ Hw].
  by destruct (Tree.lookup_node fs _) as [[content|]|].
Qed.

Lemma run_remember_all fs category entries is_global :
  let p := Server.memoryFilePath env category is_global in
  writable fs p = true →
  Forall (fun entry => well_formed_entry entry.1 entry.2) entries →
  let result := run env (remember_all category entries is_global) fs in
  Forall (fun a => a.2 = Returned (Server.okResult
                           (js "Successfully stored memory in category: " ++ category)))
    result.1
  ∧ writable result.2 p = true
  ∧ body_at result.2 p = body_at fs p ++ stored entries.
Proof.
  intros p Hw Hwf. revert fs Hw.
  induction Hwf as [|[data tags] entries Hentry _ IH]; intros fs Hw.
  - simpl. unfold stored. simpl. by rewrite app_nil_r.
  - cbn [remember_all map run handle fst snd].
    rewrite (remember_memory_tree env fs category data tags is_global Hw Hentry). fold p.
    pose proof (writable_nonroot _ _ Hw) as Hp.
    pose proof (writable_kept _ _ Hw) as Hk.
    specialize (IH (Assoc.put p (File (body_at fs p ++ Codec.content data tags)) fs)
                  (writable_put _ _ _ Hp Hk)).
    fold (remember_all category entries is_global).
    destruct (run env (remember_all category entries is_global) _) as [as' fs'].
    cbn [fst snd] in *. destruct IH as (Hall & Hw' & Hbody).
    split; [by constructor|]. split; [done|].
    rewrite Hbody, body_at_put by done. unfold stored. cbn [map concat fst snd].
    by rewrite <- app_assoc.
Qed.

End ServerSequences.

(** X6.  Encoding and decoding a whole body: when plain entries are
    appended, one after the other, to a body that ends on a closed entry,
    the decoded view is the view of the old body with the entries filed in
    their order: each tagged entry sets the group of its joined tags to its
    kept lines, each untagged entry adds its kept lines at the end of
    "untagged"; the body again ends on a closed entry. *)
Theorem X6_decoding_appended_entries
    (old : jsstring) (entries : list (jsstring * list jsstring)) :
  complete old →
  Forall (fun entry => plain_entry entry.1 entry.2) entries →
  Codec.groupEntries (old ++ stored entries)
  = fold_left filed entries (Codec.groupEntries old)
  ∧ complete (old ++ stored entries).
Proof. apply groupEntries_stored. Qed.

Lemma X6_witness :
  Codec.groupEntries
    (stored [(js "a", []); (js "b", [js "t"]); (js "c", []); (js "d", [js "t"])])
  = [(js "untagged", [js "a"; js "c"]); (js "t", [js "d"])].
Proof.
  refine (eq_trans
            (proj1 (X6_decoding_appended_entries []
                      [(js "a", []); (js "b", [js "t"]); (js "c", []); (js "d", [js "t"])]
                      _ _)) _).
  - reflexivity.
  - repeat constructor; discriminate.
  - reflexivity.
Defined.

(** X7.  A run of stores into one category of the file backed server: for
    a category other than the wildcard whose file can be written (its path
    is kept as given, and a file is there, or nothing is, the path is
    accepted and its directory is there) and whose body ends on a closed
    entry,
    storing plain entries without lone surrogate one after the other
    succeeds every time, leaves the text of the file followed by the
    entries' texts in order, and the retrieval that follows answers the old
    view with the entries filed in that order. *)
Theorem X7_stores_in_sequence_then_retrieve
    (env : Env) (fs : FileSystem) (category : jsstring)
    (entries : list (jsstring * list jsstring)) (is_global : bool) :
  let p := Server.memoryFilePath env category is_global in
  let result := run env (remember_all category entries is_global) fs in
  category ≠ js "*" →
  writable fs p = true →
  complete (body_at fs p) →
  Forall (fun entry => well_formed_entry entry.1 entry.2) entries →
  Forall (fun entry => plain_entry entry.1 entry.2) entries →
  Forall (fun a => a.2 = Returned (Server.okResult
                           (js "Successfully stored memory in category: " ++ category)))
    result.1
  ∧ body_at result.2 p = body_at fs p ++ stored entries
  ∧ answers (Server.retrieve_memories env category is_global result.2)
      (fold_left filed entries (Codec.groupEntries (body_at fs p))).
Proof.
  intros p result Hc Hw Hold Hwf Hentries.
  destruct (run_remember_all env fs category entries is_global Hw Hwf)
    as (Hall & Hw' & Hbody).
  fold p in Hw', Hbody. fold result in Hall, Hw', Hbody.
  split; [done|]. split; [done|]. unfold answers.
  rewrite retrieve_memories_writable by done. fold p. rewrite Hbody.
  by destruct (groupEntries_stored (body_at fs p) entries Hold Hentries) as [-> _].
Qed.

Lemma X7_witness :
  let env := {| cwd := [js "w"]; homedir := [js "h"] |} in
  let calls := remember_all (js "x")
                 [(js "a", []); (js "b", [js "t"]); (js "c", [])] false in
  (Server.retrieve_memories env (js "x") false (run env calls (Tree.startup env [])).2).1
  = Returned {| text := JSON_stringify [(js "untagged", [js "a"; js "c"]); (js "t", [js "b"])];
                isError := false |}.
Proof.
  intros env calls.
  destruct (X7_stores_in_sequence_then_retrieve env (Tree.startup env []) (js "x")
              [(js "a", []); (js "b", [js "t"]); (js "c", [])] false)
    as (_ & _ & Hret).
  - discriminate.
  - reflexivity.
  - reflexivity.
  - repeat constructor.
  - repeat constructor; discriminate.
  - unfold calls. rewrite Hret. reflexivity.
Defined.

(* ===================================================================== *)
(** * Paths of category files                                             *)
(* ===================================================================== *)

Section PathFacts.

(** Text without the separator, added at the end, stays in the last
    piece. *)
Lemma split_single_app_tail (c : N) (a b : jsstring) :
  c ∉ b →
  ∃ init l, JS.split a [c] = init ++ [l] ∧ JS.split (a ++ b) [c] = init ++ [l ++ b].
Proof.
  intros Hb. assert ([c] ≠ []) as Hne by done.
  induction a as [|x a (init & l & Ha & Hab)].
  - exists [], []. split; [by rewrite split_nil|].
    rewrite app_nil_l, app_nil_l. apply split_no_occurrence; [done|].
    by apply includes_single.
  - destruct (JS.startsWith (x :: a) [c]) eqn:Hs.
    + exists ([] :: init), l.
      rewrite (split_match [c] Hne (x :: a)) by done.
      rewrite (split_match [c] Hne ((x :: a) ++ b)) by (by apply startsWith_true_app).
      change (drop (length [c]) (x :: a)) with a.
      change (drop (length [c]) ((x :: a) ++ b)) with (a ++ b).
      by rewrite Ha, Hab.
    + rewrite (split_nomatch [c] Hne x a) by done.
      change ((x :: a) ++ b) with (x :: (a ++ b)).
      rewrite (split_nomatch [c] Hne x (a ++ b)).
      * rewrite Ha, Hab. destruct init as [|p init].
        -- by exists [], (x :: l).
        -- by exists ((x :: p) :: init), l.
      * change (x :: a ++ b) with ((x :: a) ++ b).
        apply startsWith_false_app; [done | simpl; lia].
Qed.

(** The path of a category file always ends in a name with the extension,
    wherever the category makes it climb. *)
Lemma memoryFilePath_name (env : Env) (category : jsstring) (is_global : bool) :
  ∃ dir name,
    Server.memoryFilePath env category is_global = dir ++ [name]
    ∧ JS.endsWith name (js ".txt") = true.
Proof.
  unfold Server.memoryFilePath, Path.join. change (js "/") with [47].
  destruct (split_single_app_tail 47 category (js ".txt")) as (init & l & _ & ->).
  { change (js ".txt") with [46; 116; 120; 116]. rewrite !elem_of_cons.
    intros [H|[H|[H|[H|H%elem_of_nil]]]]; done. }
  rewrite fold_left_app. cbn [fold_left].
  exists (fold_left Path.step init (Server.baseDir env is_global)), (l ++ js ".txt").
  split.
  - unfold Path.step at 1. destruct (txt_name l) as (H0 & H1 & H2).
    by rewrite !decide_False.
  - apply endsWith_suffix. by exists l.
Qed.

Lemma memoryFilePath_nonroot (env : Env) (category : jsstring) (is_global : bool) :
  Server.memoryFilePath env category is_global ≠ [].
Proof.
  destruct (memoryFilePath_name env category is_global) as (dir & name & -> & _).
  by intros [_ ?]%app_eq_nil.
Qed.

End PathFacts.

(** X8.  The file a call works on always has a name that ends in ".txt":
    for every category, also one that climbs out of the scope's directory
    with "..", the path is some directory followed by a name with that
    extension (so it is never the root); for a category without path
    separator it is the scope's directory followed by the category and the
    extension. *)
Theorem X8_category_files_end_in_txt
    (env : Env) (category : jsstring) (is_global : bool) :
  (∃ dir name,
     Server.memoryFilePath env category is_global = dir ++ [name]
     ∧ JS.endsWith name (js ".txt") = true)
  ∧ (JS.includes category (js "/") = false →
     Server.memoryFilePath env category is_global
     = Server.baseDir env is_global ++ [category ++ js ".txt"]).
Proof.
  split; [apply memoryFilePath_name|]. intros Hc. by apply memoryFilePath_plain.
Qed.

Lemma X8_witness :
  let env := {| cwd := [js "w"]; homedir := [js "h"] |} in
  Server.memoryFilePath env (js "work notes") true
  = [js "h"; js ".config"; js "goose"; js "memory"; js "work notes.txt"].
Proof.
  intros env.
  refine (eq_trans (proj2 (X8_category_files_end_in_txt env (js "work notes") true) _) _);
    reflexivity.
Defined.

(* ===================================================================== *)
(** * Retrieval and removal on the tree, composed                         *)
(* ===================================================================== *)

Section Composed.
Variable env : Env.
Implicit Types (fs : FileSystem).

(** A retrieval writes nothing. *)
Lemma retrieve_memories_state fs category is_global :
  (Server.retrieve_memories env category is_global fs).2 = fs.
Proof.
  unfold Server.retrieve_memories, Server.guarded, Server.retrieve_memories_try.
  case_decide.
  - run_m. on_tree.
    destruct (Tree.lookup_node fs (Server.baseDir env is_global)) as [[?|]|] eqn:Hl.
    + rewrite !bool_decide_eq_true_2 by (by eexists). by rewrite Hl.
    + rewrite !bool_decide_eq_true_2 by (by eexists). rewrite Hl.
      pose proof (forOf_collectFile_state env fs is_global
                    (omap (fun kv : path * node =>
                             Tree.entry_of (Server.baseDir env is_global) kv.1) fs) [])
        as Hs.
      destruct (forOf _ _ _ fs) as [[m|e] fs']; simpl in Hs; subst; done.
    + rewrite !bool_decide_eq_false_2 by (by intros [? ?]). done.
  - run_m. pose proof (retrieveCategory_state env fs category is_global) as Hs.
    destruct (Server.retrieveCategory env category is_global fs) as [[m|e] fs'];
      simpl in Hs; subst; done.
Qed.



Lemma lookup_node_restrict fs (keep : path → bool) q :
  q ≠ [] →
  Tree.lookup_node (Assoc.restrict keep fs) q
  = if keep q then Tree.lookup_node fs q else None.
Proof.
  intros Hq. unfold Tree.lookup_node. destruct q as [|c q]; [done|]. apply get_restrict.
Qed.


(** The blocks of a rewritten body do not contain the removed text. *)
Lemma withoutMatching_free (body memory_content block : jsstring) :
  memory_content ≠ [] →
  block ∈ JS.split (Codec.withoutMatching body memory_content) Codec.delimiter →
  JS.includes block memory_content = false.
Proof.
  intros Hmc. rewrite withoutMatching_blocks.
  destruct (List.filter _ (JS.split body Codec.delimiter)) as [|p ps] eqn:Hk.
  - intros ->%list_elem_of_singleton. by destruct memory_content.
  - rewrite <- Hk. intros Hb. apply list_elem_of_In, filter_In in Hb as [_ Hb].
    by apply negb_true_iff in Hb.
Qed.

(** What is decoded from a rewritten body holds the removed text nowhere:
    not in a line, and not in a key read from a header. *)
Lemma view_without (body memory_content k : jsstring) (ls : list jsstring) :
  memory_content ≠ [] →
  Assoc.get k (Codec.groupEntries (Codec.withoutMatching body memory_content)) = Some ls →
  (k = Codec.untaggedKey ∨ JS.includes k memory_content = false)
  ∧ ∀ line, line ∈ ls → JS.includes line memory_content = false.
Proof.
  intros Hmc Hget.
  assert (∀ entry t, entry ∈ JS.split (Codec.withoutMatching body memory_content)
                               Codec.delimiter →
                     occurs t entry → JS.includes t memory_content = false) as Hfree.
  { intros entry t Hentry Ht. apply not_true_is_false. intros Hin%occurs_includes.
    pose proof (withoutMatching_free body memory_content entry Hmc Hentry) as Hno.
    apply not_true_iff_false in Hno. apply Hno, occurs_includes.
    by eapply occurs_trans. }
  split.
  - destruct (view_keys _ k ls Hget)
      as [->|(_ & entry & firstLine & rest & Hentry & Hsp & _ & ->)]; [by left|].
    right. apply (Hfree entry); [done|].
    eapply occurs_trans; [apply trim_occurs|].
    eapply occurs_trans; [apply drop_occurs|].
    apply (split_occurs Codec.LF LF_nonempty). rewrite Hsp. apply elem_of_cons. by left.
  - intros line Hline.
    destruct (view_lines _ k ls line Hget Hline) as (_ & entry & Hentry & Hin).
    apply (Hfree entry); [done|]. by apply (split_occurs Codec.LF LF_nonempty).
Qed.

End Composed.

(** X9.  A retrieval writes to no file or directory other than the log
    file: whatever the category (also the wildcard), the scope and the
    tree, and whether it answers a mapping or a failure, every path other
    than the log file holds after the call what it held before. *)
Theorem X9_retrieval_writes_nothing
    (env : Env) (fs : FileSystem) (category : jsstring) (is_global : bool) (q : path) :
  q ≠ Server.logFile env →
  Tree.lookup_node (Server.retrieve_memories env category is_global fs).2 q
  = Tree.lookup_node fs q.
Proof. intros _. by rewrite retrieve_memories_state. Qed.

Lemma X9_witness :
  let env := {| cwd := [js "w"]; homedir := [js "h"] |} in
  let fs := (run env [(Remember (js "x") (js "call Ann") [], false)]
               (Tree.startup env [])).2 in
  Tree.lookup_node (Server.retrieve_memories env (js "*") false fs).2
    (resource env (js "x") false)
  = Some (File (js "call Ann" ++ Codec.delimiter)).
Proof.
  intros env fs.
  refine (eq_trans (X9_retrieval_writes_nothing env fs (js "*") false
                      (resource env (js "x") false) _) _).
  - discriminate.
  - reflexivity.
Defined.

(** X10.  After the removal of a specific memory from a category that has
    a file, no line the retrieval of the category lists contains the
    removed text, and no group key other than "untagged" does (for a
    non-empty text and a category other than the wildcard). *)
Theorem X10_removed_text_is_not_retrieved
    (env : Env) (fs : FileSystem) (category memory_content : jsstring)
    (is_global : bool) (body : jsstring) :
  let fs' := (Server.remove_specific_memory env category memory_content is_global fs).2 in
  category ≠ js "*" →
  memory_content ≠ [] →
  Tree.lookup_node fs (Server.memoryFilePath env category is_global) = Some (File body) →
  ∃ memories,
    Server.retrieve_memories env category is_global fs'
    = (Returned {| text := JSON_stringify memories; isError := false |}, fs')
    ∧ ∀ k ls, Assoc.get k memories = Some ls →
        (k = Codec.untaggedKey ∨ JS.includes k memory_content = false)
        ∧ ∀ line, line ∈ ls → JS.includes line memory_content = false.
Proof.
  intros fs' Hc Hmc Hl. unfold fs'.
  rewrite (remove_specific_memory_file env fs category memory_content is_global body Hl).
  cbn [snd].
  assert (Server.memoryFilePath env category is_global ≠ []) as Hp
    by apply memoryFilePath_nonroot.
  eexists. split.
  - apply retrieve_memories_file; [done|].
    rewrite lookup_node_put. by rewrite decide_False, decide_True.
  - intros k ls. by apply view_without.
Qed.

Lemma X10_witness :
  let env := {| cwd := [js "w"]; homedir := [js "h"] |} in
  let fs := (run env (remember_all (js "x")
                        [(js "call Ann", [js "todo"]); (js "call Bob", [])] false)
               (Tree.startup env [])).2 in
  let fs' := (Server.remove_specific_memory env (js "x") (js "Ann") false fs).2 in
  ∃ memories,
    Server.retrieve_memories env (js "x") false fs'
    = (Returned {| text := JSON_stringify memories; isError := false |}, fs')
    ∧ ∀ k ls, Assoc.get k memories = Some ls →
        (k = Codec.untaggedKey ∨ JS.includes k (js "Ann") = false)
        ∧ ∀ line, line ∈ ls → JS.includes line (js "Ann") = false.
Proof.
  intros env fs fs'.
  apply (X10_removed_text_is_not_retrieved env fs (js "x") (js "Ann") false
           (Codec.content (js "call Ann") [js "todo"] ++ Codec.content (js "call Bob") [])).
  - discriminate.
  - discriminate.
  - reflexivity.
Defined.

(* ===================================================================== *)
(** * Removal of categories                                               *)
(* ===================================================================== *)

Section CategoryRemoval.
Variable env : Env.
Implicit Types (fs : FileSystem).

Lemma retrieve_memories_absent fs category is_global :
  category ≠ js "*" →
  Tree.lookup_node fs (Server.memoryFilePath env category is_global) = None →
  Server.retrieve_memories env category is_global fs
  = (Returned {| text := JSON_stringify []; isError := false |}, fs).
Proof.
  intros Hc Hl. unfold Server.retrieve_memories, Server.guarded, Server.retrieve_memories_try.
  rewrite decide_False by done. run_m. by rewrite retrieveCategory_tree, Hl.
Qed.

(** The wildcard removal on a scope whose directory exists. *)
Lemma remove_wildcard_tree fs is_global :
  Tree.lookup_node fs (Server.baseDir env is_global) = Some Dir →
  Server.remove_memory_category env (js "*") is_global fs
  = (Returned (Server.okResult
                 (js "Cleared all " ++ (if is_global then js "global" else js "local")
                    ++ js " memory categories")),
     Assoc.restrict (fun q => negb (Tree.below (Server.baseDir env is_global) q)) fs).
Proof.
  intros Hl.
  unfold Server.remove_memory_category, Server.guarded, Server.remove_memory_category_try.
  rewrite decide_True by done. run_m. on_tree.
  rewrite bool_decide_eq_true_2 by (by eexists). by rewrite Hl.
Qed.

Lemma below_self d : Tree.below d d = false.
Proof.
  unfold Tree.below. rewrite bool_decide_eq_true_2 by done. apply andb_false_r.
Qed.

Lemma below_child d name : Tree.below d (d ++ [name]) = true.
Proof.
  unfold Tree.below. rewrite within_child. cbn [andb]. apply negb_true_iff.
  apply bool_decide_eq_false_2. intros H. apply (f_equal length) in H.
  rewrite length_app in H. simpl in H. lia.
Qed.

Lemma below_within d q : Tree.within d q = false → Tree.below d q = false.
Proof. unfold Tree.below. by intros ->. Qed.

(** An emptied directory lists nothing. *)
Lemma listing_emptied fs d :
  omap (fun kv : path * node => Tree.entry_of d kv.1)
    (Assoc.restrict (fun q => negb (Tree.below d q)) fs) = [].
Proof.
  unfold Assoc.restrict. induction fs as [|[p n] fs IH]; [done|].
  cbn [List.filter fst]. destruct (Tree.below d p) eqn:Hb; cbn [negb]; [done|].
  csimpl. rewrite IH. destruct (Tree.entry_of d p) as [name|] eqn:He; [|done].
  apply entry_of_Some in He as ->. by rewrite below_child in Hb.
Qed.

End CategoryRemoval.



(** X12.  The removal with the wildcard on a scope whose directory exists
    answers success and empties the scope: the directory stays, the
    wildcard retrieval and the retrieval of every category without path
    separator answer the empty mapping, every such category whose file
    path the file system takes as it is given and accepts can be stored
    to again, and no file or directory outside the scope's directory, the
    log file apart, changes. *)
Theorem X12_wildcard_removal_empties_the_scope
    (env : Env) (fs : FileSystem) (is_global : bool) :
  let fs' := (Server.remove_memory_category env (js "*") is_global fs).2 in
  Tree.lookup_node fs (Server.baseDir env is_global) = Some Dir →
  (Server.remove_memory_category env (js "*") is_global fs).1
  = Returned (Server.okResult
                (js "Cleared all " ++ (if is_global then js "global" else js "local")
                   ++ js " memory categories"))
  ∧ Tree.lookup_node fs' (Server.baseDir env is_global) = Some Dir
  ∧ answers (Server.retrieve_memories env (js "*") is_global fs') []
  ∧ (∀ category,
       category ≠ js "*" → JS.includes category (js "/") = false →
       answers (Server.retrieve_memories env category is_global fs') []
       ∧ ∀ data tags,
           nameable env category is_global →
           (Server.remember_memory env category data tags is_global fs').1
           = Returned (Server.okResult
                         (js "Successfully stored memory in category: " ++ category)))
  ∧ (∀ q, Tree.within (Server.baseDir env is_global) q = false →
          q ≠ Server.logFile env →
          Tree.lookup_node fs' q = Tree.lookup_node fs q).
Proof.
  intros fs' Hd. unfold fs'. rewrite (remove_wildcard_tree env fs is_global Hd).
  cbn [fst snd]. set (d := Server.baseDir env is_global) in *.
  assert (d ≠ []) as Hdn by apply baseDir_nonroot.
  assert (Tree.lookup_node (Assoc.restrict (fun q => negb (Tree.below d q)) fs) d = Some Dir)
    as Hd'.
  { rewrite lookup_node_restrict by done. by rewrite below_self. }
  split; [done|]. split; [done|]. split; [|split].
  - unfold answers. rewrite retrieve_wildcard_tree.
    + fold d. by rewrite Hd', listing_emptied.
    + unfold listable. fold d. by rewrite Hd', listing_emptied.
  - intros category Hc Hplain.
    assert (Tree.lookup_node (Assoc.restrict (fun q => negb (Tree.below d q)) fs)
              (Server.memoryFilePath env category is_global) = None) as Hl.
    { rewrite lookup_node_restrict by apply memoryFilePath_nonroot.
      rewrite memoryFilePath_plain by done. unfold resource. fold d.
      by rewrite below_child. }
    split; [unfold answers; by rewrite retrieve_memories_absent|].
    intros data tags [Hk Ha]. rewrite remember_memory_encoded; [done|].
    unfold writable. rewrite Hk, Hl, Ha. rewrite memoryFilePath_plain by done.
    unfold resource. fold d. by rewrite removelast_last, Hd'.
  - intros q Hq _. destruct q as [|c q]; [done|].
    rewrite lookup_node_restrict by done. by rewrite below_within.
Qed.

Lemma X12_witness :
  let env := {| cwd := [js "w"]; homedir := [js "h"] |} in
  let fs := (run env [(Remember (js "x") (js "call Ann") [], true);
                      (Remember (js "y") (js "call Bob") [js "todo"], true)]
               (Tree.startup env [])).2 in
  let fs' := (Server.remove_memory_category env (js "*") true fs).2 in
  answers (Server.retrieve_memories env (js "*") true fs') [].
Proof.
  intros env fs fs'.
  refine (proj1 (proj2 (proj2 (X12_wildcard_removal_empties_the_scope env fs true _)))).
  reflexivity.
Defined.

(* ===================================================================== *)
(** * Start-up                                                            *)
(* ===================================================================== *)

Section BootFacts.





End BootFacts.



(* ===================================================================== *)
(** * The manager's loops over the storage keys                           *)
(* ===================================================================== *)

Section RestrictMore.
Context {K V : Type} `{EqDecision K}.
Implicit Types (o : list (K * V)) (keep : K → bool).

Lemma restrict_ext o keep keep' :
  (∀ k, k ∈ o.*1 → keep k = keep' k) → Assoc.restrict keep o = Assoc.restrict keep' o.
Proof.
  unfold Assoc.restrict. induction o as [|[k0 v0] o IH]; [done|].
  intros Hk. cbn [List.filter fst].
  rewrite (Hk k0) by (apply elem_of_cons; by left).
  rewrite IH; [done|]. intros k Hin. apply Hk. apply elem_of_cons. by right.
Qed.

Lemma restrict_restrict o keep keep' :
  Assoc.restrict keep (Assoc.restrict keep' o)
  = Assoc.restrict (fun k => keep' k && keep k) o.
Proof.
  unfold Assoc.restrict. induction o as [|[k0 v0] o IH]; [done|].
  cbn [List.filter fst]. destruct (keep' k0) eqn:H1; cbn [andb List.filter fst].
  - destruct (keep k0); by rewrite IH.
  - done.
Qed.

Lemma restrict_fmap_fst o keep :
  (Assoc.restrict keep o).*1 = List.filter keep o.*1.
Proof.
  unfold Assoc.restrict. induction o as [|[k0 v0] o IH]; [done|].
  cbn [List.filter fst fmap list_fmap]. destruct (keep k0); csimpl; by rewrite IH.
Qed.

End RestrictMore.

(** A fold that skips the elements failing [keep] is the fold over the
    elements that pass it. *)
Lemma fold_left_skip {A B} (f : B → A → B) (keep : A → bool) (l : list A) (b : B) :
  (∀ b a, keep a = false → f b a = b) →
  fold_left f (List.filter keep l) b = fold_left f l b.
Proof.
  intros Hskip. revert b. induction l as [|a l IH]; intros b; [done|].
  cbn [List.filter fold_left]. destruct (keep a) eqn:Ha; cbn [fold_left].
  - apply IH.
  - by rewrite IH, Hskip.
Qed.

Lemma fold_left_ext_in {A B} (f g : B → A → B) (l : list A) (b : B) :
  (∀ b a, a ∈ l → f b a = g b a) → fold_left f l b = fold_left g l b.
Proof.
  revert b. induction l as [|a l IH]; intros b Hfg; [done|].
  cbn [fold_left]. rewrite Hfg by (apply elem_of_cons; by left).
  apply IH. intros b' a' Hin. apply Hfg. apply elem_of_cons. by right.
Qed.

Section ManagerLoops.
Variable this : MemoryManager.
Implicit Types (ls : LocalStorage).

(** A loop over the indices whose rounds read the key and leave the
    storage alone is a fold over the keys. *)
Lemma forOf_indices {B} (f : B → nat → M LocalStorage B) (F : B → jsstring → B) ls :
  (∀ m i, f m i ls
          = (Returned (match fst <$> items ls !! i with
                       | Some key => F m key
                       | None => m
                       end), ls)) →
  ∀ m, forOf (seq 0 (length (items ls))) f m ls
       = (Returned (fold_left F (items ls).*1 m), ls).
Proof.
  intros Hf.
  assert (∀ l pre m, items ls = pre ++ l →
            forOf (seq (length pre) (length l)) f m ls
            = (Returned (fold_left F l.*1 m), ls)) as Hloop.
  { induction l as [|[k v] l IH]; intros pre m Hitems; [done|].
    cbn [length seq forOf]. run_m. rewrite Hf, Hitems.
    rewrite list_lookup_middle by done. csimpl.
    specialize (IH (pre ++ [(k, v)]) (F m k)).
    rewrite length_app, Nat.add_1_r in IH. apply IH.
    by rewrite <- app_assoc. }
  intros m. by apply (Hloop (items ls) []).
Qed.

Lemma Manager_retrieve_denied ls category isGlobal :
  denied ls = true → Manager.retrieve this category isGlobal ls = (Returned [], ls).
Proof.
  intros Hd. unfold Manager.retrieve, Storage.getItem, Storage.access. run_m.
  by rewrite Hd.
Qed.

Lemma Manager_retrieveAll_denied ls isGlobal :
  denied ls = true → Manager.retrieveAll this isGlobal ls = (Returned [], ls).
Proof.
  intros Hd. unfold Manager.retrieveAll, Storage.length, Storage.access. run_m.
  by rewrite Hd.
Qed.

Lemma Manager_collectKey_open ls isGlobal memories i :
  denied ls = false →
  Manager.collectKey this isGlobal memories i ls
  = (Returned (match fst <$> items ls !! i with
               | Some key => Manager_collect this ls isGlobal memories key
               | None => memories
               end), ls).
Proof.
  intros Hd. unfold Manager.collectKey, Storage.key. run_m. rewrite access_open by done.
  destruct (fst <$> items ls !! i) as [key|]; [|done].
  unfold Manager_collect, scope_key, flattened.
  destruct (JS.truthy key && JS.startsWith key (Manager.prefix this isGlobal)); [|done].
  rewrite Manager_retrieve_open by done.
  by destruct (0 <? length (Obj.values _))%nat.
Qed.

(** [retrieveAll] on storage that can be read: the rounds, over the keys
    in storage order. *)
Lemma Manager_retrieveAll_open ls isGlobal :
  denied ls = false →
  Manager.retrieveAll this isGlobal ls
  = (Returned (fold_left (Manager_collect this ls isGlobal) (items ls).*1 []), ls).
Proof.
  intros Hd. unfold Manager.retrieveAll, Storage.length. run_m.
  rewrite access_open by done.
  rewrite (forOf_indices _ (Manager_collect this ls isGlobal)); [done|].
  intros m i. by apply Manager_collectKey_open.
Qed.

(** The value a fold of rounds holds under [category]. *)
Lemma get_Manager_collect ls isGlobal memories key category :
  Assoc.get category (Manager_collect this ls isGlobal memories key)
  = if scope_key this isGlobal key
       && bool_decide (JS.substring key (length (Manager.prefix this isGlobal)) = category)
       && negb (bool_decide (category = js "__proto__"))
       && (0 <? length (Codec.groupEntries
                          (default [] (Assoc.get (Manager.getStorageKey this category isGlobal)
                                         (items ls)))))%nat
    then Some (flattened (Codec.groupEntries
                            (default [] (Assoc.get (Manager.getStorageKey this category isGlobal)
                                           (items ls)))))
    else Assoc.get category memories.
Proof.
  unfold Manager_collect. destruct (scope_key this isGlobal key); [|done].
  cbn [andb]. rewrite values_length.
  destruct (decide (JS.substring key (length (Manager.prefix this isGlobal)) = category))
    as [->|Hne].
  - rewrite bool_decide_eq_true_2 by done. cbn [andb].
    destruct (0 <? length _)%nat.
    + rewrite get_set. case_decide.
      * by rewrite bool_decide_eq_true_2.
      * rewrite bool_decide_eq_false_2 by done. by rewrite decide_True.
    + by rewrite andb_false_r.
  - rewrite bool_decide_eq_false_2 by done. cbn [andb].
    destruct (0 <? length _)%nat; [|done].
    rewrite get_set. case_decide; [done|]. by rewrite decide_False.
Qed.

Lemma scope_key_category key isGlobal category :
  scope_key this isGlobal key = true →
  JS.substring key (length (Manager.prefix this isGlobal)) = category →
  key = Manager.getStorageKey this category isGlobal.
Proof.
  unfold scope_key. intros [_ [r ->]%startsWith_prefix]%andb_true_iff <-.
  unfold JS.substring, Manager.getStorageKey. by rewrite drop_app_length.
Qed.

Lemma scope_key_getStorageKey category isGlobal :
  Manager.getStorageKey this category isGlobal ≠ [] →
  scope_key this isGlobal (Manager.getStorageKey this category isGlobal) = true.
Proof.
  intros Hne. unfold scope_key, Manager.getStorageKey in *. rewrite startsWith_app.
  by destruct (Manager.prefix this isGlobal ++ category).
Qed.

Lemma get_fold_Manager_collect ls isGlobal keys memories category :
  let view := Codec.groupEntries
                (default [] (Assoc.get (Manager.getStorageKey this category isGlobal)
                               (items ls))) in
  Assoc.get category (fold_left (Manager_collect this ls isGlobal) keys memories)
  = if bool_decide (Manager.getStorageKey this category isGlobal ∈ keys)
       && JS.truthy (Manager.getStorageKey this category isGlobal)
       && negb (bool_decide (category = js "__proto__"))
       && (0 <? length view)%nat
    then Some (flattened view)
    else Assoc.get category memories.
Proof.
  intros view. revert memories. induction keys as [|key keys IH]; intros memories; [done|].
  cbn [fold_left]. rewrite IH, get_Manager_collect. fold view.
  destruct (negb (bool_decide (category = js "__proto__"))) eqn:Hproto;
    [|by rewrite !andb_false_r].
  destruct (0 <? length view)%nat eqn:Hview; [|by rewrite !andb_false_r].
  rewrite !andb_true_r.
  destruct (decide (key = Manager.getStorageKey this category isGlobal)) as [->|Hne].
  - rewrite (bool_decide_eq_true_2 (_ ∈ _ :: _)) by (apply elem_of_cons; by left).
    cbn [andb].
    destruct (JS.truthy (Manager.getStorageKey this category isGlobal)) eqn:Ht.
    + rewrite scope_key_getStorageKey by (by destruct (Manager.getStorageKey _ _ _)).
      unfold JS.substring, Manager.getStorageKey. rewrite drop_app_length.
      rewrite (bool_decide_eq_true_2 (category = category)) by done. cbn [andb].
      by destruct (bool_decide (_ ∈ keys)).
    + rewrite andb_false_r. unfold scope_key. by rewrite Ht.
  - assert (scope_key this isGlobal key
            && bool_decide (JS.substring key (length (Manager.prefix this isGlobal))
                            = category) = false) as ->.
    { apply not_true_is_false. intros [Hs Hc%bool_decide_eq_true]%andb_true_iff.
      by apply Hne, scope_key_category. }
    destruct (decide (Manager.getStorageKey this category isGlobal ∈ keys)) as [Hin|Hout].
    + rewrite !bool_decide_eq_true_2; [done | | done]. apply elem_of_cons. by right.
    + rewrite !bool_decide_eq_false_2; [done | | done].
      rewrite elem_of_cons. intros [?|?]; [by apply Hne | done].
Qed.

End ManagerLoops.

Section NewManager.
Variable options_appName : option jsstring.

Lemma new_prefix (isGlobal : bool) :
  Manager.prefix (Manager.new options_appName) isGlobal
  = appName (Manager.new options_appName)
    ++ (if isGlobal then js "_global_memory_" else js "_local_memory_").
Proof. by destruct isGlobal. Qed.

Lemma new_key_nonempty (category : jsstring) (isGlobal : bool) :
  Manager.getStorageKey (Manager.new options_appName) category isGlobal ≠ [].
Proof.
  unfold Manager.getStorageKey. rewrite new_prefix. intros H.
  apply (f_equal length) in H. rewrite !length_app in H.
  destruct isGlobal; simpl in H; lia.
Qed.

(** No key of one scope starts with the prefix of the other one. *)
Lemma new_prefixes_apart (key : jsstring) (isGlobal : bool) :
  JS.startsWith key (Manager.prefix (Manager.new options_appName) isGlobal) = true →
  JS.startsWith key (Manager.prefix (Manager.new options_appName) (negb isGlobal)) = false.
Proof.
  rewrite !new_prefix. intros [r ->]%startsWith_prefix.
  apply not_true_is_false. intros [r' Hr]%startsWith_prefix.
  rewrite <- !app_assoc in Hr. apply app_inv_head in Hr.
  destruct isGlobal; discriminate.
Qed.

End NewManager.

(** The retrieval callback of the manager answers a mapping in every
    storage state and writes nothing. *)
Lemma Manager_retrieve_memories_reads
    (this : MemoryManager) (category : jsstring) (is_global : bool) (ls : LocalStorage) :
  ∃ memories,
    Manager.retrieve_memories this category is_global ls
    = (Returned {| text := JSON_stringify memories; isError := false |}, ls)
    ∧ (denied ls = true → memories = []).
Proof.
  unfold Manager.retrieve_memories. run_m.
  destruct (denied ls) eqn:Hd.
  - exists []. split; [|done]. case_decide.
    + by rewrite Manager_retrieveAll_denied.
    + by rewrite Manager_retrieve_denied.
  - case_decide.
    + rewrite Manager_retrieveAll_open by done. eexists. by split.
    + rewrite Manager_retrieve_open by done. eexists. by split.
Qed.

(** X14.  A tool the manager registers as read-only never writes and never
    throws: for every storage state, also one that denies access, its
    callback answers a mapping and leaves the storage as it was; when
    access is denied the mapping is empty. *)
Theorem X14_read_only_tools_never_write
    (this : MemoryManager) (r : request) (is_global : bool) (ls : LocalStorage) :
  readOnlyHint (Registered.annotations r) = true →
  ∃ memories,
    Registered.handler this r is_global ls
    = (Returned {| text := JSON_stringify memories; isError := false |}, ls)
    ∧ (denied ls = true → memories = []).
Proof.
  destruct r as [| category | |]; [done | | done | done]. intros _.
  apply Manager_retrieve_memories_reads.
Qed.

Lemma X14_witness :
  ∃ memories,
    Registered.handler (Manager.new None) (Retrieve (js "*")) true
      {| items := [(js "goose_global_memory_x", js "call Ann")]; denied := true;
         quota := None |}
    = (Returned {| text := JSON_stringify memories; isError := false |},
       {| items := [(js "goose_global_memory_x", js "call Ann")]; denied := true;
          quota := None |})
    ∧ (true = true → memories = []).
Proof.
  apply (X14_read_only_tools_never_write (Manager.new None) (Retrieve (js "*")) true
           {| items := [(js "goose_global_memory_x", js "call Ann")]; denied := true;
              quota := None |}).
  reflexivity.
Defined.

(** What [retrieveAll] lists on storage that can be read. *)
Lemma Manager_retrieveAll_lists
    (options_appName : option jsstring) (ls : LocalStorage) (isGlobal : bool) :
  let this := Manager.new options_appName in
  denied ls = false →
  ∃ memories,
    Manager.retrieveAll this isGlobal ls = (Returned memories, ls)
    ∧ (∀ category content,
         Assoc.get (Manager.getStorageKey this category isGlobal) (items ls) = Some content →
         category ≠ js "__proto__" → Codec.groupEntries content ≠ [] →
         Assoc.get category memories = Some (flattened (Codec.groupEntries content)))
    ∧ (∀ category lines,
         Assoc.get category memories = Some lines →
         ∃ content,
           Assoc.get (Manager.getStorageKey this category isGlobal) (items ls) = Some content
           ∧ Codec.groupEntries content ≠ []
           ∧ lines = flattened (Codec.groupEntries content)).
Proof.
  intros this Hd. rewrite Manager_retrieveAll_open by done.
  eexists. split; [done|]. split.
  - intros category content Hget Hproto Hview.
    rewrite get_fold_Manager_collect, Hget. change (default [] (Some content)) with content.
    rewrite bool_decide_eq_true_2.
    + pose proof (new_key_nonempty options_appName category isGlobal) as Hk.
      fold this in Hk. destruct (Manager.getStorageKey this category isGlobal); [done|].
      cbn [JS.truthy andb]. rewrite bool_decide_eq_false_2 by done. cbn [negb andb].
      by destruct (Codec.groupEntries content).
    + apply get_Some_elem in Hget. apply list_elem_of_fmap. by eexists (_, _).
  - intros category lines. rewrite get_fold_Manager_collect.
    destruct (Assoc.get (Manager.getStorageKey this category isGlobal) (items ls))
      as [content|] eqn:Hget.
    + change (default [] (Some content)) with content.
      destruct (_ && _ && _ && (0 <? length (Codec.groupEntries content))%nat) eqn:Hc;
        [|done].
      intros [= <-]. exists content. split; [done|]. split; [|done].
      apply andb_true_iff in Hc as [_ Hc]. by destruct (Codec.groupEntries content).
    + cbn [default]. rewrite groupEntries_nil. cbn [length]. by rewrite andb_false_r.
Qed.

(** X15.  What [retrieveAll] lists, on storage that can be read: a category
    is listed exactly when the scope has an item for it that decodes to at
    least one group and the category is not "__proto__"; it is listed with
    the lines of its groups, flattened.  Nothing is written. *)
Theorem X15_retrieveAll_lists_the_scope
    (options_appName : option jsstring) (ls : LocalStorage) (isGlobal : bool) :
  let this := Manager.new options_appName in
  denied ls = false →
  ∃ memories,
    Manager.retrieveAll this isGlobal ls = (Returned memories, ls)
    ∧ (∀ category content,
         Assoc.get (Manager.getStorageKey this category isGlobal) (items ls) = Some content →
         category ≠ js "__proto__" → Codec.groupEntries content ≠ [] →
         Assoc.get category memories = Some (flattened (Codec.groupEntries content)))
    ∧ (∀ category lines,
         Assoc.get category memories = Some lines →
         ∃ content,
           Assoc.get (Manager.getStorageKey this category isGlobal) (items ls) = Some content
           ∧ Codec.groupEntries content ≠ []
           ∧ lines = flattened (Codec.groupEntries content)).
Proof. apply Manager_retrieveAll_lists. Qed.

Lemma X15_witness :
  let ls := {| items := [(js "goose_global_memory_x", js "call Ann" ++ Codec.delimiter);
                         (js "goose_local_memory_y", js "call Bob" ++ Codec.delimiter)];
               denied := false; quota := None |} in
  ∃ memories,
    Manager.retrieveAll (Manager.new None) true ls = (Returned memories, ls)
    ∧ Assoc.get (js "x") memories = Some [js "call Ann"]
    ∧ Assoc.get (js "y") memories = None.
Proof.
  intros ls.
  destruct (X15_retrieveAll_lists_the_scope None ls true eq_refl)
    as (memories & Hrun & Hlists & Hlisted).
  exists memories. split; [exact Hrun|]. split.
  - apply (Hlists (js "x") (js "call Ann" ++ Codec.delimiter));
      [reflexivity | discriminate | discriminate].
  - destruct (Assoc.get (js "y") memories) as [lines|] eqn:Hy; [|reflexivity].
    destruct (Hlisted _ _ Hy) as (content & Hget & _). discriminate Hget.
Defined.

(* ===================================================================== *)
(** * The manager's tools on storage that is open                         *)
(* ===================================================================== *)

Section ManagerTools.
Variable this : MemoryManager.
Implicit Types (ls : LocalStorage) (r : request).

Lemma with_items_same ls : Storage.with_items (items ls) ls = ls.
Proof. by destruct ls. Qed.

(** The removals of the collected keys, one after the other. *)
Lemma forOf_removeItem ls (keys : list jsstring) :
  denied ls = false →
  forOf keys (fun (_ : unit) key => Storage.removeItem key) tt ls
  = (Returned tt,
     Storage.with_items
       (Assoc.restrict (fun key => negb (bool_decide (key ∈ keys))) (items ls)) ls).
Proof.
  revert ls. induction keys as [|k keys IH]; intros ls Hd.
  - cbn [forOf]. run_m. rewrite restrict_all; [by rewrite with_items_same|].
    intros key _. apply negb_true_iff, bool_decide_eq_false_2, not_elem_of_nil.
  - cbn [forOf]. run_m. unfold Storage.removeItem at 1. rewrite access_open by done.
    rewrite IH by done. unfold Storage.with_items. cbn [items denied quota].
    rewrite restrict_restrict. do 2 f_equal. apply restrict_ext. intros key _.
    rewrite <- negb_orb. f_equal.
    destruct (decide (key = k)) as [->|Hne].
    + rewrite (bool_decide_eq_true_2 (k = k)) by done.
      rewrite (bool_decide_eq_true_2 (k ∈ k :: keys)); [done|]. apply elem_of_cons. by left.
    + rewrite (bool_decide_eq_false_2 (key = k)) by done. cbn [orb].
      apply bool_decide_ext. rewrite elem_of_cons. split; [by right | by intros [?|?]].
Qed.

Lemma clearAllMemories_open ls isGlobal :
  denied ls = false →
  Manager.clearAllMemories this isGlobal ls
  = (Returned tt,
     Storage.with_items
       (Assoc.restrict (fun key => negb (scope_key this isGlobal key)) (items ls)) ls).
Proof.
  intros Hd. unfold Manager.clearAllMemories, Storage.length. run_m.
  rewrite access_open by done.
  rewrite (forOf_indices _ (fun keysToRemove key =>
                              if scope_key this isGlobal key
                              then keysToRemove ++ [key] else keysToRemove)).
  - rewrite forOf_removeItem by done. do 2 f_equal. apply restrict_ext.
    intros key Hkey. f_equal.
    assert (∀ keys acc,
              fold_left (fun keysToRemove key0 =>
                           if scope_key this isGlobal key0
                           then keysToRemove ++ [key0] else keysToRemove) keys acc
              = acc ++ List.filter (scope_key this isGlobal) keys) as Hfold.
    { induction keys as [|k keys IH]; intros acc; cbn [fold_left List.filter].
      - by rewrite app_nil_r.
      - rewrite IH. destruct (scope_key this isGlobal k); [|done].
        by rewrite <- app_assoc. }
    rewrite Hfold, app_nil_l.
    destruct (scope_key this isGlobal key) eqn:Hs.
    + apply bool_decide_eq_true_2. apply list_elem_of_In, filter_In.
      split; [by apply list_elem_of_In | done].
    + apply bool_decide_eq_false_2. intros Hin%list_elem_of_In%filter_In.
      destruct Hin as [_ Hin]. congruence.
  - intros m i. unfold Manager.collectKeyToRemove, Storage.key. run_m.
    rewrite access_open by done. unfold scope_key.
    destruct (fst <$> items ls !! i) as [key|]; [|done].
    by destruct (JS.truthy key && JS.startsWith key (Manager.prefix this isGlobal)).
Qed.

Lemma clearMemory_open ls category isGlobal :
  denied ls = false →
  Manager.clearMemory this category isGlobal ls
  = (Returned tt,
     Storage.with_items
       (Assoc.restrict
          (fun key => negb (bool_decide
                              (key = Manager.getStorageKey this category isGlobal)))
          (items ls)) ls).
Proof.
  intros Hd. unfold Manager.clearMemory, Storage.removeItem. run_m.
  by rewrite access_open.
Qed.

(** On storage that is open and has no quota every tool returns: the
    answer and the items left are those of [Manager_answer] and
    [Manager_effect]. *)
Lemma handler_open ls r is_global :
  denied ls = false → quota ls = None →
  Registered.handler this r is_global ls
  = (Returned (Manager_answer this r is_global ls),
     Storage.with_items (Manager_effect this r is_global (items ls)) ls).
Proof.
  intros Hd Hq. destruct r as [category data tags | category | category
                              | category memory_content];
    cbn [Registered.handler Manager_answer Manager_effect].
  - unfold Manager.remember_memory. run_m. by rewrite Manager_remember_open.
  - unfold Manager.retrieve_memories. run_m. rewrite with_items_same. case_decide.
    + by rewrite Manager_retrieveAll_open.
    + by rewrite Manager_retrieve_open.
  - unfold Manager.remove_memory_category. run_m. case_decide.
    + by rewrite clearAllMemories_open.
    + by rewrite clearMemory_open.
  - unfold Manager.remove_specific_memory. run_m.
    destruct (Assoc.get (Manager.getStorageKey this category is_global) (items ls))
      as [content|] eqn:Hget.
    + by rewrite (Manager_removeSpecificMemory_open this ls category memory_content
                    is_global content).
    + destruct (Manager_missing_category this ls category memory_content is_global Hd Hget)
        as (_ & _ & ->).
      by rewrite with_items_same.
Qed.

End ManagerTools.

(** X16.  On storage that can be accessed and has no quota, no call of a
    tool of the manager fails: every callback returns a result, and the
    storage stays accessible and without quota, so the calls of any
    sequence all return. *)
Theorem X16_tools_return_on_open_storage
    (this : MemoryManager) (calls : list (request * bool)) (ls : LocalStorage) :
  denied ls = false → quota ls = None →
  Forall (fun a => ∃ result, a.2 = Returned result) (Registered.run this calls ls).1
  ∧ length (Registered.run this calls ls).1 = length calls
  ∧ denied (Registered.run this calls ls).2 = false
  ∧ quota (Registered.run this calls ls).2 = None.
Proof.
  revert ls. induction calls as [|[r is_global] calls IH]; intros ls Hd Hq; [done|].
  cbn [Registered.run]. rewrite handler_open by done.
  specialize (IH (Storage.with_items (Manager_effect this r is_global (items ls)) ls) Hd Hq).
  destruct (Registered.run this calls _) as [answers ls']. cbn [fst snd] in *.
  destruct IH as (Hall & Hlen & Hd' & Hq').
  split; [constructor; [by eexists | done]|].
  split; [cbn [length]; by rewrite Hlen|]. done.
Qed.

Lemma X16_witness :
  let ls := {| items := []; denied := false; quota := None |} in
  let calls := [(Remember (js "x") (js "call Ann") [], true);
                (RemoveSpecific (js "x") (js "Ann"), true);
                (RemoveCategory (js "*"), false);
                (Retrieve (js "*"), true)] in
  Forall (fun a => ∃ result, a.2 = Returned result)
    (Registered.run (Manager.new None) calls ls).1.
Proof.
  intros ls calls.
  apply (X16_tools_return_on_open_storage (Manager.new None) calls ls); reflexivity.
Defined.

(* ===================================================================== *)
(** * Removal of categories in the manager                                *)
(* ===================================================================== *)

Lemma fold_left_const {A B} (l : list A) (b : B) : fold_left (fun b _ => b) l b = b.
Proof. by induction l. Qed.

Section ManagerRemoval.
Variable options_appName : option jsstring.
Abbreviation this := (Manager.new options_appName).
Implicit Types (ls : LocalStorage).

Lemma new_scope_key (key : jsstring) (isGlobal : bool) :
  scope_key this isGlobal key = JS.startsWith key (Manager.prefix this isGlobal).
Proof.
  unfold scope_key. destruct (JS.startsWith key _) eqn:Hs; [|apply andb_false_r].
  apply startsWith_prefix in Hs as [r ->].
  pose proof (new_key_nonempty options_appName r isGlobal) as Hk.
  unfold Manager.getStorageKey in Hk.
  by destruct (Manager.prefix this isGlobal ++ r).
Qed.

(** The storage key determines the scope and the category. *)
Lemma new_key_inj (category category' : jsstring) (isGlobal isGlobal' : bool) :
  Manager.getStorageKey this category isGlobal
  = Manager.getStorageKey this category' isGlobal' →
  category = category' ∧ isGlobal = isGlobal'.
Proof.
  intros Hk. destruct isGlobal, isGlobal'.
  - split; [|done]. by apply app_inv_head in Hk.
  - by apply Manager_keys_apart in Hk.
  - symmetry in Hk. by apply Manager_keys_apart in Hk.
  - split; [|done]. by apply app_inv_head in Hk.
Qed.

End ManagerRemoval.

(** X17.  The removal with the wildcard in the manager, on storage that can
    be accessed, answers success and removes exactly the items whose key
    starts with the scope's prefix: afterwards [retrieveAll] and the
    retrieval of every category of the scope give the empty mapping, and
    the retrieval of every category of the other scope gives what it
    gave. *)
Theorem X17_manager_wildcard_removal_empties_the_scope
    (options_appName : option jsstring) (ls : LocalStorage) (is_global : bool) :
  let this := Manager.new options_appName in
  let result := Manager.remove_memory_category this (js "*") is_global ls in
  denied ls = false →
  result.1 = Returned (Manager.okResult
                         (js "Cleared all " ++ (if is_global then js "global" else js "local")
                            ++ js " memory categories"))
  ∧ (∀ key, Assoc.get key (items result.2)
            = if JS.startsWith key (Manager.prefix this is_global) then None
              else Assoc.get key (items ls))
  ∧ Manager.retrieveAll this is_global result.2 = (Returned [], result.2)
  ∧ (∀ category, Manager.retrieve this category is_global result.2 = (Returned [], result.2))
  ∧ (∀ category,
       Manager.retrieve this category (negb is_global) result.2
       = ((Manager.retrieve this category (negb is_global) ls).1, result.2)).
Proof.
  intros this result Hd. unfold result, Manager.remove_memory_category. run_m.
  rewrite decide_True by done. rewrite clearAllMemories_open by done. cbn [fst snd].
  set (ls' := Storage.with_items _ ls).
  assert (denied ls' = false) as Hd' by done.
  assert (∀ key, Assoc.get key (items ls')
                 = if JS.startsWith key (Manager.prefix this is_global) then None
                   else Assoc.get key (items ls)) as Hget.
  { intros key. unfold ls'. cbn [items Storage.with_items].
    rewrite get_restrict. unfold this. rewrite new_scope_key.
    by destruct (JS.startsWith key _). }
  split; [done|]. split; [done|]. split; [|split].
  - rewrite Manager_retrieveAll_open by done.
    rewrite (fold_left_ext_in _ (fun memories _ => memories)).
    + by rewrite fold_left_const.
    + intros memories key Hkey. unfold Manager_collect.
      unfold ls' in Hkey. cbn [items Storage.with_items] in Hkey.
      rewrite restrict_fmap_fst in Hkey.
      apply list_elem_of_In, filter_In in Hkey as [_ Hkey].
      apply negb_true_iff in Hkey. by rewrite Hkey.
  - intros category. rewrite Manager_retrieve_open by done.
    rewrite Hget. unfold Manager.getStorageKey. by rewrite startsWith_app.
  - intros category. rewrite !Manager_retrieve_open by done. cbn [fst].
    rewrite Hget. unfold Manager.getStorageKey at 1.
    assert (JS.startsWith (Manager.prefix this (negb is_global) ++ category)
              (Manager.prefix this is_global) = false) as ->; [|done].
    rewrite <- (negb_involutive is_global) at 2.
    apply new_prefixes_apart, startsWith_app.
Qed.

Lemma X17_witness :
  let ls := {| items := [(js "goose_global_memory_x", js "call Ann" ++ Codec.delimiter);
                         (js "goose_local_memory_y", js "call Bob" ++ Codec.delimiter)];
               denied := false; quota := None |} in
  let result := Manager.remove_memory_category (Manager.new None) (js "*") true ls in
  Manager.retrieveAll (Manager.new None) true result.2 = (Returned [], result.2)
  ∧ Assoc.get (js "goose_local_memory_y") (items result.2)
    = Some (js "call Bob" ++ Codec.delimiter).
Proof.
  intros ls result.
  destruct (X17_manager_wildcard_removal_empties_the_scope None ls true eq_refl)
    as (_ & Hget & Hall & _).
  split; [exact Hall|]. exact (Hget (js "goose_local_memory_y")).
Defined.

(** X18.  The removal of one category in the manager, on storage that can
    be accessed, answers success and removes the category's item, nothing
    else: afterwards the retrieval of the category gives the empty mapping,
    and the retrieval of every other category, of either scope, gives what
    it gave. *)
Theorem X18_manager_category_removal
    (options_appName : option jsstring) (ls : LocalStorage)
    (category : jsstring) (is_global : bool) :
  let this := Manager.new options_appName in
  let result := Manager.remove_memory_category this category is_global ls in
  category ≠ js "*" →
  denied ls = false →
  result.1 = Returned (Manager.okResult (js "Cleared memories in category: " ++ category))
  ∧ (∀ key, Assoc.get key (items result.2)
            = if decide (key = Manager.getStorageKey this category is_global) then None
              else Assoc.get key (items ls))
  ∧ Manager.retrieve this category is_global result.2 = (Returned [], result.2)
  ∧ (∀ category' is_global',
       (category', is_global') ≠ (category, is_global) →
       Manager.retrieve this category' is_global' result.2
       = ((Manager.retrieve this category' is_global' ls).1, result.2)).
Proof.
  intros this result Hc Hd. unfold result, Manager.remove_memory_category. run_m.
  rewrite decide_False by done. rewrite clearMemory_open by done. cbn [fst snd].
  set (ls' := Storage.with_items _ ls).
  assert (denied ls' = false) as Hd' by done.
  assert (∀ key, Assoc.get key (items ls')
                 = if decide (key = Manager.getStorageKey this category is_global) then None
                   else Assoc.get key (items ls)) as Hget.
  { intros key. unfold ls'. cbn [items Storage.with_items]. rewrite get_restrict.
    case_decide.
    - by rewrite bool_decide_eq_true_2.
    - by rewrite bool_decide_eq_false_2. }
  split; [done|]. split; [done|]. split.
  - rewrite Manager_retrieve_open by done. by rewrite Hget, decide_True.
  - intros category' is_global' Hne. rewrite !Manager_retrieve_open by done. cbn [fst].
    rewrite Hget, decide_False; [done|].
    intros [-> ->]%new_key_inj. done.
Qed.

Lemma X18_witness :
  let ls := {| items := [(js "goose_global_memory_x", js "call Ann" ++ Codec.delimiter);
                         (js "goose_global_memory_y", js "call Bob" ++ Codec.delimiter)];
               denied := false; quota := None |} in
  let result := Manager.remove_memory_category (Manager.new None) (js "x") true ls in
  Manager.retrieve (Manager.new None) (js "x") true result.2 = (Returned [], result.2)
  ∧ Assoc.get (js "goose_global_memory_y") (items result.2)
    = Some (js "call Bob" ++ Codec.delimiter).
Proof.
  intros ls result.
  destruct (X18_manager_category_removal None ls (js "x") true) as (_ & Hget & Hx & _);
    [discriminate | reflexivity |].
  split; [exact Hx|]. exact (Hget (js "goose_global_memory_y")).
Defined.

(* ===================================================================== *)
(** * Tools that only add                                                  *)
(* ===================================================================== *)

(** X19.  A tool the manager registers as not destructive never removes or
    shortens an item: in every storage state (also with access denied or
    the quota exceeded), each item that was there before the call is there
    after it, and its old text is the beginning of its new text. *)
Theorem X19_non_destructive_tools_only_add
    (this : MemoryManager) (r : request) (is_global : bool) (ls : LocalStorage)
    (key old : jsstring) :
  destructiveHint (Registered.annotations r) = false →
  Assoc.get key (items ls) = Some old →
  ∃ new,
    Assoc.get key (items (Registered.handler this r is_global ls).2) = Some new
    ∧ old `prefix_of` new.
Proof.
  destruct r as [category data tags | category | |]; [| | done | done]; intros _ Hold.
  - cbn [Registered.handler].
    unfold Manager.remember_memory, Manager.remember, Storage.getItem, Storage.setItem,
      Storage.access.
    run_m. destruct (denied ls) eqn:Hd; [by exists old|]. cbv beta iota. rewrite Hd.
    set (storageKey := Manager.getStorageKey this category is_global).
    set (existingData := match Assoc.get storageKey (items ls) with
                         | Some (c :: s) => c :: s
                         | _ => []
                         end).
    assert (∃ new, Assoc.get key
                     (Assoc.put storageKey (existingData ++ Codec.content data tags)
                        (items ls)) = Some new
                   ∧ old `prefix_of` new) as Hput.
    { rewrite get_put. case_decide as Hk; [|by exists old].
      eexists. split; [done|]. subst key. unfold existingData. rewrite Hold.
      destruct old; [apply prefix_nil | by apply prefix_app_r]. }
    destruct (quota ls) as [q|]; [|done].
    destruct (q <? Storage.used _)%nat; [by exists old | done].
  - cbn [Registered.handler].
    destruct (Manager_retrieve_memories_reads this category is_global ls) as (m & -> & _).
    by exists old.
Qed.

Lemma X19_witness :
  let ls := {| items := [(js "goose_global_memory_x", js "call Ann" ++ Codec.delimiter)];
               denied := false; quota := None |} in
  ∃ new,
    Assoc.get (js "goose_global_memory_x")
      (items (Registered.handler (Manager.new None)
                (Remember (js "x") (js "call Bob") []) true ls).2) = Some new
    ∧ (js "call Ann" ++ Codec.delimiter) `prefix_of` new.
Proof.
  intros ls.
  apply (X19_non_destructive_tools_only_add (Manager.new None)
           (Remember (js "x") (js "call Bob") []) true ls); reflexivity.
Defined.

(* ===================================================================== *)
(** * The two scopes of the manager                                       *)
(* ===================================================================== *)

Section ManagerScopes.
Variable options_appName : option jsstring.
Abbreviation this := (Manager.new options_appName).
Implicit Types (ls : LocalStorage) (l : list (jsstring * jsstring)) (r : request).

(** The keys of the scope. *)
Abbreviation mine g := (fun key : jsstring => JS.startsWith key (Manager.prefix this g)).

Lemma mine_key category g : mine g (Manager.getStorageKey this category g) = true.
Proof. apply startsWith_app. Qed.

Lemma other_key category g : mine g (Manager.getStorageKey this category (negb g)) = false.
Proof.
  pose proof (new_prefixes_apart options_appName
                (Manager.getStorageKey this category (negb g)) (negb g)) as H.
  rewrite negb_involutive in H. apply H, startsWith_app.
Qed.

Lemma get_mine l key g :
  mine g key = true → Assoc.get key (Assoc.restrict (mine g) l) = Assoc.get key l.
Proof. intros Hk. by rewrite get_restrict, Hk. Qed.

(** A call in a scope acts on the scope's items alone. *)
Lemma effect_region r g l :
  Assoc.restrict (mine g) (Manager_effect this r g l)
  = Manager_effect this r g (Assoc.restrict (mine g) l).
Proof.
  destruct r as [category data tags | category | category | category memory_content];
    cbn [Manager_effect].
  - rewrite restrict_put_in by apply mine_key. by rewrite get_mine by apply mine_key.
  - done.
  - case_decide; apply restrict_comm.
  - rewrite get_mine by apply mine_key.
    destruct (Assoc.get _ l); [|done]. by rewrite restrict_put_in by apply mine_key.
Qed.

(** A call in the other scope leaves the scope's items alone. *)
Lemma effect_frame r g l :
  Assoc.restrict (mine g) (Manager_effect this r (negb g) l) = Assoc.restrict (mine g) l.
Proof.
  destruct r as [category data tags | category | category | category memory_content];
    cbn [Manager_effect].
  - by rewrite restrict_put_out by apply other_key.
  - done.
  - case_decide; apply restrict_absorb; intros key Hkey; apply negb_true_iff.
    + rewrite new_scope_key. apply not_true_is_false. intros Hother.
      apply new_prefixes_apart in Hother. rewrite negb_involutive in Hother.
      congruence.
    + apply bool_decide_eq_false_2. intros ->. by rewrite other_key in Hkey.
  - destruct (Assoc.get _ l); [|done]. by rewrite restrict_put_out by apply other_key.
Qed.

Lemma collect_agree ls1 ls2 g memories key :
  Assoc.restrict (mine g) (items ls1) = Assoc.restrict (mine g) (items ls2) →
  Manager_collect this ls1 g memories key = Manager_collect this ls2 g memories key.
Proof.
  intros Heq. unfold Manager_collect. destruct (scope_key this g key); [|done].
  rewrite <- (get_mine (items ls1) _ g), <- (get_mine (items ls2) _ g) by apply mine_key.
  by rewrite Heq.
Qed.

(** The answer to a call in a scope is read off the scope's items. *)
Lemma answer_agree ls1 ls2 r g :
  Assoc.restrict (mine g) (items ls1) = Assoc.restrict (mine g) (items ls2) →
  Manager_answer this r g ls1 = Manager_answer this r g ls2.
Proof.
  intros Heq.
  destruct r as [category data tags | category | category | category memory_content];
    cbn [Manager_answer]; [done | | done | done].
  f_equal. f_equal. case_decide.
  - assert (∀ ls, fold_left (Manager_collect this ls g) (items ls).*1 []
                  = fold_left (Manager_collect this ls g)
                      (Assoc.restrict (mine g) (items ls)).*1 []) as Hskip.
    { intros ls. rewrite restrict_fmap_fst. symmetry. apply fold_left_skip.
      intros memories key Hkey. unfold Manager_collect.
      by rewrite new_scope_key, Hkey. }
    rewrite (Hskip ls1), (Hskip ls2), Heq.
    apply fold_left_ext_in. intros memories key _. by apply collect_agree.
  - rewrite <- (get_mine (items ls1) _ g), <- (get_mine (items ls2) _ g)
      by apply mine_key.
    by rewrite Heq.
Qed.

Lemma run_manager_agree (calls : list (request * bool)) ls1 ls2 (g : bool) :
  denied ls1 = false → quota ls1 = None → denied ls2 = false → quota ls2 = None →
  Assoc.restrict (mine g) (items ls1) = Assoc.restrict (mine g) (items ls2) →
  answers_of g (Registered.run this calls ls1).1
  = (Registered.run this (calls_of g calls) ls2).1
  ∧ Manager_region this g (Registered.run this calls ls1).2
    = Manager_region this g (Registered.run this (calls_of g calls) ls2).2.
Proof.
  revert ls1 ls2. induction calls as [|[r g'] calls IH];
    intros ls1 ls2 Hd1 Hq1 Hd2 Hq2 Heq.
  - cbn [Registered.run calls_of List.filter fst snd]. split; [done|].
    unfold Manager_region, Storage.with_items. by rewrite Heq, Hd1, Hd2, Hq1, Hq2.
  - cbn [Registered.run calls_of List.filter snd]. fold (calls_of g calls).
    rewrite handler_open by done.
    destruct (Bool.eqb g' g) eqn:Hg.
    + apply Bool.eqb_prop in Hg. subst g'. cbn [Registered.run].
      rewrite handler_open by done.
      rewrite (answer_agree ls1 ls2 r g Heq).
      destruct (IH (Storage.with_items (Manager_effect this r g (items ls1)) ls1)
                  (Storage.with_items (Manager_effect this r g (items ls2)) ls2))
        as [IHa IHr]; [done.. | |].
      { cbn [items Storage.with_items]. by rewrite !effect_region, Heq. }
      destruct (Registered.run this calls _) as [as1 ls1'].
      destruct (Registered.run this (calls_of g calls) _) as [as2 ls2'].
      cbn [fst snd] in *. unfold answers_of. cbn [List.filter fst].
      rewrite Bool.eqb_reflx. split; [|done]. f_equal. exact IHa.
    + assert (g' = negb g) as -> by (by destruct g', g).
      destruct (IH (Storage.with_items (Manager_effect this r (negb g) (items ls1)) ls1) ls2)
        as [IHa IHr]; [done.. | |].
      { cbn [items Storage.with_items]. by rewrite effect_frame. }
      destruct (Registered.run this calls _) as [as1 ls1'].
      cbn [fst snd] in *. unfold answers_of. cbn [List.filter fst].
      rewrite Hg. split; [exact IHa | done].
Qed.

End ManagerScopes.

(** X20.  The two scopes of the manager do not interfere, whatever the
    categories are called: on storage that can be accessed and has no
    quota, the answers to the calls of one scope in a sequence of tool
    calls, and the scope's items at the end, are what they are when the
    calls of the other scope are not made at all. *)
Theorem X20_manager_scopes_do_not_interfere
    (options_appName : option jsstring) (ls : LocalStorage)
    (calls : list (request * bool)) (is_global : bool) :
  denied ls = false → quota ls = None →
  Manager_isolated (Manager.new options_appName) ls calls is_global.
Proof.
  intros Hd Hq. unfold Manager_isolated.
  by apply run_manager_agree.
Qed.

Lemma X20_witness :
  Manager_isolated (Manager.new None) {| items := []; denied := false; quota := None |}
    [(Remember (js "x") (js "call Ann") [], true);
     (Remember (js "../x") (js "call Bob") [], false);
     (RemoveCategory (js "*"), false);
     (Retrieve (js "*"), true)]
    true.
Proof.
  apply (X20_manager_scopes_do_not_interfere None
           {| items := []; denied := false; quota := None |}); reflexivity.
Defined.

(* ===================================================================== *)
(** * Stores and removals in the manager                                  *)
(* ===================================================================== *)

Section ManagerSequences.
Variable this : MemoryManager.
Implicit Types (ls : LocalStorage).

Lemma content_nonempty (data : jsstring) (tags : list jsstring) :
  Codec.content data tags ≠ [].
Proof.
  unfold Codec.content. intros H. apply (f_equal length) in H.
  rewrite !length_app in H. simpl in H. lia.
Qed.

Lemma run_manager_remember_all ls category entries is_global :
  let storageKey := Manager.getStorageKey this category is_global in
  let result := Registered.run this (remember_all category entries is_global) ls in
  denied ls = false → quota ls = None →
  Forall (fun a => a.2 = Returned (Manager.okResult
                           (js "Successfully stored memory in category: " ++ category)))
    result.1
  ∧ denied result.2 = false ∧ quota result.2 = None
  ∧ default [] (Assoc.get storageKey (items result.2))
    = default [] (Assoc.get storageKey (items ls)) ++ stored entries.
Proof.
  intros storageKey. cbv zeta. revert ls.
  induction entries as [|[data tags] entries IH]; intros ls Hd Hq.
  - cbn [remember_all map Registered.run fst snd]. unfold stored. cbn [map concat].
    by rewrite app_nil_r.
  - cbn [remember_all map Registered.run fst snd].
    fold (remember_all category entries is_global).
    rewrite handler_open by done. cbn [Manager_answer Manager_effect]. fold storageKey.
    specialize (IH (Storage.with_items
                      (Assoc.put storageKey
                         (default [] (Assoc.get storageKey (items ls))
                            ++ Codec.content data tags) (items ls)) ls) Hd Hq).
    destruct (Registered.run this (remember_all category entries is_global) _)
      as [answers ls'].
    cbn [fst snd items Storage.with_items] in *.
    destruct IH as (Hall & Hd' & Hq' & Hbody).
    split; [by constructor|]. split; [done|]. split; [done|].
    rewrite Hbody, get_put, decide_True by done.
    change (default [] (Some ?x)) with x. unfold stored. cbn [map concat fst snd].
    by rewrite <- app_assoc.
Qed.

End ManagerSequences.

(** X21.  A run of stores into one category of the manager: on storage
    that can be accessed and has no quota, for a category other than the
    wildcard whose item ends on a closed entry (or is missing), storing
    plain entries one after the other succeeds every time, leaves the item
    followed by the entries' texts in order, and the retrieval that follows
    answers the old view with the entries filed in that order: the group of
    a tagged entry is set to its kept lines, the kept lines of an untagged
    entry are added at the end of "untagged". *)
Theorem X21_manager_stores_in_sequence_then_retrieve
    (this : MemoryManager) (ls : LocalStorage) (category : jsstring)
    (entries : list (jsstring * list jsstring)) (is_global : bool) :
  let storageKey := Manager.getStorageKey this category is_global in
  let old := default [] (Assoc.get storageKey (items ls)) in
  let result := Registered.run this (remember_all category entries is_global) ls in
  category ≠ js "*" →
  denied ls = false → quota ls = None →
  complete old →
  Forall (fun entry => plain_entry entry.1 entry.2) entries →
  Forall (fun a => a.2 = Returned (Manager.okResult
                           (js "Successfully stored memory in category: " ++ category)))
    result.1
  ∧ default [] (Assoc.get storageKey (items result.2)) = old ++ stored entries
  ∧ Registered.handler this (Retrieve category) is_global result.2
    = (Returned {| text := JSON_stringify (fold_left filed entries (Codec.groupEntries old));
                   isError := false |}, result.2).
Proof.
  intros storageKey old result Hc Hd Hq Hold Hentries.
  destruct (run_manager_remember_all this ls category entries is_global Hd Hq)
    as (Hall & Hd' & Hq' & Hbody).
  fold storageKey result in Hall, Hd', Hq', Hbody. fold old in Hbody.
  split; [done|]. split; [done|].
  rewrite handler_open by done. cbn [Manager_answer Manager_effect].
  rewrite with_items_same, decide_False by done. fold storageKey. rewrite Hbody.
  by destruct (groupEntries_stored old entries Hold Hentries) as [-> _].
Qed.

Lemma X21_witness :
  let ls := {| items := []; denied := false; quota := None |} in
  let calls := remember_all (js "x")
                 [(js "a", []); (js "b", [js "t"]); (js "c", [])] true in
  (Registered.handler (Manager.new None) (Retrieve (js "x")) true
     (Registered.run (Manager.new None) calls ls).2).1
  = Returned {| text := JSON_stringify [(js "untagged", [js "a"; js "c"]); (js "t", [js "b"])];
                isError := false |}.
Proof.
  intros ls calls.
  destruct (X21_manager_stores_in_sequence_then_retrieve (Manager.new None) ls (js "x")
              [(js "a", []); (js "b", [js "t"]); (js "c", [])] true)
    as (_ & _ & Hret).
  - discriminate.
  - reflexivity.
  - reflexivity.
  - reflexivity.
  - repeat constructor; discriminate.
  - unfold calls. rewrite Hret. reflexivity.
Defined.

(** X22.  A tool the manager registers with [idempotentHint] set adds to
    the storage on every call: on storage that can be accessed and has no
    quota, a second call with the same arguments returns the same result
    as the first and leaves the items different from what the first call
    left. *)
Theorem X22_repeated_store_adds_again
    (this : MemoryManager) (r : request) (is_global : bool) (ls : LocalStorage) :
  let once := Registered.handler this r is_global ls in
  let twice := Registered.handler this r is_global once.2 in
  idempotentHint (Registered.annotations r) = true →
  denied ls = false → quota ls = None →
  (∃ result, once.1 = Returned result ∧ twice.1 = Returned result)
  ∧ items twice.2 ≠ items once.2.
Proof.
  destruct r as [category data tags | | |]; [| done..].
  intros once twice _ Hd Hq. unfold twice, once.
  rewrite (handler_open this ls) by done. cbn [fst snd].
  rewrite handler_open by done. cbn [fst snd items Storage.with_items].
  split; [by eexists|].
  cbn [Manager_effect].
  set (storageKey := Manager.getStorageKey this category is_global).
  set (old := default [] (Assoc.get storageKey (items ls))).
  intros Heq. apply (f_equal (Assoc.get storageKey)) in Heq.
  rewrite !get_put, !decide_True in Heq by done.
  change (default [] (Some ?x)) with x in Heq.
  injection Heq as Heq. apply (f_equal length) in Heq.
  pose proof (content_nonempty data tags) as Hne.
  rewrite !length_app in Heq. destruct (Codec.content data tags); [done|].
  simpl in Heq. lia.
Qed.

Lemma X22_witness :
  let ls := {| items := []; denied := false; quota := None |} in
  let once := Registered.handler (Manager.new None)
                (Remember (js "x") (js "call Ann") [js "todo"]) true ls in
  let twice := Registered.handler (Manager.new None)
                 (Remember (js "x") (js "call Ann") [js "todo"]) true once.2 in
  (∃ result, once.1 = Returned result ∧ twice.1 = Returned result)
  ∧ items twice.2 ≠ items once.2.
Proof.
  intros ls.
  apply (X22_repeated_store_adds_again (Manager.new None)
           (Remember (js "x") (js "call Ann") [js "todo"]) true ls); reflexivity.
Defined.

(** X23.  After the removal of a specific memory in the manager, on storage
    that can be accessed and has no quota, no line the retrieval of the
    category lists contains the removed text, and no group key other than
    "untagged" does (for a non-empty text and a category other than the
    wildcard). *)
Theorem X23_manager_removed_text_is_not_retrieved
    (this : MemoryManager) (ls : LocalStorage) (category memory_content : jsstring)
    (is_global : bool) :
  let ls' := (Registered.handler this (RemoveSpecific category memory_content)
                is_global ls).2 in
  category ≠ js "*" →
  memory_content ≠ [] →
  denied ls = false → quota ls = None →
  ∃ memories,
    Registered.handler this (Retrieve category) is_global ls'
    = (Returned {| text := JSON_stringify memories; isError := false |}, ls')
    ∧ ∀ k lines, Assoc.get k memories = Some lines →
        (k = Codec.untaggedKey ∨ JS.includes k memory_content = false)
        ∧ ∀ line, line ∈ lines → JS.includes line memory_content = false.
Proof.
  intros ls' Hc Hmc Hd Hq. unfold ls'. rewrite (handler_open this ls) by done.
  cbn [snd]. rewrite handler_open by done.
  cbn [Manager_answer Manager_effect items Storage.with_items].
  rewrite decide_False by done.
  set (storageKey := Manager.getStorageKey this category is_global).
  eexists. split; [reflexivity|].
  intros k lines.
  destruct (Assoc.get storageKey (items ls)) as [content|] eqn:Hget.
  - rewrite get_put, decide_True by done. change (default [] (Some ?x)) with x.
    by apply view_without.
  - rewrite Hget. cbn [default]. by rewrite groupEntries_nil.
Qed.

Lemma X23_witness :
  let ls := {| items := [(js "goose_global_memory_x",
                          Codec.content (js "call Ann") [js "todo"]
                            ++ Codec.content (js "call Bob") [])];
               denied := false; quota := None |} in
  let ls' := (Registered.handler (Manager.new None) (RemoveSpecific (js "x") (js "Ann"))
                true ls).2 in
  ∃ memories,
    Registered.handler (Manager.new None) (Retrieve (js "x")) true ls'
    = (Returned {| text := JSON_stringify memories; isError := false |}, ls')
    ∧ ∀ k lines, Assoc.get k memories = Some lines →
        (k = Codec.untaggedKey ∨ JS.includes k (js "Ann") = false)
        ∧ ∀ line, line ∈ lines → JS.includes line (js "Ann") = false.
Proof.
  intros ls ls'.
  apply (X23_manager_removed_text_is_not_retrieved (Manager.new None) ls (js "x") (js "Ann")
           true); [discriminate | discriminate | reflexivity | reflexivity].
Defined.

(* ===================================================================== *)
(** * The instruction text of the manager                                 *)
(* ===================================================================== *)

Section InstructionFacts.

Lemma entries_perm {V} (o : JsObject V) : Object_entries o ≡ₚ o.
Proof.
  unfold Object_entries. rewrite values_perm.
  induction o as [|[k v] o IH]; [done|]. csimpl. by rewrite IH.
Qed.

Lemma keys_length {V} (o : JsObject V) : length (Object_keys o) = length o.
Proof.
  unfold Object_keys. rewrite length_fmap. apply Permutation_length, entries_perm.
Qed.

Lemma fold_left_append {A} (f : A → jsstring) (l : list A) (text : jsstring) :
  fold_left (fun text a => text ++ f a) l text = text ++ concat (map f l).
Proof.
  revert text. induction l as [|a l IH]; intros text; cbn [fold_left map concat].
  - by rewrite app_nil_r.
  - by rewrite IH, app_assoc.
Qed.

Lemma addCategory_listing (text : jsstring) (entry : jsstring * list jsstring) :
  Instructions.addCategory text entry = text ++ Instructions.listing entry.1 entry.2.
Proof.
  unfold Instructions.addCategory, Instructions.listing.
  rewrite (fold_left_append (fun memory => js "- " ++ memory ++ Codec.LF)).
  by rewrite <- !app_assoc.
Qed.

Lemma addMemories_listing (title : jsstring) (memories : JsObject (list jsstring))
    (text : jsstring) :
  Instructions.addMemories title memories text
  = text ++ match memories with
            | [] => []
            | _ :: _ =>
                Codec.LF ++ Codec.LF ++ title ++ Codec.LF
                ++ concat (map (fun entry => Instructions.listing entry.1 entry.2)
                             (Object_entries memories))
            end.
Proof.
  unfold Instructions.addMemories. rewrite keys_length.
  destruct memories as [|kv memories]; [by rewrite app_nil_r|].
  cbn [length Nat.ltb Nat.leb].
  rewrite (fold_left_ext_in _ (fun text entry =>
                                 text ++ Instructions.listing entry.1 entry.2))
    by (intros; apply addCategory_listing).
  rewrite (fold_left_append (fun entry => Instructions.listing entry.1 entry.2)).
  by rewrite <- !app_assoc.
Qed.

Lemma occurs_concat (x : jsstring) (l : list jsstring) : x ∈ l → occurs x (concat l).
Proof.
  intros (l1 & l2 & ->)%list_elem_of_split.
  exists (concat l1), (concat l2). by rewrite concat_app.
Qed.

Lemma occurs_app_l (t s s' : jsstring) : occurs t s → occurs t (s ++ s').
Proof. intros (pre & post & ->). exists pre, (post ++ s'). by rewrite <- !app_assoc. Qed.

Lemma occurs_app_r (t s s' : jsstring) : occurs t s' → occurs t (s ++ s').
Proof. intros (pre & post & ->). exists (s ++ pre), post. by rewrite <- !app_assoc. Qed.

(** The text added for a mapping holds the listing of each of its
    properties. *)
Lemma addMemories_holds (title : jsstring) (memories : JsObject (list jsstring))
    (text category : jsstring) (lines : list jsstring) :
  Assoc.get category memories = Some lines →
  ∃ added, Instructions.addMemories title memories text = text ++ added
           ∧ occurs (Instructions.listing category lines) added.
Proof.
  intros Hget. rewrite addMemories_listing. eexists. split; [done|].
  apply get_Some_elem in Hget.
  destruct memories as [|kv memories]; [by apply elem_of_nil in Hget|].
  do 4 apply occurs_app_r. apply occurs_concat.
  apply list_elem_of_fmap. exists (category, lines). split; [done|].
  by rewrite entries_perm.
Qed.

Lemma addMemories_extends (title : jsstring) (memories : JsObject (list jsstring))
    (text : jsstring) :
  ∃ added, Instructions.addMemories title memories text = text ++ added.
Proof. rewrite addMemories_listing. by eexists. Qed.

End InstructionFacts.

(** X24.  The construction of a manager never throws and never writes,
    whatever the storage holds or refuses.  The instruction text it leaves
    begins with the base instructions and the preamble of the memory
    section; it is just that when access to the storage is denied; and on
    storage that can be read it holds, for every item of either scope that
    decodes to at least one group (and whose category is not "__proto__"),
    the category's heading followed by one "- " line for each line the
    retrieval lists for it. *)
Theorem X24_construction_lists_the_memories
    (options_appName : option jsstring) (ls : LocalStorage) :
  let this := Manager.new options_appName in
  ∃ text,
    Instructions.constructor options_appName ls
    = (Returned {| manager := this; instructions := text |}, ls)
    ∧ (Instructions.getInstructions ++ Instructions.preamble) `prefix_of` text
    ∧ (denied ls = true → text = Instructions.getInstructions ++ Instructions.preamble)
    ∧ (denied ls = false →
       ∀ isGlobal category content,
         Assoc.get (Manager.getStorageKey this category isGlobal) (items ls) = Some content →
         category ≠ js "__proto__" → Codec.groupEntries content ≠ [] →
         occurs (Instructions.listing category (flattened (Codec.groupEntries content)))
           text).
Proof.
  cbv zeta. unfold Instructions.constructor, Instructions.loadExistingMemories. run_m.
  destruct (denied ls) eqn:Hd.
  - rewrite !Manager_retrieveAll_denied by done. eexists. split; [done|].
    unfold Instructions.addMemories. cbn [Object_keys Object_entries map Obj.values length].
    split; [done|]. split; [done | done].
  - destruct (Manager_retrieveAll_lists options_appName ls true Hd) as (gm & -> & Hg & _).
    destruct (Manager_retrieveAll_lists options_appName ls false Hd) as (lm & -> & Hl & _).
    cbv zeta in Hg, Hl. eexists. split; [done|].
    destruct (addMemories_extends (js "Global Memories:") gm Instructions.preamble)
      as (ga & Hga).
    split; [|split; [done|]].
    + destruct (addMemories_extends (js "Local Memories:") lm
                  (Instructions.addMemories (js "Global Memories:") gm Instructions.preamble))
        as (la & ->).
      rewrite Hga, <- !app_assoc. rewrite !app_assoc. rewrite <- (app_assoc _ ga la).
      by apply prefix_app_r.
    + intros _ isGlobal category content Hget Hproto Hview.
      apply occurs_app_r. destruct isGlobal.
      * destruct (addMemories_holds (js "Global Memories:") gm Instructions.preamble
                    category _ (Hg category content Hget Hproto Hview)) as (added & Ha & Hocc).
        destruct (addMemories_extends (js "Local Memories:") lm
                    (Instructions.addMemories (js "Global Memories:") gm
                       Instructions.preamble)) as (la & ->).
        rewrite Ha. by apply occurs_app_l, occurs_app_r.
      * destruct (addMemories_holds (js "Local Memories:") lm
                    (Instructions.addMemories (js "Global Memories:") gm
                       Instructions.preamble)
                    category _ (Hl category content Hget Hproto Hview)) as (added & -> & Hocc).
        by apply occurs_app_r.
Qed.

Lemma X24_witness :
  let ls := {| items := [(js "goose_global_memory_x",
                          Codec.content (js "call Ann") [js "todo"])];
               denied := false; quota := None |} in
  ∃ text,
    Instructions.constructor None ls
    = (Returned {| manager := Manager.new None; instructions := text |}, ls)
    ∧ occurs (Codec.LF ++ js "Category: x" ++ Codec.LF ++ js "- call Ann" ++ Codec.LF) text.
Proof.
  intros ls.
  destruct (X24_construction_lists_the_memories None ls) as (text & Hrun & _ & _ & Hlists).
  exists text. split; [exact Hrun|].
  apply (Hlists eq_refl true (js "x") (Codec.content (js "call Ann") [js "todo"]));
    [reflexivity | discriminate | discriminate].
Defined.

(* ===================================================================== *)
(** * Calls of the manager that fail                                      *)
(* ===================================================================== *)

(** X26.  A call of a tool of the manager that throws has changed nothing:
    whatever the tool, its arguments and the storage state (access denied,
    quota exceeded), when the callback throws the storage after the call
    is the storage before it. *)
Theorem X26_failed_manager_calls_change_nothing
    (this : MemoryManager) (r : request) (is_global : bool) (ls : LocalStorage)
    (error : JsError) :
  (Registered.handler this r is_global ls).1 = Thrown error →
  (Registered.handler this r is_global ls).2 = ls.
Proof.
  destruct r as [category data tags | category | category | category memory_content];
    cbn [Registered.handler].
  - unfold Manager.remember_memory, Manager.remember, Storage.getItem, Storage.setItem,
      Storage.access.
    run_m. destruct (denied ls) eqn:Hd; [done|]. cbv beta iota. rewrite Hd.
    destruct (quota ls) as [q|]; [|done].
    by destruct (q <? Storage.used _)%nat.
  - by destruct (Manager_retrieve_memories_reads this category is_global ls) as (m & -> & _).
  - destruct (denied ls) eqn:Hd.
    + unfold Manager.remove_memory_category, Manager.clearAllMemories, Manager.clearMemory,
        Storage.length, Storage.removeItem, Storage.access.
      run_m. case_decide; by rewrite Hd.
    + unfold Manager.remove_memory_category. run_m. case_decide.
      * by rewrite clearAllMemories_open.
      * by rewrite clearMemory_open.
  - unfold Manager.remove_specific_memory, Manager.removeSpecificMemory, Storage.getItem,
      Storage.setItem, Storage.access.
    run_m. destruct (denied ls) eqn:Hd; [done|].
    destruct (Assoc.get _ (items ls)) as [[|c s]|]; [done | | done].
    rewrite Hd. destruct (quota ls) as [q|]; [|done].
    by destruct (q <? Storage.used _)%nat.
Qed.

Lemma X26_witness :
  let ls := {| items := []; denied := false; quota := Some 10%nat |} in
  (Registered.handler (Manager.new None) (Remember (js "x") (js "call Ann") []) true ls).2
  = ls.
Proof.
  intros ls.
  apply (X26_failed_manager_calls_change_nothing (Manager.new None)
           (Remember (js "x") (js "call Ann") []) true ls
           {| name := js "Error";
              message := js "Failed to store memory: Failed to remember memory: QuotaExceededError: The quota has been exceeded." |}).
  reflexivity.
Defined.

(* ===================================================================== *)
(** * A category that was never stored                                    *)
(* ===================================================================== *)

Section MissingCategory.
Variable env : Env.
Implicit Types (fs : FileSystem) (r : request).








End MissingCategory.



